(** * Tagsistant Resilient Data Sets (src/rds.c)

    A shallow embedding of the RDS subsystem of Tagsistant: the query tree
    ([qtree_and_node], [qtree_or_node]), the subquery canonicalizer, the SQL
    fragment builder, the catalog operations and the four-phase build, with
    the statements they send to the SQL connection. *)

From Stdlib Require Import List String Ascii ZArith Bool Lia.
From Stdlib Require Import DecimalString DecimalPos DecimalZ.
Import ListNotations.
Local Open Scope string_scope.
Local Open Scope Z_scope.

(** ** Strings built by printf *)

(** A [GString] keeps the pieces it was assembled from: the literal text of
    the format, and the values interpolated by [%s] and [%d].  Its C string
    ([->str]) is the concatenation of the pieces. *)
Inductive piece : Type :=
| Lit (text : string)
| Str (s : string)
| Int (z : Z).

Definition GString : Type := list piece.

(** [%d] of an [int]: base 10, a leading minus sign for negative values. *)
Definition printf_d (z : Z) : string := NilZero.string_of_int (Z.to_int z).

(** [%s] of a [char *]: glibc prints a NULL pointer as [(null)]. *)
Definition printf_s (s : option string) : string :=
  match s with
  | Some s => s
  | None => "(null)"
  end.

Definition piece_str (p : piece) : string :=
  match p with
  | Lit text => text
  | Str s => s
  | Int z => printf_d z
  end.

Fixpoint g_string_str (g : GString) : string :=
  match g with
  | [] => ""
  | p :: g' => piece_str p ++ g_string_str g'
  end.

Inductive printf_arg : Type :=
| arg_s (s : option string)
| arg_d (z : Z).

Definition flush (lit : string) (rest : GString) : GString :=
  match lit with
  | EmptyString => rest
  | _ => Lit lit :: rest
  end.

(** The conversions the source uses: [%s], [%d] and [%%].  [lit] collects the
    literal text read since the last conversion. *)
Fixpoint sprintf_from (lit : string) (format : string) (args : list printf_arg)
  : GString :=
  match format with
  | EmptyString => flush lit []
  | String c rest =>
      if Ascii.eqb c "%" then
        match rest with
        | EmptyString => flush (lit ++ "%") []
        | String d rest' =>
            if Ascii.eqb d "%" then sprintf_from (lit ++ "%") rest' args
            else if Ascii.eqb d "s" then
              match args with
              | arg_s s :: args' =>
                  flush lit (Str (printf_s s) :: sprintf_from "" rest' args')
              | _ => flush lit (sprintf_from "" rest' (tl args))
              end
            else if Ascii.eqb d "d" then
              match args with
              | arg_d z :: args' =>
                  flush lit (Int z :: sprintf_from "" rest' args')
              | _ => flush lit (sprintf_from "" rest' (tl args))
              end
            else sprintf_from (lit ++ String c (String d "")) rest' args
        end
      else sprintf_from (lit ++ String c "") rest args
  end.

Definition sprintf (format : string) (args : list printf_arg) : GString :=
  sprintf_from "" format args.

(** printf on a format that comes without arguments: [%%] writes a per
    cent sign; every other conversion asks for an argument that was not
    passed, which C leaves undefined ([None]). *)
Fixpoint printf_without_arguments (format : string) : option string :=
  match format with
  | EmptyString => Some EmptyString
  | String c rest =>
      if Ascii.eqb c "%" then
        match rest with
        | String d rest' =>
            if Ascii.eqb d "%"
            then option_map (String "%") (printf_without_arguments rest')
            else None
        | EmptyString => None
        end
      else option_map (String c) (printf_without_arguments rest)
  end.

Definition g_string_new (init : string) : GString := flush init [].

Definition g_string_append (g : GString) (val : string) : GString :=
  (g ++ flush val [])%list.

Definition g_string_append_printf (g : GString) (format : string)
  (args : list printf_arg) : GString :=
  (g ++ sprintf format args)%list.

(** ** The query tree (tagsistant.h) *)

(** Modelled from the spec: the operator constants are declared in
    tagsistant.h, which is not part of the sources at hand.  The four named
    operators are those of the spec's [Triple]; [TAGSISTANT_NONE] stands for
    any other value of the field, for which the [switch] statements of rds.c
    have no case. *)
Inductive tagsistant_query_operators : Type :=
| TAGSISTANT_NONE
| TAGSISTANT_EQUAL_TO
| TAGSISTANT_CONTAINS
| TAGSISTANT_GREATER_THAN
| TAGSISTANT_SMALLER_THAN.

(** The scalar fields of a [qtree_and_node] that rds.c reads.  A [char *]
    field is [None] when it is NULL. *)
Record and_fields : Type := mk_and_fields {
  tag_id : Z;
  tag : option string;
  namespace : option string;
  key : option string;
  value : option string;
  operator : tagsistant_query_operators
}.

(** A pointer to a [qtree_and_node]: NULL, or a node with its three links. *)
Inductive qtree_and_node : Type :=
| and_NULL
| and_node (f : and_fields) (next related negated : qtree_and_node).

(** A pointer to a [qtree_or_node]: NULL, or a node with [and_set] and
    [next]. *)
Inductive qtree_or_node : Type :=
| or_NULL
| or_node (and_set0 : qtree_and_node) (next : qtree_or_node).

(** ** SubqueryCanonicalizer *)

Definition tagsistant_RDS_subquery_add_tag (subquery : GString)
  (node : and_fields) (negated : Z) : GString :=
  let subquery :=
    if negated =? 0 then subquery else g_string_append subquery "-/" in
  match tag node with
  | Some _ => g_string_append_printf subquery "%s/" [arg_s (tag node)]
  | None =>
      let subquery :=
        g_string_append_printf subquery "%s/%s/"
          [arg_s (namespace node); arg_s (key node)] in
      let subquery :=
        match operator node with
        | TAGSISTANT_EQUAL_TO => g_string_append subquery "eq/"
        | TAGSISTANT_CONTAINS => g_string_append subquery "inc/"
        | TAGSISTANT_GREATER_THAN => g_string_append subquery "gt/"
        | TAGSISTANT_SMALLER_THAN => g_string_append subquery "lt/"
        | TAGSISTANT_NONE => subquery
        end in
      g_string_append_printf subquery "%s/" [arg_s (value node)]
  end.

(** First loop of [tagsistant_RDS_build_subquery]: the main chain. *)
Fixpoint build_subquery_main (subquery : GString) (node_ptr : qtree_and_node)
  : GString :=
  match node_ptr with
  | and_NULL => subquery
  | and_node f next _ _ =>
      build_subquery_main (tagsistant_RDS_subquery_add_tag subquery f 0) next
  end.

(** Inner loop of the second pass: it steps through [->next]. *)
Fixpoint build_subquery_negated (subquery : GString) (negated : qtree_and_node)
  : GString :=
  match negated with
  | and_NULL => subquery
  | and_node f next _ _ =>
      build_subquery_negated (tagsistant_RDS_subquery_add_tag subquery f 1) next
  end.

(** Outer loop of the second pass. *)
Fixpoint build_subquery_negations (subquery : GString)
  (node_ptr : qtree_and_node) : GString :=
  match node_ptr with
  | and_NULL => subquery
  | and_node _ next _ negated =>
      build_subquery_negations (build_subquery_negated subquery negated) next
  end.

(** [query->and_set].  The functions below dereference [query] on a path
    where it is not NULL; at NULL the model reads an empty chain. *)
Definition and_set (query : qtree_or_node) : qtree_and_node :=
  match query with
  | or_NULL => and_NULL
  | or_node and_set _ => and_set
  end.

Definition tagsistant_RDS_build_subquery (query : qtree_or_node) : string :=
  let subquery := g_string_new "" in
  let subquery := build_subquery_main subquery (and_set query) in
  let subquery := build_subquery_negations subquery (and_set query) in
  g_string_str subquery.

Definition named (t : string) : and_fields :=
  mk_and_fields 0 (Some t) None None None TAGSISTANT_NONE.

Definition triple (ns k : string) (op : tagsistant_query_operators)
  (v : string) : and_fields :=
  mk_and_fields 0 None (Some ns) (Some k) (Some v) op.

Definition leaf (f : and_fields) : qtree_and_node :=
  and_node f and_NULL and_NULL and_NULL.


(** ** SqlFragmentBuilder *)

Definition tagsistant_query_add_and_set (statement : GString)
  (and_set : and_fields) : GString :=
  if negb (tag_id and_set =? 0) then
    g_string_append_printf statement "tagging.tag_id = %d "
      [arg_d (tag_id and_set)]
  else
    match tag and_set, value and_set with
    | Some _, _ =>
        g_string_append_printf statement "tagname = '%s' " [arg_s (tag and_set)]
    | None, Some _ =>
        match operator and_set with
        | TAGSISTANT_EQUAL_TO =>
            g_string_append_printf statement
              "tagname = '%s' and `key` = '%s' and value = '%s' "
              [arg_s (namespace and_set); arg_s (key and_set);
               arg_s (value and_set)]
        | TAGSISTANT_CONTAINS =>
            g_string_append_printf statement
              "tagname = '%s' and `key` = '%s' and value like '%%%s%%' "
              [arg_s (namespace and_set); arg_s (key and_set);
               arg_s (value and_set)]
        | TAGSISTANT_GREATER_THAN =>
            g_string_append_printf statement
              "tagname = '%s' and `key` = '%s' and value > '%s' "
              [arg_s (namespace and_set); arg_s (key and_set);
               arg_s (value and_set)]
        | TAGSISTANT_SMALLER_THAN =>
            g_string_append_printf statement
              "tagname = '%s' and `key` = '%s' and value < '%s' "
              [arg_s (namespace and_set); arg_s (key and_set);
               arg_s (value and_set)]
        | TAGSISTANT_NONE => statement
        end
    | None, None => statement
    end.

(** ** CatalogStore: the tables behind the connection *)

Record RDS_catalog_row : Type := mk_catalog_row {
  cat_rds_id : Z;
  cat_subquery : string;
  cat_expired : Z
}.

Record RDS_row : Type := mk_RDS_row {
  rds_id : Z;
  inode : Z;
  objectname : string
}.

Record objects_row : Type := mk_objects_row {
  obj_inode : Z;
  obj_objectname : string
}.

Record tagging_row : Type := mk_tagging_row {
  tagging_inode : Z;
  tagging_tag_id : Z
}.

Record tags_row : Type := mk_tags_row {
  tags_tag_id : Z;
  tagname : string;
  tags_key : string;
  tags_value : string
}.

(** Modelled from the spec: the tables of section 6 and of the header of
    rds.c; the database itself is outside the sources.  What a [dbi_conn]
    gives access to: the two RDS tables, the tables they are filled from, the counter behind [rds_id]'s auto_increment, the id of
    the last inserted row, and the statements received so far, oldest
    first.  An [rds_id] is an [int] column, which the C [int] holds as it
    is. *)
Record dbi_conn : Type := mk_conn {
  RDS_catalog : list RDS_catalog_row;
  RDS : list RDS_row;
  objects : list objects_row;
  tagging : list tagging_row;
  tags : list tags_row;
  auto_increment : Z;
  last_insert_id : Z;
  statements : list GString
}.

Definition with_RDS_catalog (c : dbi_conn) (l : list RDS_catalog_row) :=
  mk_conn l (RDS c) (objects c) (tagging c) (tags c)
    (auto_increment c) (last_insert_id c) (statements c).

Definition with_RDS (c : dbi_conn) (l : list RDS_row) :=
  mk_conn (RDS_catalog c) l (objects c) (tagging c) (tags c)
    (auto_increment c) (last_insert_id c) (statements c).

Definition with_statement (c : dbi_conn) (sql : GString) :=
  mk_conn (RDS_catalog c) (RDS c) (objects c) (tagging c) (tags c)
    (auto_increment c) (last_insert_id c) (statements c ++ [sql])%list.

(** ** The SQL executor *)

(** Modelled from the spec: [tagsistant_query], [tagsistant_last_insert_id]
    and [tagsistant_return_integer] are declared in tagsistant.h and defined
    outside rds.c.  The executor is the spec's [SqlExecutor]: it receives a
    statement, runs it on the tables and hands the result rows to the
    callback.  It recognises the statements rds.c sends.  For a call with a
    format and arguments, each interpolated value is read as one value.  A
    statement that rds.c assembles in a GString and passes as the format
    itself is read from its text, character by character, as the engine
    receives it.  Any other text is rejected as a syntax error and leaves
    the tables as they are. *)

Inductive sql_comparison : Type := sql_eq | sql_like | sql_gt | sql_lt.

Inductive predicate : Type :=
| tag_id_is (n : Z)
| tagname_is (t : string)
| triple_is (cmp : sql_comparison) (ns k v : string).

Inductive statement : Type :=
| delete_RDS_of_subquery (s : string)
| delete_catalog_of_subquery (s : string)
| select_rds_id_of_subquery (s : string)
| insert_catalog (s : string)
| insert_RDS_select (id : Z) (w : list predicate)
| insert_RDS_select_union (id : Z) (w : list predicate) (row : RDS_row)
| delete_RDS_not_in (id : Z) (w : list predicate)
| delete_RDS_in (id : Z) (w : list predicate)
| update_expired (ids : list Z).

Definition joined_tables : string :=
  "from objects " ++
  "join tagging on tagging.inode = objects.inode " ++
  "join tags on tags.tag_id = tagging.tag_id " ++
  "where ".

(** The list of an [in (...)]: integers separated by commas, blanks
    allowed around them. *)
Fixpoint split_commas (cur : string) (s : string) : list string :=
  match s with
  | EmptyString => [cur]
  | String c s' =>
      if Ascii.eqb c "," then cur :: split_commas "" s'
      else split_commas (cur ++ String c "") s'
  end.

Fixpoint skip_blanks (s : string) : string :=
  match s with
  | String c s' => if Ascii.eqb c " " then skip_blanks s' else s
  | EmptyString => s
  end.

Fixpoint drop_trailing_blanks (s : string) : string :=
  match s with
  | EmptyString => EmptyString
  | String c s' =>
      match drop_trailing_blanks s' with
      | EmptyString => if Ascii.eqb c " " then EmptyString else String c ""
      | t => String c t
      end
  end.

Definition parse_integer (s : string) : option Z :=
  option_map Z.of_int
    (NilZero.int_of_string (drop_trailing_blanks (skip_blanks s))).

Fixpoint parse_integers (l : list string) : option (list Z) :=
  match l with
  | [] => Some []
  | s :: l' =>
      match parse_integer s, parse_integers l' with
      | Some z, Some zs => Some (z :: zs)
      | _, _ => None
      end
  end.

Definition parse_in_list (s : string) : option (list Z) :=
  parse_integers (split_commas "" s).

(** ** Statements read from their text *)

(** [text] without [prefix], when it starts with it. *)
Fixpoint strip_prefix (prefix text : string) : option string :=
  match prefix with
  | EmptyString => Some text
  | String a prefix' =>
      match text with
      | String b text' =>
          if Ascii.eqb a b then strip_prefix prefix' text' else None
      | EmptyString => None
      end
  end.

(** A string literal, from after its opening quote: the characters up to
    the quote that closes it, and what follows that quote.  A doubled quote
    stands for one quote inside the literal.  [None] when the text ends
    inside the literal. *)
Fixpoint read_literal (text : string) : option (string * string) :=
  match text with
  | EmptyString => None
  | String c text' =>
      if Ascii.eqb c "'" then
        match text' with
        | String d text'' =>
            if Ascii.eqb d "'" then
              match read_literal text'' with
              | Some (lit, rest) => Some (String "'" lit, rest)
              | None => None
              end
            else Some (EmptyString, text')
        | EmptyString => Some (EmptyString, EmptyString)
        end
      else
        match read_literal text' with
        | Some (lit, rest) => Some (String c lit, rest)
        | None => None
        end
  end.

Definition is_integer_char (c : ascii) : bool :=
  Ascii.eqb c "-"
  || ((48 <=? nat_of_ascii c)%nat && (nat_of_ascii c <=? 57)%nat).

(** The longest run of sign and digit characters at the head of the text,
    and what follows it. *)
Fixpoint read_digits (text : string) : string * string :=
  match text with
  | EmptyString => (EmptyString, EmptyString)
  | String c text' =>
      if is_integer_char c
      then let (digits, rest) := read_digits text' in (String c digits, rest)
      else (EmptyString, text)
  end.

Definition read_integer (text : string) : option (Z * string) :=
  let (digits, rest) := read_digits text in
  match parse_integer digits with
  | Some z => Some (z, rest)
  | None => None
  end.

(** [%v%] gives [v]. *)
Fixpoint strip_last_percent (s : string) : option string :=
  match s with
  | EmptyString => None
  | String c s' =>
      match s' with
      | EmptyString => if Ascii.eqb c "%" then Some EmptyString else None
      | _ => option_map (String c) (strip_last_percent s')
      end
  end.

Definition like_value (pattern : string) : option string :=
  match pattern with
  | String c rest => if Ascii.eqb c "%" then strip_last_percent rest else None
  | EmptyString => None
  end.

(** The comparison of a triple and its literal: [ and value CMP 'v' ]. *)
Definition read_comparison (text : string)
  : option (sql_comparison * string * string) :=
  let literal (cmp : sql_comparison) (r : string) :=
    match read_literal r with
    | Some (v, r') =>
        match cmp with
        | sql_like => option_map (fun v' => (cmp, v', r')) (like_value v)
        | _ => Some (cmp, v, r')
        end
    | None => None
    end in
  match strip_prefix " and value = '" text with
  | Some r => literal sql_eq r
  | None =>
  match strip_prefix " and value like '" text with
  | Some r => literal sql_like r
  | None =>
  match strip_prefix " and value > '" text with
  | Some r => literal sql_gt r
  | None =>
  match strip_prefix " and value < '" text with
  | Some r => literal sql_lt r
  | None => None
  end end end end.

(** One criterion of a where clause, with the blank that ends it, as
    [tagsistant_query_add_and_set] writes them. *)
Definition read_predicate (text : string) : option (predicate * string) :=
  match strip_prefix "tagging.tag_id = " text with
  | Some r =>
      match read_integer r with
      | Some (n, r') =>
          option_map (fun r'' => (tag_id_is n, r'')) (strip_prefix " " r')
      | None => None
      end
  | None =>
  match strip_prefix "tagname = '" text with
  | Some r =>
      match read_literal r with
      | Some (x, r1) =>
          match strip_prefix " and `key` = '" r1 with
          | Some r2 =>
              match read_literal r2 with
              | Some (k, r3) =>
                  match read_comparison r3 with
                  | Some (cmp, v, r4) =>
                      option_map (fun r5 => (triple_is cmp x k v, r5))
                        (strip_prefix " " r4)
                  | None => None
                  end
              | None => None
              end
          | None =>
              option_map (fun r2 => (tagname_is x, r2)) (strip_prefix " " r1)
          end
      | None => None
      end
  | None => None
  end end.

(** [p1 or p2 or ...], and what follows.  [fuel] bounds the number of
    criteria. *)
Fixpoint read_where (fuel : nat) (text : string)
  : option (list predicate * string) :=
  match fuel with
  | O => None
  | S fuel' =>
      match read_predicate text with
      | Some (p, r) =>
          match strip_prefix " or " r with
          | Some r' =>
              match read_where fuel' r' with
              | Some (w, rest) => Some (p :: w, rest)
              | None => None
              end
          | None => Some ([p], r)
          end
      | None => None
      end
  end.

(** A second select of three constants, [union select n, i, 'name'], which
    a tag that holds a quote can append to the select of an insert. *)
Definition read_union (text : string) : option RDS_row :=
  match strip_prefix "union select " text with
  | Some r =>
      match read_integer r with
      | Some (n, r1) =>
          match strip_prefix ", " r1 with
          | Some r2 =>
              match read_integer r2 with
              | Some (i, r3) =>
                  match strip_prefix ", '" r3 with
                  | Some r4 =>
                      match read_literal r4 with
                      | Some (name, r5) =>
                          if (skip_blanks r5 =? "")%string
                          then Some (mk_RDS_row n i name) else None
                      | None => None
                      end
                  | None => None
                  end
              | None => None
              end
          | None => None
          end
      | None => None
      end
  | None => None
  end.

(** Modelled from the spec: the statements of section 4.5 (phases 2, 3 and
    4), recognised in the text the engine receives. *)
Definition sql_parse_text (text : string) : option statement :=
  match strip_prefix "insert into RDS select " text with
  | Some r =>
      match read_integer r with
      | Some (id, r1) =>
          match strip_prefix
                  (", objects.inode, objects.objectname " ++ joined_tables)
                  r1 with
          | Some r2 =>
              match read_where (String.length r2) r2 with
              | Some (w, EmptyString) => Some (insert_RDS_select id w)
              | Some (w, rest) =>
                  option_map (insert_RDS_select_union id w) (read_union rest)
              | None => None
              end
          | None => None
          end
      | None => None
      end
  | None =>
  match strip_prefix "delete from RDS where rds_id = " text with
  | Some r =>
      match read_integer r with
      | Some (id, r1) =>
          match strip_prefix
                  (" and inode not in (select objects.inode " ++ joined_tables)
                  r1 with
          | Some r2 =>
              match read_where (String.length r2) r2 with
              | Some (w, rest) =>
                  if (rest =? ")")%string
                  then Some (delete_RDS_not_in id w) else None
              | None => None
              end
          | None =>
          match strip_prefix
                  (" and inode in (select objects.inode " ++ joined_tables)
                  r1 with
          | Some r2 =>
              match read_where (String.length r2) r2 with
              | Some (w, rest) =>
                  if (rest =? ")")%string
                  then Some (delete_RDS_in id w) else None
              | None => None
              end
          | None => None
          end end
      | None => None
      end
  | None => None
  end end.

(** Modelled from the spec: the statements of sections 4.4 and 4.7, which
    rds.c sends as a format with arguments, recognised by the text of the
    format. *)
Definition sql_parse (sql : GString) : option statement :=
  match sql with
  | [Lit a; Str s; Lit b] =>
      if ((a =? "delete from RDS where rds_id = (select rds_id from RDS_catalog where subquery = '")
          && (b =? "')"))%string
      then Some (delete_RDS_of_subquery s)
      else if ((a =? "delete from RDS_catalog where subquery = '")
               && (b =? "'"))%string
      then Some (delete_catalog_of_subquery s)
      else if ((a =? "select rds_id from RDS_catalog where subquery = '")
               && (b =? "'"))%string
      then Some (select_rds_id_of_subquery s)
      else if ((a =? "insert into RDS_catalog (subquery) values ('")
               && (b =? "')"))%string
      then Some (insert_catalog s)
      else if ((a =? "update RDS_catalog set expired = 1 where rds_id in (")
               && (b =? ")"))%string
      then option_map update_expired (parse_in_list s)
      else None
  | _ => None
  end.

(** The rows of [objects join tagging join tags]: an object with one of the
    tags attached to it. *)
Definition joined (c : dbi_conn) : list (objects_row * tags_row) :=
  flat_map (fun o =>
    flat_map (fun tg =>
      if tagging_inode tg =? obj_inode o
      then map (fun t => (o, t))
             (filter (fun t => tags_tag_id t =? tagging_tag_id tg) (tags c))
      else [])
      (tagging c))
    (objects c).

Fixpoint is_substring (needle hay : string) : bool :=
  String.prefix needle hay ||
  match hay with
  | EmptyString => false
  | String _ hay' => is_substring needle hay'
  end.

(** Letters are compared without regard to case by [like], as the
    engines behind libdbi do by default for ASCII. *)
Definition lower (c : ascii) : ascii :=
  let n := nat_of_ascii c in
  if ((65 <=? n) && (n <=? 90))%nat then ascii_of_nat (n + 32) else c.

Definition same_letter (a b : ascii) : bool := Ascii.eqb (lower a) (lower b).

(** [text like pattern]: [%] stands for any run of characters, [_] for any
    one character.  No escape character is read. *)
Fixpoint like_match (pattern text : string) : bool :=
  match pattern with
  | EmptyString =>
      match text with
      | EmptyString => true
      | String _ _ => false
      end
  | String p pattern' =>
      if Ascii.eqb p "%" then
        (fix skip (t : string) : bool :=
           like_match pattern' t
           || match t with
              | EmptyString => false
              | String _ t' => skip t'
              end) text
      else
        match text with
        | EmptyString => false
        | String c text' =>
            (Ascii.eqb p "_" || same_letter p c) && like_match pattern' text'
        end
  end.

Definition compare_value (cmp : sql_comparison) (column literal : string)
  : bool :=
  match cmp with
  | sql_eq => (column =? literal)%string
  | sql_like => like_match ("%" ++ literal ++ "%") column
  | sql_gt => String.ltb literal column
  | sql_lt => String.ltb column literal
  end.

Definition predicate_holds (p : predicate) (j : objects_row * tags_row)
  : bool :=
  match p with
  | tag_id_is n => tags_tag_id (snd j) =? n
  | tagname_is t => (tagname (snd j) =? t)%string
  | triple_is cmp ns k v =>
      (tagname (snd j) =? ns)%string && (tags_key (snd j) =? k)%string
      && compare_value cmp (tags_value (snd j)) v
  end.

(** [where p1 or p2 or ...] *)
Definition where_holds (w : list predicate) (j : objects_row * tags_row)
  : bool :=
  existsb (fun p => predicate_holds p j) w.

Definition selected (w : list predicate) (c : dbi_conn)
  : list (objects_row * tags_row) :=
  filter (where_holds w) (joined c).

Definition mem (z : Z) (l : list Z) : bool := existsb (Z.eqb z) l.

Definition selected_inodes (w : list predicate) (c : dbi_conn) : list Z :=
  map (fun j => obj_inode (fst j)) (selected w c).

Definition rds_ids_of_subquery (s : string) (c : dbi_conn) : list Z :=
  map cat_rds_id
    (filter (fun r => (cat_subquery r =? s)%string) (RDS_catalog c)).

(** A result row: the integer columns of the select. *)
Definition dbi_result : Type := list Z.

Definition RDS_row_eq_dec (x y : RDS_row) : {x = y} + {x <> y}.
Proof. decide equality; [apply string_dec | apply Z.eq_dec | apply Z.eq_dec]. Defined.

(** Modelled from the spec: what each statement does to the tables.  A new
    catalog row takes the value of the auto_increment counter as its rds_id
    and 0 as its expired flag; [rds_id = (select ...)] is read as the spec
    words it, on every catalog row of the subquery. *)
Definition sql_exec (st : statement) (c : dbi_conn)
  : list dbi_result * dbi_conn :=
  match st with
  | delete_RDS_of_subquery s =>
      ([], with_RDS c
             (filter (fun r => negb (mem (rds_id r) (rds_ids_of_subquery s c)))
                (RDS c)))
  | delete_catalog_of_subquery s =>
      ([], with_RDS_catalog c
             (filter (fun r => negb (cat_subquery r =? s)%string)
                (RDS_catalog c)))
  | select_rds_id_of_subquery s =>
      (map (fun id => [id]) (rds_ids_of_subquery s c), c)
  | insert_catalog s =>
      ([], mk_conn
             (RDS_catalog c ++ [mk_catalog_row (auto_increment c) s 0])
             (RDS c) (objects c) (tagging c) (tags c)
             (auto_increment c + 1) (auto_increment c) (statements c))
  | insert_RDS_select id w =>
      ([], with_RDS c
             (RDS c ++
              map (fun j => mk_RDS_row id (obj_inode (fst j))
                              (obj_objectname (fst j)))
                (selected w c)))
  | insert_RDS_select_union id w row =>
      (* a union keeps one copy of each row of the two selects *)
      ([], with_RDS c
             (RDS c ++
              nodup RDS_row_eq_dec
                (map (fun j => mk_RDS_row id (obj_inode (fst j))
                                 (obj_objectname (fst j)))
                   (selected w c) ++ [row])))
  | delete_RDS_not_in id w =>
      ([], with_RDS c
             (filter (fun r => negb ((rds_id r =? id)
                                     && negb (mem (inode r) (selected_inodes w c))))
                (RDS c)))
  | delete_RDS_in id w =>
      ([], with_RDS c
             (filter (fun r => negb ((rds_id r =? id)
                                     && mem (inode r) (selected_inodes w c)))
                (RDS c)))
  | update_expired ids =>
      ([], with_RDS_catalog c
             (map (fun r => if mem (cat_rds_id r) ids
                            then mk_catalog_row (cat_rds_id r) (cat_subquery r) 1
                            else r)
                (RDS_catalog c)))
  end.

(** ** Calls on the connection *)

(** The connection is threaded through every call. *)
Definition SQL (A : Type) : Type := dbi_conn -> A * dbi_conn.

Definition ret {A : Type} (a : A) : SQL A := fun conn => (a, conn).

Definition bind {A B : Type} (m : SQL A) (k : A -> SQL B) : SQL B :=
  fun conn => let (a, conn') := m conn in k a conn'.

Notation "x <- m ;; k" := (bind m (fun x => k))
  (at level 61, m at next level, right associativity).
Notation "m ;; k" := (bind m (fun _ => k))
  (at level 61, right associativity).

(** Modelled from the spec: the function behind the [tagsistant_query]
    macro, which is not under src/.  The statement is recorded, run, and
    every result row is passed to the callback together with the buffer. *)
Definition tagsistant_real_query {A : Type} (sql : GString)
  (callback : option (A -> dbi_result -> A)) (firstarg : A) : SQL A :=
  fun conn =>
    let conn := with_statement conn sql in
    match sql_parse sql with
    | None => (firstarg, conn)
    | Some st =>
        let (rows, conn') := sql_exec st conn in
        (match callback with
         | Some cb => fold_left cb rows firstarg
         | None => firstarg
         end, conn')
    end.

Definition tagsistant_query {A : Type} (format : string)
  (callback : option (A -> dbi_result -> A)) (firstarg : A)
  (args : list printf_arg) : SQL A :=
  tagsistant_real_query (sprintf format args) callback firstarg.

(** [tagsistant_query(g->str, conn, NULL, NULL)], the call rds.c makes on a
    statement it has assembled in the GString [g]: the text of [g] is the
    printf format, and there is no argument, no callback and no buffer.
    Modelled from the spec, as [tagsistant_real_query]: the GString handed
    over is recorded; the engine receives the text that printf makes of
    [g->str] and reads it as [sql_parse_text] does.  Where printf is
    undefined, and where the engine rejects the text, the tables stay as
    they are. *)
Definition tagsistant_query_str (g : GString) : SQL unit :=
  fun conn =>
    let format := g_string_str g in
    let conn := with_statement conn g in
    match printf_without_arguments format with
    | None => (tt, conn)
    | Some text =>
        match sql_parse_text text with
        | None => (tt, conn)
        | Some st => (tt, snd (sql_exec st conn))
        end
    end.

(** Modelled from the spec: the callback stores the first column of the row
    in the buffer. *)
Definition tagsistant_return_integer (buffer : Z) (result : dbi_result) : Z :=
  match result with
  | v :: _ => v
  | [] => 0
  end.

(** Modelled from the spec: the id given to the row of the last insert. *)
Definition tagsistant_last_insert_id : SQL Z :=
  fun conn => (last_insert_id conn, conn).

Definition NULL {A : Type} : option A := None.

(** ** CatalogStore: [tagsistant_RDS_fetch_id] *)

Definition tagsistant_RDS_fetch_id (subquery : string)
  (rebuild_expired_RDS : Z) : SQL Z :=
  (if rebuild_expired_RDS =? 0 then ret tt
   else
     tagsistant_query
       ("delete from RDS where rds_id = (" ++
          "select rds_id " ++
          "from RDS_catalog " ++
          "where subquery = '%s')")
       NULL tt [arg_s (Some subquery)] ;;
     tagsistant_query
       ("delete from RDS_catalog " ++
          "where subquery = '%s'")
       NULL tt [arg_s (Some subquery)]) ;;
  let rds_id := 0 in
  tagsistant_query
    "select rds_id from RDS_catalog where subquery = '%s'"
    (Some tagsistant_return_integer) rds_id [arg_s (Some subquery)].

(** ** RdsBuilder: [tagsistant_RDS_build] *)

(** [while (related) { ... related = related->related; }] *)
Fixpoint add_related (statement : GString) (related : qtree_and_node)
  : GString :=
  match related with
  | and_NULL => statement
  | and_node f _ related' _ =>
      let statement := g_string_append statement " or " in
      let statement := tagsistant_query_add_and_set statement f in
      add_related statement related'
  end.

(** PHASE 3: [while (next) { ... next = next->next; }] *)
Fixpoint phase_3_loop (rds_id : Z) (next : qtree_and_node) : SQL unit :=
  match next with
  | and_NULL => ret tt
  | and_node f next' related _ =>
      let phase_3 :=
        g_string_append_printf []
          ("delete from RDS " ++
           "where rds_id = %d " ++
           "and inode not in (" ++
             "select objects.inode from objects " ++
               "join tagging on tagging.inode = objects.inode " ++
               "join tags on tags.tag_id = tagging.tag_id " ++
               "where ")
          [arg_d rds_id] in
      let phase_3 := tagsistant_query_add_and_set phase_3 f in
      let phase_3 := add_related phase_3 related in
      let phase_3 := g_string_append phase_3 ")" in
      tagsistant_query_str phase_3 ;;
      phase_3_loop rds_id next'
  end.

(** PHASE 4, inner loop: [while (negated) { ... negated = negated->negated; }] *)
Fixpoint phase_4_negated (rds_id : Z) (negated : qtree_and_node) : SQL unit :=
  match negated with
  | and_NULL => ret tt
  | and_node f _ related negated' =>
      let phase_4 :=
        g_string_append_printf []
          ("delete from RDS " ++
           "where rds_id = %d " ++
           "and inode in (" ++
             "select objects.inode from objects " ++
               "join tagging on tagging.inode = objects.inode " ++
               "join tags on tags.tag_id = tagging.tag_id " ++
               "where ")
          [arg_d rds_id] in
      let phase_4 := tagsistant_query_add_and_set phase_4 f in
      let phase_4 := add_related phase_4 related in
      let phase_4 := g_string_append phase_4 ")" in
      tagsistant_query_str phase_4 ;;
      phase_4_negated rds_id negated'
  end.

(** PHASE 4, outer loop: [while (next) { ... next = next->next; }] *)
Fixpoint phase_4_loop (rds_id : Z) (next : qtree_and_node) : SQL unit :=
  match next with
  | and_NULL => ret tt
  | and_node _ next' _ negated =>
      phase_4_negated rds_id negated ;;
      phase_4_loop rds_id next'
  end.

Definition tagsistant_RDS_build (query : qtree_or_node) (subquery : string)
  : SQL Z :=
  (* PHASE 1 *)
  tagsistant_query
    "insert into RDS_catalog (subquery) values ('%s')"
    NULL tt [arg_s (Some subquery)] ;;
  rds_id <- tagsistant_last_insert_id ;;
  (* PHASE 2 *)
  let phase_2 :=
    g_string_append_printf []
      ("insert into RDS " ++
       "select %d, objects.inode, objects.objectname " ++
         "from objects " ++
         "join tagging on tagging.inode = objects.inode " ++
         "join tags on tags.tag_id = tagging.tag_id " ++
         "where ")
      [arg_d rds_id] in
  match and_set query with
  | and_NULL => ret rds_id
  | and_node f next related _ =>
      let phase_2 := tagsistant_query_add_and_set phase_2 f in
      let phase_2 := add_related phase_2 related in
      tagsistant_query_str phase_2 ;;
      (* PHASE 3 *)
      phase_3_loop rds_id next ;;
      (* PHASE 4 *)
      phase_4_loop rds_id (and_set query) ;;
      ret rds_id
  end.

(** ** RdsCoordinator: [tagsistant_RDS_prepare] *)

(** [tagsistant_RDS_mutex] serialises threads.  The model runs one thread,
    for which taking and releasing the mutex changes nothing. *)
Definition g_mutex_lock : SQL unit := ret tt.
Definition g_mutex_unlock : SQL unit := ret tt.

(** [while (query) { ... query = query->next; }] *)
Fixpoint prepare_loop (RDS_ids : GString) (query : qtree_or_node)
  (rebuild_expired_RDS : Z) : SQL GString :=
  match query with
  | or_NULL => ret RDS_ids
  | or_node _ next =>
      let subquery := tagsistant_RDS_build_subquery query in
      g_mutex_lock ;;
      rds_id <- tagsistant_RDS_fetch_id subquery rebuild_expired_RDS ;;
      rds_id <- (if rds_id =? 0
                 then tagsistant_RDS_build query subquery
                 else ret rds_id) ;;
      g_mutex_unlock ;;
      let RDS_ids := g_string_append_printf RDS_ids ", %d" [arg_d rds_id] in
      prepare_loop RDS_ids next rebuild_expired_RDS
  end.

(** [str + n]: the C string from its [n]-th character on. *)
Fixpoint skip (n : nat) (str : string) : string :=
  match n, str with
  | S n', String _ str' => skip n' str'
  | _, _ => str
  end.

Definition tagsistant_RDS_prepare (query : qtree_or_node) (is_all_path : Z)
  (rebuild_expired_RDS : Z) : SQL (option string) :=
  if negb (is_all_path =? 0) then ret None
  else
    match query with
    | or_NULL => ret None
    | or_node _ _ =>
        let RDS_ids := g_string_new "" in
        RDS_ids <- prepare_loop RDS_ids query rebuild_expired_RDS ;;
        (* skip the starting ", " *)
        ret (Some (skip 2 (g_string_str RDS_ids)))
    end.

(** ** Invalidator: [tagsistant_RDS_invalidate] *)

(** The fields of [tagsistant_querytree] that rds.c reads. *)
Record tagsistant_querytree : Type := mk_querytree {
  qtree_inode : Z;
  object_path : option string;
  RDS_fingerprint : option string
}.

Definition tagsistant_RDS_invalidate (qtree : tagsistant_querytree)
  : SQL unit :=
  tagsistant_query
    "update RDS_catalog set expired = 1 where rds_id in (%s)"
    NULL tt [arg_s (RDS_fingerprint qtree)].

(** ** Sample data *)



(** Scenario S1 of the spec: red on inodes 1 and 2, big on inodes 2 and 3. *)
Definition S1_conn : dbi_conn :=
  mk_conn [] []
    [mk_objects_row 1 "one"; mk_objects_row 2 "two"; mk_objects_row 3 "three"]
    [mk_tagging_row 1 10; mk_tagging_row 2 10;
     mk_tagging_row 2 20; mk_tagging_row 3 20]
    [mk_tags_row 10 "red" "" ""; mk_tags_row 20 "big" "" ""]
    1 0 [].

Definition conj (l : list and_fields) : qtree_and_node :=
  fold_right (fun f rest => and_node f rest and_NULL and_NULL) and_NULL l.

Definition red_and_big : qtree_or_node :=
  or_node (conj [named "red"; named "big"]) or_NULL.

Definition red_not_big : qtree_or_node :=
  or_node (and_node (named "red") and_NULL and_NULL (leaf (named "big"))) or_NULL.

Definition red_or_big : qtree_or_node :=
  or_node (leaf (named "red")) (or_node (leaf (named "big")) or_NULL).

(** A connection whose catalog holds an expired entry for [red/]. *)
Definition expired_conn : dbi_conn :=
  mk_conn [mk_catalog_row 1 "red/" 1] [mk_RDS_row 1 1 "one"]
    (objects S1_conn) (tagging S1_conn) (tags S1_conn) 2 1 [].

Definition red : qtree_or_node := or_node (leaf (named "red")) or_NULL.

(** Red on inodes 1, 2 and 3, big on inode 2, round on inode 3. *)
Definition shapes_conn : dbi_conn :=
  mk_conn [] []
    [mk_objects_row 1 "one"; mk_objects_row 2 "two"; mk_objects_row 3 "three"]
    [mk_tagging_row 1 10; mk_tagging_row 2 10; mk_tagging_row 3 10;
     mk_tagging_row 2 20; mk_tagging_row 3 30]
    [mk_tags_row 10 "red" "" ""; mk_tags_row 20 "big" "" "";
     mk_tags_row 30 "round" "" ""]
    1 0 [].

(** [store/red/-/big/-/round/@]: the negated chain of red is big, then round
    by [->negated]. *)
Definition red_not_big_not_round : qtree_or_node :=
  or_node
    (and_node (named "red") and_NULL and_NULL
       (and_node (named "big") and_NULL and_NULL (leaf (named "round"))))
    or_NULL.




Definition red_or_red : qtree_or_node :=
  or_node (leaf (named "red")) (or_node (leaf (named "red")) or_NULL).

(** ** The text of a subquery *)

(** The atoms of a chain threaded by [->next]. *)
Fixpoint next_chain (n : qtree_and_node) : list and_fields :=
  match n with
  | and_NULL => []
  | and_node f next _ _ => f :: next_chain next
  end.

(** The atoms of a chain threaded by [->related]. *)
Fixpoint related_chain (n : qtree_and_node) : list and_fields :=
  match n with
  | and_NULL => []
  | and_node f _ related _ => f :: related_chain related
  end.

(** What the second pass of [tagsistant_RDS_build_subquery] visits: for
    each node of the main chain, its [->negated] node and the nodes after it
    by [->next]. *)
Fixpoint canonical_negated (n : qtree_and_node) : list and_fields :=
  match n with
  | and_NULL => []
  | and_node _ next _ negated => next_chain negated ++ canonical_negated next
  end.

Definition operator_name (op : tagsistant_query_operators) : string :=
  match op with
  | TAGSISTANT_NONE => ""
  | TAGSISTANT_EQUAL_TO => "eq/"
  | TAGSISTANT_CONTAINS => "inc/"
  | TAGSISTANT_GREATER_THAN => "gt/"
  | TAGSISTANT_SMALLER_THAN => "lt/"
  end.

(** [render_atom] of the spec (section 4.2, with the slash that follows). *)
Definition render_atom (f : and_fields) : string :=
  match tag f with
  | Some t => t ++ "/"
  | None =>
      printf_s (namespace f) ++ "/" ++ printf_s (key f) ++ "/" ++
      operator_name (operator f) ++ printf_s (value f) ++ "/"
  end.

Definition render_negated (f : and_fields) : string := "-/" ++ render_atom f.

Definition canonicalize (n : qtree_and_node) : string :=
  String.concat "" (map render_atom (next_chain n)) ++
  String.concat "" (map render_negated (canonical_negated n)).

(** The negated chain of a node (sections 4.1 and 4.5): the node that
    [->negated] points to, and the nodes after it by [->negated]. *)
Fixpoint negated_nodes (n : qtree_and_node) : list and_fields :=
  match n with
  | and_NULL => []
  | and_node f _ _ negated => f :: negated_nodes negated
  end.

(** The negated atoms of a conjunction, in traversal order: the negated
    chain of each node of the main chain. *)
Fixpoint negated_atoms (n : qtree_and_node) : list and_fields :=
  match n with
  | and_NULL => []
  | and_node _ next _ negated => negated_nodes negated ++ negated_atoms next
  end.

(** [canonicalize] in the words of section 4.2: every atom of the main
    chain, then, over the same chain again, every atom of each node's
    negated chain behind [-/]. *)
Definition canonicalize_spec (n : qtree_and_node) : string :=
  String.concat "" (map render_atom (next_chain n)) ++
  String.concat "" (map render_negated (negated_atoms n)).

(** ** String literals of a statement text *)

(** How an SQL lexer delimits the string literals of a text: a quote opens
    a literal, the next quote closes it, unless it is doubled, which stands
    for one quote inside the literal.  [inside] is the literal being read,
    if any.  The result is [None] when the text ends inside a literal. *)
Fixpoint sql_literals_from (inside : option string) (text : string)
  : option (list string) :=
  match text with
  | EmptyString =>
      match inside with
      | None => Some []
      | Some _ => None
      end
  | String c text' =>
      match inside with
      | None =>
          if Ascii.eqb c "'" then sql_literals_from (Some "") text'
          else sql_literals_from None text'
      | Some lit =>
          if Ascii.eqb c "'" then
            match text' with
            | String d text'' =>
                if Ascii.eqb d "'"
                then sql_literals_from (Some (lit ++ "'")) text''
                else option_map (cons lit) (sql_literals_from None text')
            | EmptyString => Some [lit]
            end
          else sql_literals_from (Some (lit ++ String c "")) text'
      end
  end.

Definition sql_literals (text : string) : option (list string) :=
  sql_literals_from None text.

Fixpoint quote_free (s : string) : bool :=
  match s with
  | EmptyString => true
  | String c s' => negb (Ascii.eqb c "'") && quote_free s'
  end.

(** The strings [tagsistant_query_add_and_set] interpolates between quotes
    for an atom, in order. *)
Definition interpolated_literals (f : and_fields) : list string :=
  if negb (tag_id f =? 0) then []
  else
    match tag f, value f with
    | Some t, _ => [t]
    | None, Some v =>
        match operator f with
        | TAGSISTANT_NONE => []
        | TAGSISTANT_CONTAINS =>
            [printf_s (namespace f); printf_s (key f); "%" ++ v ++ "%"]
        | _ => [printf_s (namespace f); printf_s (key f); v]
        end
    | None, None => []
    end.

(** The text appended for one atom. *)
Definition fragment (f : and_fields) : string :=
  g_string_str (tagsistant_query_add_and_set [] f).

(** ** Reading the operations *)

(** The predicate [tagsistant_query_add_and_set] writes for an atom; [None]
    when it writes nothing. *)
Definition predicate_of (f : and_fields) : option predicate :=
  if negb (tag_id f =? 0) then Some (tag_id_is (tag_id f))
  else
    match tag f, value f with
    | Some t, _ => Some (tagname_is t)
    | None, Some v =>
        match operator f with
        | TAGSISTANT_NONE => None
        | TAGSISTANT_EQUAL_TO =>
            Some (triple_is sql_eq (printf_s (namespace f)) (printf_s (key f)) v)
        | TAGSISTANT_CONTAINS =>
            Some (triple_is sql_like (printf_s (namespace f)) (printf_s (key f)) v)
        | TAGSISTANT_GREATER_THAN =>
            Some (triple_is sql_gt (printf_s (namespace f)) (printf_s (key f)) v)
        | TAGSISTANT_SMALLER_THAN =>
            Some (triple_is sql_lt (printf_s (namespace f)) (printf_s (key f)) v)
        end
    | None, None => None
    end.

(** An atom of the spec's data model: by id, by name, or a triple with one
    of the four operators. *)
Definition is_atom (f : and_fields) : bool :=
  match predicate_of f with
  | Some _ => true
  | None => false
  end.

(** [s] does not hold the character [a]. *)
Fixpoint avoids (a : ascii) (s : string) : bool :=
  match s with
  | EmptyString => true
  | String c s' => negb (Ascii.eqb c a) && avoids a s'
  end.

(** A string that stands between quotes in the text of a statement as it
    is: it holds no quote, which would end the literal, no per cent sign,
    which printf would read as a conversion when the text is the format,
    and no backslash, which some engines read as an escape. *)
Definition plain_text (s : string) : bool :=
  quote_free s && avoids "%" s && avoids (ascii_of_nat 92) s.

(** An atom whose criterion reaches the engine as it was written: an atom
    of the data model, with a tag id that [%d] prints as it is, and plain
    interpolated strings.  A CONTAINS triple is never plain: its pattern is
    written between per cent signs. *)
Definition plain_atom (f : and_fields) : bool :=
  is_atom f
  && ((0 <=? tag_id f) && (tag_id f <? 2 ^ 31))
  && forallb plain_text (interpolated_literals f).

(** The text [tagsistant_query_add_and_set] writes for a plain atom, and
    the predicate it stands for: one of three forms. *)
Inductive plain_fragment (f : and_fields) : predicate -> Prop :=
| plain_by_id :
    fragment f = ("tagging.tag_id = " ++ printf_d (tag_id f) ++ " ")%string ->
    plain_fragment f (tag_id_is (tag_id f))
| plain_by_name (t : string) :
    fragment f = ("tagname = '" ++ t ++ "' ")%string ->
    plain_text t = true ->
    plain_fragment f (tagname_is t)
| plain_triple (cmp : sql_comparison) (sign ns k v : string) :
    fragment f
    = ("tagname = '" ++ ns ++ "' and `key` = '" ++ k ++ "' and value "
       ++ sign ++ " '" ++ v ++ "' ")%string ->
    (cmp = sql_eq /\ sign = "=" \/ cmp = sql_gt /\ sign = ">"
     \/ cmp = sql_lt /\ sign = "<")%string ->
    plain_text ns = true -> plain_text k = true -> plain_text v = true ->
    plain_fragment f (triple_is cmp ns k v).

(** A node with its related chain, as the builder reads them: the clause
    [P(n) or P(n.related[0]) or ...]. *)
Definition clause (f : and_fields) (related : qtree_and_node)
  : list and_fields :=
  f :: related_chain related.

(** The nodes of a chain threaded by [->negated], each with its related
    chain. *)
Fixpoint negated_chain (n : qtree_and_node) : list (list and_fields) :=
  match n with
  | and_NULL => []
  | and_node f _ related negated => clause f related :: negated_chain negated
  end.

(** The negated atoms the builder subtracts in phase 4: for each node of
    the main chain, its [->negated] node and the nodes after it by
    [->negated]. *)
Fixpoint subtracted (n : qtree_and_node) : list (list and_fields) :=
  match n with
  | and_NULL => []
  | and_node _ next _ negated => negated_chain negated ++ subtracted next
  end.

(** An inode is tagged by one of the atoms of a clause: the join has a row
    for it on which the atom's predicate holds. *)
Definition tagged_by (c : dbi_conn) (atoms : list and_fields) (i : Z) : Prop :=
  exists j f p,
    In j (joined c) /\ obj_inode (fst j) = i /\
    In f atoms /\ predicate_of f = Some p /\ predicate_holds p j = true.

(** The conjunctions of a disjunction, in link order. *)
Fixpoint or_chain (query : qtree_or_node) : list qtree_or_node :=
  match query with
  | or_NULL => []
  | or_node _ next => query :: or_chain next
  end.

Definition subqueries (query : qtree_or_node) : list string :=
  map tagsistant_RDS_build_subquery (or_chain query).

(** The catalog ids are positive and below the auto_increment counter. *)
Definition catalog_wf (c : dbi_conn) : Prop :=
  0 < auto_increment c /\
  forall r, In r (RDS_catalog c) -> 0 < cat_rds_id r < auto_increment c.

(** What the select of [tagsistant_RDS_fetch_id] leaves in [rds_id]. *)
Definition lookup (subquery : string) (c : dbi_conn) : Z :=
  last (rds_ids_of_subquery subquery c) 0.

Definition select_statement (subquery : string) : GString :=
  [Lit "select rds_id from RDS_catalog where subquery = '"; Str subquery;
   Lit "'"].

Definition insert_statement (subquery : string) : GString :=
  [Lit "insert into RDS_catalog (subquery) values ('"; Str subquery;
   Lit "')"].

Definition update_statement (fingerprint : option string) : GString :=
  [Lit "update RDS_catalog set expired = 1 where rds_id in (";
   Str (printf_s fingerprint); Lit ")"].

(** The critical section of one turn of the loop of [tagsistant_RDS_prepare]. *)
Definition fetch_or_build (query : qtree_or_node) (rebuild_expired_RDS : Z)
  : SQL Z :=
  let subquery := tagsistant_RDS_build_subquery query in
  rds_id <- tagsistant_RDS_fetch_id subquery rebuild_expired_RDS ;;
  if rds_id =? 0 then tagsistant_RDS_build query subquery else ret rds_id.

(** The ids the loop of [tagsistant_RDS_prepare] appends, in order. *)
Fixpoint prepare_ids (query : qtree_or_node) (rebuild_expired_RDS : Z)
  : SQL (list Z) :=
  match query with
  | or_NULL => ret []
  | or_node _ next =>
      rds_id <- fetch_or_build query rebuild_expired_RDS ;;
      ids <- prepare_ids next rebuild_expired_RDS ;;
      ret (rds_id :: ids)
  end.

(** The fingerprint of a list of ids, as [tagsistant_RDS_prepare] writes it. *)
Definition fingerprint_of (ids : list Z) : string :=
  String.concat ", " (map printf_d ids).

Definition delete_RDS_statement (subquery : string) : GString :=
  [Lit "delete from RDS where rds_id = (select rds_id from RDS_catalog where subquery = '";
   Str subquery; Lit "')"].

Definition delete_catalog_statement (subquery : string) : GString :=
  [Lit "delete from RDS_catalog where subquery = '"; Str subquery; Lit "'"].

(** The connection after [tagsistant_RDS_fetch_id] with
    [rebuild_expired_RDS] set. *)
Definition purged (subquery : string) (c : dbi_conn) : dbi_conn :=
  mk_conn
    (filter (fun r => negb (cat_subquery r =? subquery)%string) (RDS_catalog c))
    (filter (fun r => negb (mem (rds_id r) (rds_ids_of_subquery subquery c)))
       (RDS c))
    (objects c) (tagging c) (tags c) (auto_increment c) (last_insert_id c)
    (statements c ++
     [delete_RDS_statement subquery; delete_catalog_statement subquery;
      select_statement subquery])%list.

(** The pieces of [P(n) or P(n.related[0]) or ...]. *)
Definition where_pieces (f : and_fields) (related : qtree_and_node) : GString :=
  (tagsistant_query_add_and_set [] f ++ add_related [] related)%list.

(** The statements of phases 2, 3 and 4 for one node.  *)
Definition phase_2_statement (id : Z) (f : and_fields)
  (related : qtree_and_node) : GString :=
  (Lit "insert into RDS select " :: Int id
   :: Lit (", objects.inode, objects.objectname " ++ joined_tables)
   :: where_pieces f related)%list.

Definition phase_3_statement (id : Z) (f : and_fields)
  (related : qtree_and_node) : GString :=
  (Lit "delete from RDS where rds_id = " :: Int id
   :: Lit (" and inode not in (select objects.inode " ++ joined_tables)
   :: where_pieces f related ++ [Lit ")"])%list.

Definition phase_4_statement (id : Z) (f : and_fields)
  (related : qtree_and_node) : GString :=
  (Lit "delete from RDS where rds_id = " :: Int id
   :: Lit (" and inode in (select objects.inode " ++ joined_tables)
   :: where_pieces f related ++ [Lit ")"])%list.

(** [c'] comes from [c] by statements on the RDS table: the catalog, its
    counter and the tables the RDSs are filled from are those of [c]. *)
Definition phase_step (c c' : dbi_conn) : Prop :=
  RDS_catalog c' = RDS_catalog c /\
  auto_increment c' = auto_increment c /\
  objects c' = objects c /\ tagging c' = tagging c /\ tags c' = tags c.

(** The value is one of an [int], which [%d] prints as it is. *)
Definition fits_int (z : Z) : Prop := - 2 ^ 31 <= z < 2 ^ 31.

(** A text of sign and digit characters only. *)
Fixpoint integer_text (s : string) : bool :=
  match s with
  | EmptyString => true
  | String c s' => is_integer_char c && integer_text s'
  end.

(** What may follow a literal, an integer, a criterion in a text: no quote,
    no sign or digit, no [a]. *)
Definition starts_without (class : ascii -> bool) (rest : string) : Prop :=
  match rest with
  | EmptyString => True
  | String d _ => class d = false
  end.

(** The connection after phase 1 of a build. *)
Definition registered (subquery : string) (c : dbi_conn) : dbi_conn :=
  mk_conn (RDS_catalog c ++ [mk_catalog_row (auto_increment c) subquery 0])%list
    (RDS c) (objects c) (tagging c) (tags c)
    (auto_increment c + 1) (auto_increment c)
    (statements c ++ [insert_statement subquery])%list.

Definition with_statements (c : dbi_conn) (l : list GString) : dbi_conn :=
  mk_conn (RDS_catalog c) (RDS c) (objects c) (tagging c) (tags c)
    (auto_increment c) (last_insert_id c) (statements c ++ l)%list.

(** The pieces appended to [RDS_ids] for a list of ids. *)
Definition ids_pieces (ids : list Z) : GString :=
  flat_map (fun id => [Lit ", "; Int id]) ids.

(** ** The fingerprint grammar of the spec *)

Definition is_digit (c : ascii) : bool :=
  (48 <=? nat_of_ascii c)%nat && (nat_of_ascii c <=? 57)%nat.

Fixpoint all_digits (s : string) : bool :=
  match s with
  | EmptyString => true
  | String c s' => is_digit c && all_digits s'
  end.

(** [id]: a base-10 integer, with nothing around it. *)
Definition is_id (s : string) : bool :=
  match s with
  | EmptyString => false
  | String c s' =>
      if Ascii.eqb c "-" then negb (s' =? "")%string && all_digits s'
      else all_digits s
  end.

(** [fingerprint := id ("," id)*] *)
Definition fingerprint_grammar (s : string) : bool :=
  forallb is_id (split_commas "" s).


(** ** Sequences of operations *)

(** The operations of rds.c that write to the tables. *)
Inductive operation : Type :=
| op_prepare (query : qtree_or_node) (is_all_path rebuild_expired_RDS : Z)
| op_invalidate (qtree : tagsistant_querytree).

Definition run_operation (c : dbi_conn) (o : operation) : dbi_conn :=
  match o with
  | op_prepare query is_all_path rebuild_expired_RDS =>
      snd (tagsistant_RDS_prepare query is_all_path rebuild_expired_RDS c)
  | op_invalidate qtree => snd (tagsistant_RDS_invalidate qtree c)
  end.

Definition run (ops : list operation) (c : dbi_conn) : dbi_conn :=
  fold_left run_operation ops c.

(** Every catalog entry of id [i] is marked expired. *)
Definition expired_in (c : dbi_conn) (i : Z) : Prop :=
  forall r, In r (RDS_catalog c) -> cat_rds_id r = i -> cat_expired r = 1.

(** What an update of the expired flag does to a catalog row. *)
Definition mark_expired (ids : list Z) (r : RDS_catalog_row) : RDS_catalog_row :=
  if mem (cat_rds_id r) ids
  then mk_catalog_row (cat_rds_id r) (cat_subquery r) 1
  else r.

(** One step of the catalog: the entries of [c'] are entries of [c], with
    the same flag or marked expired, or new entries, not expired, with ids
    that [c] had not given yet. *)
Definition catalog_step (c c' : dbi_conn) : Prop :=
  auto_increment c <= auto_increment c' /\
  forall r', In r' (RDS_catalog c') ->
    (exists r, In r (RDS_catalog c) /\
       cat_rds_id r' = cat_rds_id r /\ cat_subquery r' = cat_subquery r /\
       (cat_expired r' = cat_expired r \/ cat_expired r' = 1))
    \/ (auto_increment c <= cat_rds_id r' /\ cat_expired r' = 0).

(** The catalog of [c'] holds entries of [c], as they were, and new entries,
    not expired, with ids that [c] had not given yet. *)
Definition catalog_grows (c c' : dbi_conn) : Prop :=
  auto_increment c <= auto_increment c' /\
  forall r', In r' (RDS_catalog c') ->
    In r' (RDS_catalog c)
    \/ (auto_increment c <= cat_rds_id r' /\ cat_expired r' = 0).


(** The predicates of a clause, in order. *)
Fixpoint predicates_of (atoms : list and_fields) : list predicate :=
  match atoms with
  | [] => []
  | f :: atoms' =>
      match predicate_of f with
      | Some p => p :: predicates_of atoms'
      | None => predicates_of atoms'
      end
  end.

(** ** Reading a build *)

(** The clauses of the nodes of a chain threaded by [->next]. *)
Fixpoint next_clauses (n : qtree_and_node) : list (list and_fields) :=
  match n with
  | and_NULL => []
  | and_node f next related _ => clause f related :: next_clauses next
  end.

(** The clause selects the inode: the join has a row of the inode on which
    the predicate of one of the atoms holds. *)
Definition selects (c : dbi_conn) (cl : list and_fields) (i : Z) : bool :=
  mem i (selected_inodes (predicates_of cl) c).

(** The rows phase 2 inserts under [id] for the clause of the head. *)
Definition seed (id : Z) (cl : list and_fields) (c : dbi_conn) : list RDS_row :=
  map (fun j => mk_RDS_row id (obj_inode (fst j)) (obj_objectname (fst j)))
    (selected (predicates_of cl) c).

(** The rows phases 3 and 4 keep: those of another id, and those of [id]
    whose inode every required clause selects and no excluded clause
    selects. *)
Definition kept (id : Z) (c : dbi_conn)
  (required excluded : list (list and_fields)) (r : RDS_row) : bool :=
  negb (rds_id r =? id)
  || (forallb (fun cl => selects c cl (inode r)) required
      && forallb (fun cl => negb (selects c cl (inode r))) excluded).

(** Every atom of every clause is plain. *)
Definition all_plain (clauses : list (list and_fields)) : Prop :=
  Forall (Forall (fun f => plain_atom f = true)) clauses.

(** [c'] reads the same objects, tagging and tags tables as [c]. *)
Definition same_tables (c c' : dbi_conn) : Prop :=
  objects c' = objects c /\ tagging c' = tagging c /\ tags c' = tags c.

(** The object has a tag on which the predicate of one of the atoms holds. *)
Definition object_tagged_by (c : dbi_conn) (atoms : list and_fields)
  (o : objects_row) : Prop :=
  exists t f p,
    In (o, t) (joined c) /\ In f atoms /\ predicate_of f = Some p /\
    predicate_holds p (o, t) = true.

(** The rows of the other RDSs. *)
Definition others (id : Z) (rows : list RDS_row) : list RDS_row :=
  filter (fun r => negb (rds_id r =? id)) rows.

(** The pieces of [P(f) or P(r1) or ...] for the atoms of a clause. *)
Fixpoint or_pieces (atoms : list and_fields) : GString :=
  match atoms with
  | [] => []
  | f :: atoms' =>
      (Lit " or " :: tagsistant_query_add_and_set [] f ++ or_pieces atoms')%list
  end.

Definition clause_pieces (cl : list and_fields) : GString :=
  match cl with
  | [] => []
  | f :: atoms => (tagsistant_query_add_and_set [] f ++ or_pieces atoms)%list
  end.

(** The statements of a build, by the clause they are written for. *)
Definition seed_statement (id : Z) (cl : list and_fields) : GString :=
  (Lit "insert into RDS select " :: Int id
   :: Lit (", objects.inode, objects.objectname " ++ joined_tables)
   :: clause_pieces cl)%list.

Definition intersect_statement (id : Z) (cl : list and_fields) : GString :=
  (Lit "delete from RDS where rds_id = " :: Int id
   :: Lit (" and inode not in (select objects.inode " ++ joined_tables)
   :: clause_pieces cl ++ [Lit ")"])%list.

Definition subtract_statement (id : Z) (cl : list and_fields) : GString :=
  (Lit "delete from RDS where rds_id = " :: Int id
   :: Lit (" and inode in (select objects.inode " ++ joined_tables)
   :: clause_pieces cl ++ [Lit ")"])%list.

(** The statements of a build under [id], in the order they are sent. *)
Definition build_statements (id : Z) (subquery : string)
  (n : qtree_and_node) : list GString :=
  insert_statement subquery
  :: match n with
     | and_NULL => []
     | and_node f next related _ =>
         (seed_statement id (clause f related)
          :: map (intersect_statement id) (next_clauses next)
          ++ map (subtract_statement id) (subtracted n))%list
     end.

(** Every row of the RDS table carries the id of a catalog entry. *)
Definition RDS_refers_to_catalog (c : dbi_conn) : Prop :=
  forall row, In row (RDS c) ->
    In (rds_id row) (map cat_rds_id (RDS_catalog c)).

(** The keys of the catalog: ids positive, below the counter and pairwise
    distinct; subqueries pairwise distinct. *)
Definition catalog_keys (c : dbi_conn) : Prop :=
  catalog_wf c
  /\ NoDup (map cat_rds_id (RDS_catalog c))
  /\ NoDup (map cat_subquery (RDS_catalog c)).

(** The disjunction [q1] followed by [q2]: the last [->next] of [q1] points
    to [q2]. *)
Fixpoint or_append (q1 q2 : qtree_or_node) : qtree_or_node :=
  match q1 with
  | or_NULL => q2
  | or_node a next => or_node a (or_append next q2)
  end.

(** Two fingerprints, one after the other in an [in (...)] list. *)
Definition join_fingerprints (f1 f2 : option string) : option string :=
  match f1, f2 with
  | Some s1, Some s2 => Some (s1 ++ ", " ++ s2)
  | Some s1, None => Some s1
  | None, _ => f2
  end.

(** ** RdsReader: rows with a text column *)

(** A field of a result row, as libdbi hands it out: a string, NULL when the
    column is, or an integer. *)
Inductive dbi_field : Type :=
| dbi_string (s : option string)
| dbi_integer (z : Z).

Definition dbi_row : Type := list dbi_field.

(** libdbi counts fields from 1, and gives NULL or 0 for a field of another
    type. *)
Definition dbi_result_get_string_copy_idx (result : dbi_row) (idx : nat)
  : option string :=
  match nth_error result (idx - 1) with
  | Some (dbi_string s) => s
  | _ => None
  end.

Definition dbi_result_get_uint_idx (result : dbi_row) (idx : nat) : Z :=
  match nth_error result (idx - 1) with
  | Some (dbi_integer z) => z
  | _ => 0
  end.

(** Modelled from the spec: [tagsistant_file_handle] is declared in
    tagsistant.h; rds.c reads and writes its [name], a buffer of 1024
    characters, and its [inode]. *)
Record tagsistant_file_handle : Type := mk_file_handle {
  fh_name : string;
  fh_inode : Z
}.

(** A [GList] of file handles; NULL is the empty list. *)
Definition GList : Type := list tagsistant_file_handle.

(** A [GHashTable] with string keys ([g_str_hash], [g_str_equal]): each key
    once, with its value. *)
Definition GHashTable : Type := list (string * GList).

Definition g_hash_table_new : GHashTable := [].

Fixpoint g_hash_table_lookup (hash_table : GHashTable) (key : string) : GList :=
  match hash_table with
  | [] => []
  | (k, v) :: rest =>
      if (k =? key)%string then v else g_hash_table_lookup rest key
  end.

(** The value of a key the table holds is replaced. *)
Fixpoint g_hash_table_insert (hash_table : GHashTable) (key : string)
  (value : GList) : GHashTable :=
  match hash_table with
  | [] => [(key, value)]
  | (k, v) :: rest =>
      if (k =? key)%string then (k, value) :: rest
      else (k, v) :: g_hash_table_insert rest key value
  end.

(** [g_strlcpy (dest, src, dest_size)]: at most [dest_size - 1] characters
    of [src]. *)
Definition g_strlcpy (src : string) (dest_size : nat) : string :=
  String.substring 0 (dest_size - 1) src.

(** [while (list_tmp) { if (fh_tmp->inode == inode) return; ... }] *)
Fixpoint list_holds_inode (list_tmp : GList) (inode : Z) : bool :=
  match list_tmp with
  | [] => false
  | fh_tmp :: next =>
      if fh_inode fh_tmp =? inode then true else list_holds_inode next inode
  end.

(** The callback returns 0 to libdbi on every path; what it leaves in the
    hash table is its result here. *)
Definition tagsistant_RDS_add_entry_callback (hash_table : GHashTable)
  (result : dbi_row) : GHashTable :=
  match dbi_result_get_string_copy_idx result 1 with
  | None => hash_table
  | Some name =>
      let inode := dbi_result_get_uint_idx result 2 in
      let list := g_hash_table_lookup hash_table name in
      if list_holds_inode list inode then hash_table
      else
        let fh := mk_file_handle (g_strlcpy name 1024) inode in
        g_hash_table_insert hash_table (fh_name fh) (fh :: list)
  end.

(** Modelled from the spec: the selects of section 4.7. *)
Inductive row_statement : Type :=
| select_distinct_objects (ids : list Z)
| select_inode (name : string) (inode : option Z) (ids : list Z).

(** The list of an [in (...)] of a select.  For the NULL fingerprint printf
    writes [(null)], and the list is then the one value NULL in brackets,
    which no rds_id is in. *)
Definition in_list (fp : string) : option (list Z) :=
  if (fp =? "(null)")%string then Some [] else parse_in_list fp.

Definition sql_parse_rows (sql : GString) : option row_statement :=
  match sql with
  | [Lit a; Str fp; Lit b] =>
      if ((a =? "select distinct objectname, inode from RDS where rds_id in (")
          && (b =? ")"))%string
      then option_map select_distinct_objects (in_list fp)
      else None
  | [Lit a; Str name; Lit b; Str fp; Lit e] =>
      if ((a =? "select inode from RDS where objectname = '")
          && (b =? "' and rds_id in (") && (e =? ")"))%string
      then option_map (select_inode name None) (in_list fp)
      else None
  | [Lit a; Str name; Lit b; Int i; Lit d; Str fp; Lit e] =>
      if ((a =? "select inode from RDS where objectname = '")
          && (b =? "' and inode = ") && (d =? " and rds_id in (")
          && (e =? ")"))%string
      then option_map (select_inode name (Some i)) (in_list fp)
      else None
  | _ => None
  end.

Definition object_eq_dec (x y : string * Z) : {x = y} + {x <> y}.
Proof. decide equality; [apply Z.eq_dec | apply string_dec]. Defined.

(** The rows of the RDSs of [ids]. *)
Definition RDS_rows_in (ids : list Z) (c : dbi_conn) : list RDS_row :=
  filter (fun r => mem (rds_id r) ids) (RDS c).

(** Modelled from the spec: [select distinct] gives each (objectname,
    inode) once; a select reads the tables and writes none. *)
Definition sql_exec_rows (st : row_statement) (c : dbi_conn) : list dbi_row :=
  match st with
  | select_distinct_objects ids =>
      map (fun o => [dbi_string (Some (fst o)); dbi_integer (snd o)])
        (nodup object_eq_dec
           (map (fun r => (objectname r, inode r)) (RDS_rows_in ids c)))
  | select_inode name i ids =>
      map (fun r => [dbi_integer (inode r)])
        (filter (fun r => (objectname r =? name)%string
                          && match i with
                             | Some i => inode r =? i
                             | None => true
                             end)
           (RDS_rows_in ids c))
  end.

(** Modelled from the spec: [tagsistant_query] on the selects of the
    reader, whose rows can hold a text column. *)
Definition tagsistant_query_rows {A : Type} (format : string)
  (callback : option (A -> dbi_row -> A)) (firstarg : A)
  (args : list printf_arg) : SQL A :=
  fun conn =>
    let sql := sprintf format args in
    let conn := with_statement conn sql in
    match sql_parse_rows sql with
    | None => (firstarg, conn)
    | Some st =>
        (match callback with
         | Some cb => fold_left cb (sql_exec_rows st conn) firstarg
         | None => firstarg
         end, conn)
    end.



Definition tagsistant_RDS_load (RDS_fingerprint : option string)
  : SQL GHashTable :=
  let file_hash := g_hash_table_new in
  tagsistant_query_rows
    "select distinct objectname, inode from RDS where rds_id in (%s)"
    (Some tagsistant_RDS_add_entry_callback) file_hash
    [arg_s RDS_fingerprint].


Definition load_statement (fingerprint : option string) : GString :=
  [Lit "select distinct objectname, inode from RDS where rds_id in (";
   Str (printf_s fingerprint); Lit ")"].

(** The table lists the object under its name. *)
Definition table_holds (hash_table : GHashTable) (name : string) (i : Z)
  : Prop :=
  In (mk_file_handle name i) (g_hash_table_lookup hash_table name).

(** Under every key, the handles carry the key as their name, and no inode
    twice. *)
Definition table_ok (hash_table : GHashTable) : Prop :=
  forall k,
    (forall fh, In fh (g_hash_table_lookup hash_table k) -> fh_name fh = k)
    /\ NoDup (map fh_inode (g_hash_table_lookup hash_table k)).

(** The result row of [select distinct objectname, inode] for an object. *)
Definition object_row (o : string * Z) : dbi_row :=
  [dbi_string (Some (fst o)); dbi_integer (snd o)].

(** The objects of the RDSs of [ids], as rows of the table give them. *)
Definition objects_in (ids : list Z) (c : dbi_conn) : list (string * Z) :=
  map (fun r => (objectname r, inode r)) (RDS_rows_in ids c).

(** A name of 1030 characters. *)
Definition long_name : string := String.concat "" (repeat "x"%string 1030).



(** ** What a query asks for *)

(** The clauses of a conjunction: of the head, of the further nodes of the
    next-chain, and of the nodes of the ->negated chains. *)
Definition clauses_of (n : qtree_and_node) : list (list and_fields) :=
  match n with
  | and_NULL => []
  | and_node f next related _ =>
      (clause f related :: next_clauses next ++ subtracted n)%list
  end.

(** Every atom of the conjunction, of the disjunction, of the operation is
    plain. *)
Definition plain_conjunction (n : qtree_and_node) : Prop :=
  all_plain (clauses_of n).

Definition plain_query (query : qtree_or_node) : Prop :=
  forall q, In q (or_chain query) -> plain_conjunction (and_set q).


(** The object satisfies the conjunction, as the builder reads it: it is
    tagged by the head or one of its related atoms, its inode is tagged by
    every further node of the next-chain (or a related atom), and by no node
    of the ->negated chains (nor a related atom).  A conjunction without
    atoms selects nothing. *)
Definition conjunction_selects (c : dbi_conn) (n : qtree_and_node)
  (o : objects_row) : Prop :=
  match n with
  | and_NULL => False
  | and_node f next related _ =>
      object_tagged_by c (clause f related) o
      /\ (forall cl, In cl (next_clauses next) -> tagged_by c cl (obj_inode o))
      /\ (forall cl, In cl (subtracted n) -> ~ tagged_by c cl (obj_inode o))
  end.

(** The rows of the RDS table carry ids the counter has passed. *)
Definition RDS_below (c : dbi_conn) : Prop :=
  forall row, In row (RDS c) -> rds_id row < auto_increment c.

(** What prepare without rebuild answers for a conjunction: the rows kept
    under the id of its subquery when the catalog has one, whatever the
    tables hold by now, and the objects that satisfy it on the tables when
    it has none. *)
Definition answered (c : dbi_conn) (q : qtree_or_node) (o : objects_row)
  : Prop :=
  let id := lookup (tagsistant_RDS_build_subquery q) c in
  if id =? 0 then conjunction_selects c (and_set q) o
  else In (mk_RDS_row id (obj_inode o) (obj_objectname o)) (RDS c).

(** ** Tag-level invalidation: [tagsistant_RDS_invalidate_single_tag] *)

(** The two deletes of the tag-level invalidator. *)
Inductive like_statement : Type :=
| delete_RDS_like (pattern : string)
| delete_catalog_like (pattern : string).

Definition like_statement_of (a b pattern : string) : option like_statement :=
  if ((a =? "delete from RDS where rds_id in (select rds_id from RDS_catalog where subquery like '%")
      && (b =? "%')"))%string
  then Some (delete_RDS_like pattern)
  else if ((a =? "delete from RDS_catalog where subquery like '%")
           && (b =? "%'"))%string
  then Some (delete_catalog_like pattern)
  else None.

(** Modelled from the spec: the deletes by [subquery like] of section 4.4
    ([evict_by_subquery_like]), recognised by the text rds.c writes for
    them.  The pattern is what stands between the two [%]. *)
Definition sql_parse_like (sql : GString) : option like_statement :=
  match sql with
  | [Lit a; Str s; Lit b] => like_statement_of a b s
  | [Lit a; Str ns; Lit m; Str k; Lit b] =>
      if (m =? "/")%string then like_statement_of a b (ns ++ "/" ++ k)
      else None
  | _ => None
  end.

(** [subquery like '%pattern%'] *)
Definition subquery_like (pattern subquery : string) : bool :=
  like_match ("%" ++ pattern ++ "%") subquery.

(** The ids of the catalog rows whose subquery is like the pattern. *)
Definition rds_ids_like (pattern : string) (c : dbi_conn) : list Z :=
  map cat_rds_id
    (filter (fun r => subquery_like pattern (cat_subquery r)) (RDS_catalog c)).

(** Modelled from the spec: the deletes by [subquery like] of section 4.4,
    with the wildcards [like] reads in the pattern, those of the tag
    included. *)
Definition sql_exec_like (st : like_statement) (c : dbi_conn) : dbi_conn :=
  match st with
  | delete_RDS_like p =>
      with_RDS c
        (filter (fun r => negb (mem (rds_id r) (rds_ids_like p c))) (RDS c))
  | delete_catalog_like p =>
      with_RDS_catalog c
        (filter (fun r => negb (subquery_like p (cat_subquery r)))
           (RDS_catalog c))
  end.

(** Modelled from the spec: [tagsistant_query] on the statements of the
    tag-level invalidator, which pass no callback and no buffer. *)
Definition tagsistant_query_like (format : string) (args : list printf_arg)
  : SQL unit :=
  fun conn =>
    let sql := sprintf format args in
    let conn := with_statement conn sql in
    match sql_parse_like sql with
    | None => (tt, conn)
    | Some st => (tt, sql_exec_like st conn)
    end.

Definition tagsistant_RDS_invalidate_single_tag (and_ : and_fields)
  : SQL unit :=
  match tag and_ with
  | Some _ =>
      tagsistant_query_like
        ("delete from RDS where rds_id in (" ++
           "select rds_id from RDS_catalog where subquery like '%%%s%%')")
        [arg_s (tag and_)] ;;
      tagsistant_query_like
        "delete from RDS_catalog where subquery like '%%%s%%'"
        [arg_s (tag and_)]
  | None =>
      tagsistant_query_like
        ("delete from RDS where rds_id in (" ++
           "select rds_id from RDS_catalog where subquery like '%%%s/%s%%')")
        [arg_s (namespace and_); arg_s (key and_)] ;;
      tagsistant_query_like
        "delete from RDS_catalog where subquery like '%%%s/%s%%'"
        [arg_s (namespace and_); arg_s (key and_)]
  end.

(** What stands between the two [%] for a node: its tag, or its namespace
    and key around a slash. *)
Definition like_pattern (f : and_fields) : string :=
  match tag f with
  | Some t => t
  | None => printf_s (namespace f) ++ "/" ++ printf_s (key f)
  end.

(** The statements of a tag-level invalidation. *)
Definition like_statements (f : and_fields) : list GString :=
  match tag f with
  | Some t =>
      [[Lit "delete from RDS where rds_id in (select rds_id from RDS_catalog where subquery like '%";
        Str t; Lit "%')"];
       [Lit "delete from RDS_catalog where subquery like '%"; Str t;
        Lit "%'"]]
  | None =>
      [[Lit "delete from RDS where rds_id in (select rds_id from RDS_catalog where subquery like '%";
        Str (printf_s (namespace f)); Lit "/"; Str (printf_s (key f));
        Lit "%')"];
       [Lit "delete from RDS_catalog where subquery like '%";
        Str (printf_s (namespace f)); Lit "/"; Str (printf_s (key f));
        Lit "%'"]]
  end.

(** The connection after a tag-level invalidation. *)
Definition evicted (f : and_fields) (c : dbi_conn) : dbi_conn :=
  mk_conn
    (filter (fun r => negb (subquery_like (like_pattern f) (cat_subquery r)))
       (RDS_catalog c))
    (filter (fun r => negb (mem (rds_id r) (rds_ids_like (like_pattern f) c)))
       (RDS c))
    (objects c) (tagging c) (tags c) (auto_increment c) (last_insert_id c)
    (statements c ++ like_statements f)%list.

(** The atoms the canonicalizer writes for a conjunction. *)
Definition canonical_atoms (n : qtree_and_node) : list and_fields :=
  (next_chain n ++ canonical_negated n)%list.

(** An entry for [bored/] and one for [big/], with a row each. *)
Definition bored_conn : dbi_conn :=
  mk_conn [mk_catalog_row 1 "bored/" 0; mk_catalog_row 2 "big/" 0]
    [mk_RDS_row 1 1 "one"; mk_RDS_row 2 2 "two"]
    (objects S1_conn) (tagging S1_conn) (tags S1_conn) 3 2 [].

(** * fuse_operations/mknod.c *)

(** errno.h *)
Definition EFAULT : Z := 14.
Definition EROFS : Z := 30.

(** What [tagsistant_mknod] reads of the query tree of a path: the value of
    the three macros of tagsistant.h on it, and its [full_archive_path]. *)
Record tagsistant_querytree_t : Type := mk_querytree_t {
  QTREE_IS_MALFORMED : bool;
  QTREE_POINTS_TO_OBJECT : bool;
  QTREE_IS_TAGGABLE : bool;
  full_archive_path : option string
}.

(** The functions [tagsistant_mknod] calls for a value.  They are declared
    in tagsistant.h and defined outside mknod.c, or are system calls: the
    model takes them as they come, and what is proved holds for whatever
    they return.  [tagsistant_force_create_and_tag_object] receives the
    value of [tagsistant_errno] and returns its result with the value it
    leaves there; [mknod] returns its result with [errno]. *)
Record mknod_callees : Type := mk_mknod_callees {
  tagsistant_ID_strip_from_path : string -> string;
  tagsistant_build_querytree : string -> Z -> tagsistant_querytree_t;
  tagsistant_force_create_and_tag_object :
    tagsistant_querytree_t -> Z -> Z * Z;
  mknod : option string -> Z -> Z -> Z * Z
}.

(** The calls [tagsistant_mknod] makes for their effect (logging and time
    profiling left out), in the order it makes them. *)
Inductive mknod_call : Type :=
| call_force_create_and_tag_object (qtree : tagsistant_querytree_t)
| call_mknod (path : option string) (mode rdev : Z)
| call_set_alias (path : string) (full_archive_path : option string)
| call_g_free (stripped_path : string)
| call_destroy_querytree (qtree : tagsistant_querytree_t).

(** The body of [tagsistant_mknod] down to the label [MKNOD_EXIT]: the
    values of [res] and [tagsistant_errno] there, and the calls made. *)
Definition mknod_body (env : mknod_callees) (qtree : tagsistant_querytree_t)
  (mode rdev : Z) : Z * Z * list mknod_call :=
  let res := 0 in
  let tagsistant_errno := 0 in
  if QTREE_IS_MALFORMED qtree then (-1, EFAULT, [])
  else if QTREE_POINTS_TO_OBJECT qtree then
    let on_disk (tagsistant_errno : Z) (calls : list mknod_call) :=
      let (res, errno) := mknod env (full_archive_path qtree) mode rdev in
      (res, errno,
       (calls ++ [call_mknod (full_archive_path qtree) mode rdev])%list) in
    if QTREE_IS_TAGGABLE qtree then
      let (res, tagsistant_errno) :=
        tagsistant_force_create_and_tag_object env qtree tagsistant_errno in
      let calls := [call_force_create_and_tag_object qtree] in
      if res =? -1 then (res, tagsistant_errno, calls)
      else on_disk tagsistant_errno calls
    else on_disk tagsistant_errno []
  else (-1, EROFS, []).

(** [res] and [tagsistant_errno] are of type int; the value returned is
    written on Z, as it is for every errno but INT_MIN. *)
Definition tagsistant_mknod (env : mknod_callees) (path : string)
  (mode rdev : Z) : Z * list mknod_call :=
  let stripped_path := tagsistant_ID_strip_from_path env path in
  let qtree := tagsistant_build_querytree env stripped_path 0 in
  let '(res, tagsistant_errno, calls) := mknod_body env qtree mode rdev in
  let calls :=
    if res =? -1 then calls
    else (calls ++ [call_set_alias path (full_archive_path qtree)])%list in
  (if res =? -1 then - tagsistant_errno else 0,
   (calls ++ [call_g_free stripped_path; call_destroy_querytree qtree])%list).

(** The query tree [tagsistant_mknod] builds for a path. *)
Definition qtree_of (env : mknod_callees) (path : string)
  : tagsistant_querytree_t :=
  tagsistant_build_querytree env (tagsistant_ID_strip_from_path env path) 0.

(** Callees for which tagging fails and leaves [tagsistant_errno] at 0. *)
Definition failing_callees : mknod_callees :=
  mk_mknod_callees (fun path => path)
    (fun _ _ => mk_querytree_t false true true (Some "/archive/1___file"))
    (fun _ tagsistant_errno => (-1, tagsistant_errno))
    (fun _ _ _ => (0, 0)).

(** * Properties *)

Local Open Scope list_scope.

(** ** Strings *)

Lemma append_assoc (a b c : string) : ((a ++ b) ++ c = a ++ (b ++ c))%string.
Proof. induction a as [|x a IH]; simpl; [reflexivity | now rewrite IH]. Qed.

Lemma append_nil_r (a : string) : (a ++ "")%string = a.
Proof. induction a as [|x a IH]; simpl; [reflexivity | now rewrite IH]. Qed.

Lemma g_string_str_app (g h : GString) :
  g_string_str (g ++ h) = (g_string_str g ++ g_string_str h)%string.
Proof.
  induction g as [|p g IH]; simpl; [reflexivity|].
  now rewrite IH, append_assoc.
Qed.

Lemma concat_empty_cons (s : string) (l : list string) :
  String.concat "" (s :: l) = (s ++ String.concat "" l)%string.
Proof.
  destruct l as [|t l]; simpl; [now rewrite append_nil_r | reflexivity].
Qed.

Lemma concat_empty_app (l1 l2 : list string) :
  String.concat "" (l1 ++ l2)
  = (String.concat "" l1 ++ String.concat "" l2)%string.
Proof.
  induction l1 as [|s l1 IH]; [reflexivity|].
  change ((s :: l1) ++ l2)%list with (s :: (l1 ++ l2))%list.
  now rewrite !concat_empty_cons, IH, append_assoc.
Qed.

Lemma avoids_app (a : ascii) (x y : string) :
  avoids a (x ++ y)%string = avoids a x && avoids a y.
Proof.
  induction x as [|c x IH]; simpl; [reflexivity|].
  now rewrite IH, andb_assoc.
Qed.

Lemma printf_d_avoids_comma (z : Z) : avoids "," (printf_d z) = true.
Proof.
  assert (H : forall d, avoids "," (NilEmpty.string_of_uint d) = true)
    by (induction d; simpl; auto).
  unfold printf_d, NilZero.string_of_int, NilZero.string_of_uint.
  destruct (Z.to_int z) as [d|d]; destruct d; simpl; auto.
Qed.

Lemma printf_d_avoids_blank (z : Z) : avoids " " (printf_d z) = true.
Proof.
  assert (H : forall d, avoids " " (NilEmpty.string_of_uint d) = true)
    by (induction d; simpl; auto).
  unfold printf_d, NilZero.string_of_int, NilZero.string_of_uint.
  destruct (Z.to_int z) as [d|d]; destruct d; simpl; auto.
Qed.

Lemma skip_blanks_none (s : string) :
  avoids " " s = true -> skip_blanks s = s.
Proof.
  destruct s as [|c s]; [reflexivity|]. simpl.
  intros H. apply andb_prop in H as [H _]. apply negb_true_iff in H.
  now rewrite H.
Qed.

Lemma drop_trailing_blanks_none (s : string) :
  avoids " " s = true -> drop_trailing_blanks s = s.
Proof.
  induction s as [|c s IH]; [reflexivity|]. simpl.
  intros H. apply andb_prop in H as [Hc Hs]. apply negb_true_iff in Hc.
  rewrite (IH Hs), Hc. now destruct s.
Qed.

(** [%d] writes the integer in base 10: reading it back gives the integer. *)
Lemma parse_integer_printf_d (z : Z) : parse_integer (printf_d z) = Some z.
Proof.
  unfold parse_integer.
  rewrite skip_blanks_none, drop_trailing_blanks_none
    by apply printf_d_avoids_blank.
  unfold printf_d. rewrite NilZero.isi.
  - cbn. now rewrite DecimalZ.of_to.
  - destruct z; cbn; try discriminate.
    intros [= H]. now apply Unsigned.to_uint_nonnil in H.
  - destruct z; cbn; try discriminate.
    intros [= H]. now apply Unsigned.to_uint_nonnil in H.
Qed.

(** ** Canonicalization *)

Lemma subquery_add_tag_app (g : GString) (f : and_fields) (negated : Z) :
  tagsistant_RDS_subquery_add_tag g f negated
  = (g ++ tagsistant_RDS_subquery_add_tag [] f negated)%list.
Proof.
  unfold tagsistant_RDS_subquery_add_tag, g_string_append,
    g_string_append_printf.
  destruct (negated =? 0), (tag f), (operator f); simpl;
    rewrite <- ?app_assoc; simpl; rewrite ?app_nil_r; reflexivity.
Qed.

Lemma subquery_add_tag_str (f : and_fields) :
  g_string_str (tagsistant_RDS_subquery_add_tag [] f 0) = render_atom f.
Proof.
  unfold tagsistant_RDS_subquery_add_tag, render_atom.
  destruct (tag f), (operator f); reflexivity.
Qed.

Lemma subquery_add_tag_negated_str (f : and_fields) :
  g_string_str (tagsistant_RDS_subquery_add_tag [] f 1) = render_negated f.
Proof.
  unfold tagsistant_RDS_subquery_add_tag, render_negated, render_atom.
  destruct (tag f), (operator f); reflexivity.
Qed.

Lemma build_subquery_main_str (n : qtree_and_node) (g : GString) :
  g_string_str (build_subquery_main g n)
  = (g_string_str g ++ String.concat "" (map render_atom (next_chain n)))%string.
Proof.
  revert g; induction n as [|f next IHnext related _ negated _]; intros g.
  - simpl. now rewrite append_nil_r.
  - cbn [build_subquery_main next_chain map].
    rewrite IHnext, subquery_add_tag_app, g_string_str_app,
      subquery_add_tag_str, concat_empty_cons, append_assoc.
    reflexivity.
Qed.

Lemma build_subquery_negated_str (n : qtree_and_node) (g : GString) :
  g_string_str (build_subquery_negated g n)
  = (g_string_str g ++ String.concat "" (map render_negated (next_chain n)))%string.
Proof.
  revert g; induction n as [|f next IHnext related _ negated _]; intros g.
  - simpl. now rewrite append_nil_r.
  - cbn [build_subquery_negated next_chain map].
    rewrite IHnext, subquery_add_tag_app, g_string_str_app,
      subquery_add_tag_negated_str, concat_empty_cons, append_assoc.
    reflexivity.
Qed.

Lemma build_subquery_negations_str (n : qtree_and_node) (g : GString) :
  g_string_str (build_subquery_negations g n)
  = (g_string_str g
     ++ String.concat "" (map render_negated (canonical_negated n)))%string.
Proof.
  revert g; induction n as [|f next IHnext related _ negated _]; intros g.
  - simpl. now rewrite append_nil_r.
  - cbn [build_subquery_negations canonical_negated].
    rewrite IHnext, build_subquery_negated_str, map_app, concat_empty_app,
      append_assoc.
    reflexivity.
Qed.

Lemma build_subquery_canonicalize (query : qtree_or_node) :
  tagsistant_RDS_build_subquery query = canonicalize (and_set query).
Proof.
  unfold tagsistant_RDS_build_subquery, canonicalize.
  now rewrite build_subquery_negations_str, build_subquery_main_str.
Qed.

(** C1 is broken by the code where a negated chain has more than one node.
    The negated atoms of a conjunction are those reached by [->negated]
    (section 4.1; so reads them [tagsistant_RDS_build]), and section 4.2
    emits each of them behind "-/".  The second pass of
    [tagsistant_RDS_build_subquery] steps from a negated node by [->next]:
    for red, not big, not round the negated atoms are big and round, the
    string of section 4.2 is red/-/big/-/round/, and the code writes
    red/-/big/, the string of red, not big.  Where the second pass meets the
    negated atoms, the code writes the string of section 4.2; a named tag is
    rendered as "{tag}/", a triple as "{ns}/{key}/{OP}/{value}/" with OP one
    of eq, inc, gt, lt. *)
Theorem canonicalizer_misses_negated_atoms :
  negated_atoms (and_set red_not_big_not_round) = [named "big"; named "round"]
  /\ canonicalize_spec (and_set red_not_big_not_round)
     = "red/-/big/-/round/"%string
  /\ tagsistant_RDS_build_subquery red_not_big_not_round = "red/-/big/"%string
  /\ tagsistant_RDS_build_subquery red_not_big_not_round
     = tagsistant_RDS_build_subquery red_not_big
  /\ (forall query,
        canonical_negated (and_set query) = negated_atoms (and_set query) ->
        tagsistant_RDS_build_subquery query = canonicalize_spec (and_set query))
  /\ (forall t, render_atom (named t) = t ++ "/")%string
  /\ (forall ns k v,
        render_atom (triple ns k TAGSISTANT_EQUAL_TO v)
        = ns ++ "/" ++ k ++ "/" ++ "eq" ++ "/" ++ v ++ "/"
        /\ render_atom (triple ns k TAGSISTANT_CONTAINS v)
           = ns ++ "/" ++ k ++ "/" ++ "inc" ++ "/" ++ v ++ "/"
        /\ render_atom (triple ns k TAGSISTANT_GREATER_THAN v)
           = ns ++ "/" ++ k ++ "/" ++ "gt" ++ "/" ++ v ++ "/"
        /\ render_atom (triple ns k TAGSISTANT_SMALLER_THAN v)
           = ns ++ "/" ++ k ++ "/" ++ "lt" ++ "/" ++ v ++ "/")%string.
Proof.
  repeat split; try reflexivity.
  intros query Hsame. rewrite build_subquery_canonicalize.
  unfold canonicalize, canonicalize_spec. now rewrite Hsame.
Qed.

(** ** SQL fragments *)

Lemma sql_literals_inside (s rest acc : string) :
  quote_free s = true ->
  sql_literals_from (Some acc) (s ++ rest)%string
  = sql_literals_from (Some (acc ++ s)%string) rest.
Proof.
  revert acc; induction s as [|c s IH]; intros acc Hs; simpl in *.
  - now rewrite append_nil_r.
  - apply andb_prop in Hs as [Hc Hs].
    apply negb_true_iff in Hc. rewrite Hc, IH by assumption.
    now rewrite append_assoc.
Qed.

Lemma sql_literals_outside (s rest : string) :
  quote_free s = true ->
  sql_literals_from None (s ++ rest)%string = sql_literals_from None rest.
Proof.
  induction s as [|c s IH]; intros Hs; simpl in *; [reflexivity|].
  apply andb_prop in Hs as [Hc Hs].
  apply negb_true_iff in Hc. now rewrite Hc, IH.
Qed.

Lemma quote_free_app (a b : string) :
  quote_free (a ++ b)%string = quote_free a && quote_free b.
Proof.
  induction a as [|c a IH]; simpl; [reflexivity|].
  now rewrite IH, andb_assoc.
Qed.

Lemma quote_free_uint (d : Decimal.uint) :
  quote_free (NilEmpty.string_of_uint d) = true.
Proof. induction d; simpl; auto. Qed.

Lemma quote_free_printf_d (z : Z) : quote_free (printf_d z) = true.
Proof.
  unfold printf_d, NilZero.string_of_int, NilZero.string_of_uint.
  destruct (Z.to_int z) as [d|d]; destruct d; simpl;
    auto using quote_free_uint.
Qed.

Ltac lex_literal :=
  match goal with
  | |- context [sql_literals_from (Some ?acc) (?s ++ ?rest)%string] =>
      rewrite (sql_literals_inside s rest acc) by assumption
  end.

(** C9 fails: a tag holding quote characters is interpolated as it is, and
    the statement text reads as three literals, with an [or] between
    them. *)
Lemma add_and_set_does_not_escape :
  fragment (named "x' or '1'='1") = "tagname = 'x' or '1'='1' "%string
  /\ sql_literals (fragment (named "x' or '1'='1")) = Some ["x"; "1"; "1"]%string
  /\ sql_literals (fragment (named "x' or '1'='1"))
     <> Some (interpolated_literals (named "x' or '1'='1")).
Proof. repeat split; try reflexivity. discriminate. Qed.

(** C9, amended.  [tagsistant_query_add_and_set] interpolates tag,
    namespace, key and value between single quotes as they are, with no
    escaping and no bound parameters.  When none of them holds a quote
    character, the string literals of the emitted fragment are exactly the
    interpolated values. *)
Theorem add_and_set_literals_without_quotes (f : and_fields) :
  forallb quote_free (interpolated_literals f) = true ->
  sql_literals (fragment f) = Some (interpolated_literals f).
Proof.
  unfold fragment, sql_literals, interpolated_literals,
    tagsistant_query_add_and_set.
  destruct (negb (tag_id f =? 0)).
  { intros _. cbn.
    now rewrite (sql_literals_outside _ " " (quote_free_printf_d (tag_id f))). }
  destruct (tag f) as [t|].
  - cbn [forallb]. rewrite andb_true_r. intros Ht.
    cbn. lex_literal. reflexivity.
  - destruct (value f) as [v|]; [|reflexivity].
    destruct (operator f); [reflexivity| | | |];
      cbn [forallb]; rewrite andb_true_r; intros H;
      apply andb_prop in H as [Hns H]; apply andb_prop in H as [Hk Hv];
      try (cbn in Hv; rewrite quote_free_app in Hv;
           apply andb_prop in Hv as [Hv _]);
      repeat (cbn; lex_literal); cbn; reflexivity.
Qed.

Lemma add_and_set_literals_without_quotes_witness :
  sql_literals (fragment (triple "author" "name" TAGSISTANT_CONTAINS "Tx0"))
  = Some ["author"; "name"; "%Tx0%"]%string.
Proof.
  apply (add_and_set_literals_without_quotes
           (triple "author" "name" TAGSISTANT_CONTAINS "Tx0")).
  reflexivity.
Defined.

(** ** Statements on the connection *)

Lemma last_cons_default {A : Type} (x : A) (l : list A) (a b : A) :
  last (x :: l) a = last (x :: l) b.
Proof.
  revert x; induction l as [|y l IH]; intros x; [reflexivity|].
  change (last (y :: l) a = last (y :: l) b). apply IH.
Qed.

Lemma fold_return_integer (l : list Z) (a : Z) :
  fold_left tagsistant_return_integer (map (fun id => [id]) l) a = last l a.
Proof.
  revert a; induction l as [|x l IH]; intros a; [reflexivity|].
  cbn [map fold_left]. rewrite IH. destruct l as [|y l]; [reflexivity|].
  change (last (x :: y :: l) a) with (last (y :: l) a).
  apply last_cons_default.
Qed.

Lemma fetch_id_keep (s : string) (c : dbi_conn) :
  tagsistant_RDS_fetch_id s 0 c
  = (lookup s c, with_statement c (select_statement s)).
Proof.
  unfold tagsistant_RDS_fetch_id, tagsistant_query, tagsistant_real_query,
    bind, ret, lookup.
  cbn. now rewrite fold_return_integer.
Qed.

Lemma filter_filter_negb {A : Type} (p : A -> bool) (l : list A) :
  filter p (filter (fun x => negb (p x)) l) = [].
Proof.
  induction l as [|x l IH]; [reflexivity|].
  simpl. destruct (p x) eqn:E; simpl; [assumption|].
  now rewrite E.
Qed.

Lemma fetch_id_rebuild (s : string) (r : Z) (c : dbi_conn) :
  r <> 0 ->
  tagsistant_RDS_fetch_id s r c = (0, purged s c).
Proof.
  intros Hr. apply Z.eqb_neq in Hr.
  unfold tagsistant_RDS_fetch_id, tagsistant_query, tagsistant_real_query,
    bind, ret, purged.
  rewrite Hr. cbn.
  rewrite fold_return_integer. unfold rds_ids_of_subquery at 1. cbn.
  rewrite filter_filter_negb.
  unfold with_statement, with_RDS, with_RDS_catalog. cbn.
  rewrite <- !app_assoc. reflexivity.
Qed.

(** ** The statements of a build *)

Lemma add_and_set_app (g : GString) (f : and_fields) :
  tagsistant_query_add_and_set g f = g ++ tagsistant_query_add_and_set [] f.
Proof.
  unfold tagsistant_query_add_and_set, g_string_append_printf.
  destruct (negb (tag_id f =? 0)), (tag f), (value f), (operator f);
    simpl; rewrite ?app_nil_r; reflexivity.
Qed.

Lemma add_related_app (related : qtree_and_node) (g : GString) :
  add_related g related = g ++ add_related [] related.
Proof.
  revert g; induction related as [|f next _ related IH negated _]; intros g.
  - simpl. now rewrite app_nil_r.
  - cbn [add_related]. rewrite IH, add_and_set_app.
    rewrite (IH (tagsistant_query_add_and_set _ f)), (add_and_set_app (g_string_append [] _)).
    unfold g_string_append. cbn [flush]. rewrite <- !app_assoc. reflexivity.
Qed.

Lemma phase_2_pieces (id : Z) (f : and_fields) (related : qtree_and_node) :
  add_related
    (tagsistant_query_add_and_set
       (g_string_append_printf []
          ("insert into RDS " ++
           "select %d, objects.inode, objects.objectname " ++
             "from objects " ++
             "join tagging on tagging.inode = objects.inode " ++
             "join tags on tags.tag_id = tagging.tag_id " ++
             "where ")%string
          [arg_d id]) f) related
  = phase_2_statement id f related.
Proof. rewrite add_related_app, add_and_set_app. reflexivity. Qed.

Lemma phase_3_pieces (id : Z) (f : and_fields) (related : qtree_and_node) :
  g_string_append
    (add_related
       (tagsistant_query_add_and_set
          (g_string_append_printf []
             ("delete from RDS " ++
              "where rds_id = %d " ++
              "and inode not in (" ++
                "select objects.inode from objects " ++
                  "join tagging on tagging.inode = objects.inode " ++
                  "join tags on tags.tag_id = tagging.tag_id " ++
                  "where ")%string
             [arg_d id]) f) related) ")"
  = phase_3_statement id f related.
Proof.
  rewrite add_related_app, add_and_set_app.
  unfold g_string_append, phase_3_statement, where_pieces.
  rewrite <- !app_assoc. reflexivity.
Qed.

Lemma phase_4_pieces (id : Z) (f : and_fields) (related : qtree_and_node) :
  g_string_append
    (add_related
       (tagsistant_query_add_and_set
          (g_string_append_printf []
             ("delete from RDS " ++
              "where rds_id = %d " ++
              "and inode in (" ++
                "select objects.inode from objects " ++
                  "join tagging on tagging.inode = objects.inode " ++
                  "join tags on tags.tag_id = tagging.tag_id " ++
                  "where ")%string
             [arg_d id]) f) related) ")"
  = phase_4_statement id f related.
Proof.
  rewrite add_related_app, add_and_set_app.
  unfold g_string_append, phase_4_statement, where_pieces.
  rewrite <- !app_assoc. reflexivity.
Qed.

Lemma add_related_cons (f : and_fields) (next related negated : qtree_and_node) :
  add_related [] (and_node f next related negated)
  = Lit " or " :: where_pieces f related.
Proof.
  cbn [add_related]. rewrite add_related_app, add_and_set_app. reflexivity.
Qed.


(** *** Reading the text of a statement *)

Lemma string_length_app (a b : string) :
  String.length (a ++ b) = (String.length a + String.length b)%nat.
Proof. induction a as [|x a IH]; cbn; [reflexivity | now rewrite IH]. Qed.

Lemma printf_without_arguments_prefix (p s : string) :
  avoids "%" p = true ->
  printf_without_arguments (p ++ s)
  = option_map (append p) (printf_without_arguments s).
Proof.
  induction p as [|x p IH]; cbn [append avoids]; intros H.
  - now destruct (printf_without_arguments s).
  - apply andb_prop in H as [Hx Hp]. apply negb_true_iff in Hx.
    cbn [printf_without_arguments]. rewrite Hx, (IH Hp).
    now destruct (printf_without_arguments s).
Qed.

Lemma printf_without_arguments_plain (s : string) :
  avoids "%" s = true -> printf_without_arguments s = Some s.
Proof.
  intros H. rewrite <- (append_nil_r s) at 1.
  rewrite (printf_without_arguments_prefix s "" H). cbn.
  now rewrite append_nil_r.
Qed.

Lemma strip_prefix_app (p s : string) : strip_prefix p (p ++ s) = Some s.
Proof.
  induction p as [|x p IH]; cbn; [reflexivity|].
  now rewrite Ascii.eqb_refl.
Qed.

Lemma read_literal_plain (t r : string) :
  quote_free t = true ->
  starts_without (fun d => Ascii.eqb d "'") r ->
  read_literal (t ++ String "'" r) = Some (t, r).
Proof.
  intros Ht Hr. induction t as [|x t IH]; cbn [append read_literal].
  - change (Ascii.eqb "'" "'") with true. cbv iota.
    destruct r as [|d r]; [reflexivity|]. cbn in Hr. now rewrite Hr.
  - cbn [quote_free] in Ht. apply andb_prop in Ht as [Hx Ht].
    apply negb_true_iff in Hx. rewrite Hx, (IH Ht). reflexivity.
Qed.

Lemma read_digits_app (s r : string) :
  integer_text s = true -> starts_without is_integer_char r ->
  read_digits (s ++ r) = (s, r).
Proof.
  intros Hs Hr. induction s as [|x s IH]; cbn [append].
  - destruct r as [|d r]; [reflexivity|]. cbn in Hr. cbn. now rewrite Hr.
  - cbn [integer_text] in Hs. apply andb_prop in Hs as [Hx Hs].
    cbn [read_digits]. now rewrite Hx, (IH Hs).
Qed.

Lemma integer_text_printf_d (z : Z) : integer_text (printf_d z) = true.
Proof.
  assert (H : forall d, integer_text (NilEmpty.string_of_uint d) = true)
    by (induction d; simpl; auto).
  unfold printf_d, NilZero.string_of_int, NilZero.string_of_uint.
  destruct (Z.to_int z) as [d|d]; destruct d; simpl; auto.
Qed.

Lemma read_integer_printf_d (z : Z) (r : string) :
  starts_without is_integer_char r ->
  read_integer (printf_d z ++ r) = Some (z, r).
Proof.
  intros Hr. unfold read_integer.
  rewrite (read_digits_app _ _ (integer_text_printf_d z) Hr).
  now rewrite parse_integer_printf_d.
Qed.

Lemma avoids_percent_printf_d (z : Z) : avoids "%" (printf_d z) = true.
Proof.
  assert (H : forall d, avoids "%" (NilEmpty.string_of_uint d) = true)
    by (induction d; simpl; auto).
  unfold printf_d, NilZero.string_of_int, NilZero.string_of_uint.
  destruct (Z.to_int z) as [d|d]; destruct d; simpl; auto.
Qed.

(** *** Plain atoms *)

Lemma plain_text_parts (s : string) :
  plain_text s = true -> quote_free s = true /\ avoids "%" s = true.
Proof.
  unfold plain_text. intros H. apply andb_prop in H as [H _].
  now apply andb_prop in H.
Qed.

Lemma plain_is_atom (f : and_fields) : plain_atom f = true -> is_atom f = true.
Proof.
  unfold plain_atom. intros H. apply andb_prop in H as [H _].
  now apply andb_prop in H as [H _].
Qed.

Lemma plain_atom_fragment (f : and_fields) (p : predicate) :
  plain_atom f = true -> predicate_of f = Some p -> plain_fragment f p.
Proof.
  unfold plain_atom. intros H Hp. apply andb_prop in H as [_ H].
  assert (Hfrag : fragment f = g_string_str (tagsistant_query_add_and_set [] f))
    by reflexivity.
  revert H Hp Hfrag.
  unfold predicate_of, interpolated_literals, tagsistant_query_add_and_set.
  destruct (negb (tag_id f =? 0)).
  - intros _ [= <-] Hfrag. apply plain_by_id. exact Hfrag.
  - destruct (tag f) as [t|].
    + intros H [= <-] Hfrag. cbn in H. rewrite andb_true_r in H.
      apply plain_by_name; [exact Hfrag | exact H].
    + destruct (value f) as [v|]; [|discriminate].
      destruct (operator f); intros H Hp Hfrag; try discriminate;
        injection Hp as <-; cbn [forallb] in H; rewrite andb_true_r in H;
        apply andb_prop in H as [Hns H]; apply andb_prop in H as [Hk Hv].
      * apply (plain_triple f sql_eq "="); auto.
      * exfalso. apply plain_text_parts in Hv as [_ Hv]. cbn in Hv.
        discriminate.
      * apply (plain_triple f sql_gt ">"); auto.
      * apply (plain_triple f sql_lt "<"); auto.
Qed.

Lemma read_comparison_plain (cmp : sql_comparison) (sign v rest : string) :
  (cmp = sql_eq /\ sign = "=" \/ cmp = sql_gt /\ sign = ">"
   \/ cmp = sql_lt /\ sign = "<")%string ->
  quote_free v = true ->
  read_comparison (" and value " ++ sign ++ " '" ++ v ++ "' " ++ rest)
  = Some (cmp, v, (" " ++ rest)%string).
Proof.
  intros H Hv.
  assert (Hlit : read_literal (v ++ "' " ++ rest) = Some (v, (" " ++ rest)%string))
    by (apply (read_literal_plain v (" " ++ rest) Hv); reflexivity).
  destruct H as [[-> ->] | [[-> ->] | [-> ->]]]; unfold read_comparison.
  - change (strip_prefix " and value = '"
              (" and value " ++ "=" ++ " '" ++ v ++ "' " ++ rest))
      with (strip_prefix "" (v ++ "' " ++ rest)).
    cbn [strip_prefix]. now rewrite Hlit.
  - change (strip_prefix " and value = '"
              (" and value " ++ ">" ++ " '" ++ v ++ "' " ++ rest))
      with (@None string).
    change (strip_prefix " and value like '"
              (" and value " ++ ">" ++ " '" ++ v ++ "' " ++ rest))
      with (@None string).
    change (strip_prefix " and value > '"
              (" and value " ++ ">" ++ " '" ++ v ++ "' " ++ rest))
      with (strip_prefix "" (v ++ "' " ++ rest)).
    cbn [strip_prefix]. now rewrite Hlit.
  - change (strip_prefix " and value = '"
              (" and value " ++ "<" ++ " '" ++ v ++ "' " ++ rest))
      with (@None string).
    change (strip_prefix " and value like '"
              (" and value " ++ "<" ++ " '" ++ v ++ "' " ++ rest))
      with (@None string).
    change (strip_prefix " and value > '"
              (" and value " ++ "<" ++ " '" ++ v ++ "' " ++ rest))
      with (@None string).
    change (strip_prefix " and value < '"
              (" and value " ++ "<" ++ " '" ++ v ++ "' " ++ rest))
      with (strip_prefix "" (v ++ "' " ++ rest)).
    cbn [strip_prefix]. now rewrite Hlit.
Qed.

(** A plain criterion, followed by the end of the clause or by [ or ],
    reads back as the predicate of its atom. *)
Lemma read_predicate_plain (f : and_fields) (p : predicate) (rest : string) :
  plain_fragment f p ->
  starts_without (fun d => Ascii.eqb "a" d) rest ->
  read_predicate (fragment f ++ rest) = Some (p, rest).
Proof.
  intros Hf Hrest. destruct Hf as [E | t E Ht | cmp sign ns k v E Hc Hns Hk Hv];
    rewrite E, ?append_assoc; unfold read_predicate.
  - rewrite strip_prefix_app.
    rewrite (read_integer_printf_d (tag_id f) (" " ++ rest)) by reflexivity.
    reflexivity.
  - change (strip_prefix "tagging.tag_id = " ("tagname = '" ++ t ++ "' " ++ rest))
      with (@None string).
    rewrite strip_prefix_app.
    apply plain_text_parts in Ht as [Ht _].
    change (t ++ "' " ++ rest)%string with (t ++ String "'" (" " ++ rest))%string.
    rewrite (read_literal_plain t (" " ++ rest) Ht) by reflexivity.
    assert (Hnone : strip_prefix " and `key` = '" (" " ++ rest) = None).
    { destruct rest as [|d rest]; [reflexivity|]. cbn in Hrest. cbn.
      now rewrite Hrest. }
    rewrite Hnone. reflexivity.
  - change (strip_prefix "tagging.tag_id = "
              ("tagname = '" ++ ns ++ "' and `key` = '" ++ k ++ "' and value "
               ++ sign ++ " '" ++ v ++ "' " ++ rest))
      with (@None string).
    rewrite strip_prefix_app.
    apply plain_text_parts in Hns as [Hns _].
    apply plain_text_parts in Hk as [Hk _].
    apply plain_text_parts in Hv as [Hv _].
    change (ns ++ "' and `key` = '" ++ k ++ "' and value " ++ sign ++ " '"
            ++ v ++ "' " ++ rest)%string
      with (ns ++ String "'" (" and `key` = '" ++ k ++ "' and value " ++ sign
                              ++ " '" ++ v ++ "' " ++ rest))%string.
    rewrite (read_literal_plain ns _ Hns) by reflexivity.
    rewrite strip_prefix_app.
    change (k ++ "' and value " ++ sign ++ " '" ++ v ++ "' " ++ rest)%string
      with (k ++ String "'" (" and value " ++ sign ++ " '" ++ v ++ "' " ++ rest))%string.
    rewrite (read_literal_plain k _ Hk) by reflexivity.
    rewrite (read_comparison_plain cmp sign v rest Hc Hv). reflexivity.
Qed.

Lemma fragment_avoids_percent (f : and_fields) (p : predicate) :
  plain_fragment f p -> avoids "%" (fragment f) = true.
Proof.
  intros [E | t E Ht | cmp sign ns k v E Hc Hns Hk Hv]; rewrite E.
  - rewrite !avoids_app, avoids_percent_printf_d. reflexivity.
  - apply plain_text_parts in Ht as [_ Ht]. rewrite !avoids_app, Ht. reflexivity.
  - apply plain_text_parts in Hns as [_ Hns].
    apply plain_text_parts in Hk as [_ Hk].
    apply plain_text_parts in Hv as [_ Hv].
    rewrite !avoids_app, Hns, Hk, Hv.
    destruct Hc as [[_ ->] | [[_ ->] | [_ ->]]]; reflexivity.
Qed.

Lemma fragment_not_empty (f : and_fields) (p : predicate) :
  plain_fragment f p -> (0 < String.length (fragment f))%nat.
Proof.
  intros [E | t E Ht | cmp sign ns k v E Hc Hns Hk Hv]; rewrite E; cbn; lia.
Qed.

Lemma where_pieces_text (f : and_fields) (related : qtree_and_node) :
  g_string_str (where_pieces f related)
  = match related with
    | and_NULL => fragment f
    | and_node f' _ related' _ =>
        (fragment f ++ " or " ++ g_string_str (where_pieces f' related'))%string
    end.
Proof.
  unfold where_pieces at 1. rewrite g_string_str_app. fold (fragment f).
  destruct related as [|f' next related' negated].
  - cbn. apply append_nil_r.
  - cbn [add_related]. rewrite add_related_app, add_and_set_app.
    unfold g_string_append. cbn [flush app].
    change (Lit " or " :: tagsistant_query_add_and_set [] f' ++ add_related [] related')
      with (Lit " or " :: where_pieces f' related').
    reflexivity.
Qed.

Lemma plain_clause_atom (f : and_fields) (related : qtree_and_node) :
  Forall (fun f => plain_atom f = true) (clause f related) ->
  exists p, predicate_of f = Some p /\ plain_fragment f p.
Proof.
  intros Hall. inversion Hall as [|x l Hf _]; subst.
  pose proof (plain_is_atom f Hf) as Ha. unfold is_atom in Ha.
  destruct (predicate_of f) as [p|] eqn:Hp; [|discriminate].
  exists p. split; [reflexivity | now apply plain_atom_fragment].
Qed.

Lemma read_where_plain (related : qtree_and_node) (f : and_fields)
  (rest : string) (fuel : nat) :
  Forall (fun f => plain_atom f = true) (clause f related) ->
  rest = ""%string \/ rest = ")"%string ->
  (List.length (related_chain related) < fuel)%nat ->
  read_where fuel (g_string_str (where_pieces f related) ++ rest)
  = Some (predicates_of (clause f related), rest).
Proof.
  revert f fuel; induction related as [|f' next _ related IH negated _];
    intros f fuel Hall Hrest Hfuel;
    destruct (plain_clause_atom f _ Hall) as (p & Hp & Hf);
    (destruct fuel as [|fuel]; [inversion Hfuel|]);
    rewrite where_pieces_text; cbn [read_where].
  - rewrite (read_predicate_plain f p rest Hf)
      by (destruct Hrest as [-> | ->]; reflexivity).
    unfold clause. cbn [related_chain predicates_of]. rewrite Hp.
    destruct Hrest as [-> | ->]; reflexivity.
  - rewrite !append_assoc.
    rewrite (read_predicate_plain f p _ Hf) by reflexivity.
    change (strip_prefix " or "
              (" or " ++ g_string_str (where_pieces f' related) ++ rest))
      with (Some (g_string_str (where_pieces f' related) ++ rest)%string).
    unfold clause in Hall. cbn [related_chain] in Hall.
    inversion Hall as [|x l _ Hall']; subst.
    cbn [related_chain List.length] in Hfuel.
    rewrite (IH f' fuel Hall' Hrest) by lia.
    unfold clause. cbn [related_chain predicates_of]. now rewrite Hp.
Qed.

Lemma where_text_avoids_percent (related : qtree_and_node) (f : and_fields) :
  Forall (fun f => plain_atom f = true) (clause f related) ->
  avoids "%" (g_string_str (where_pieces f related)) = true.
Proof.
  revert f; induction related as [|f' next _ related IH negated _];
    intros f Hall; destruct (plain_clause_atom f _ Hall) as (p & Hp & Hf);
    rewrite where_pieces_text.
  - now apply (fragment_avoids_percent f p).
  - unfold clause in Hall. cbn [related_chain] in Hall.
    inversion Hall as [|x l _ Hall']; subst.
    rewrite !avoids_app, (fragment_avoids_percent f p Hf), (IH f' Hall').
    reflexivity.
Qed.

Lemma where_text_length (related : qtree_and_node) (f : and_fields) :
  Forall (fun f => plain_atom f = true) (clause f related) ->
  (List.length (related_chain related)
   < String.length (g_string_str (where_pieces f related)))%nat.
Proof.
  revert f; induction related as [|f' next _ related IH negated _];
    intros f Hall; destruct (plain_clause_atom f _ Hall) as (p & Hp & Hf);
    rewrite where_pieces_text;
    pose proof (fragment_not_empty f p Hf) as Hlen.
  - exact Hlen.
  - unfold clause in Hall. cbn [related_chain] in Hall.
    inversion Hall as [|x l _ Hall']; subst.
    specialize (IH f' Hall').
    rewrite !string_length_app. cbn [related_chain List.length]. lia.
Qed.

(** *** The statements of the three phases, as the engine reads them *)

Lemma phase_2_text (id : Z) (f : and_fields) (related : qtree_and_node) :
  Forall (fun f => plain_atom f = true) (clause f related) ->
  printf_without_arguments (g_string_str (phase_2_statement id f related))
  = Some (g_string_str (phase_2_statement id f related))
  /\ sql_parse_text (g_string_str (phase_2_statement id f related))
     = Some (insert_RDS_select id (predicates_of (clause f related))).
Proof.
  intros Hall. unfold phase_2_statement.
  cbn [g_string_str piece_str].
  set (w := g_string_str (where_pieces f related)).
  split.
  - apply printf_without_arguments_plain.
    rewrite !avoids_app, avoids_percent_printf_d.
    unfold w. rewrite (where_text_avoids_percent related f Hall). reflexivity.
  - unfold sql_parse_text. rewrite strip_prefix_app.
    rewrite (read_integer_printf_d id) by reflexivity.
    rewrite strip_prefix_app.
    rewrite <- (append_nil_r w) at 2.
    rewrite (read_where_plain related f "" _ Hall) by
      (auto; apply where_text_length; exact Hall).
    reflexivity.
Qed.

Lemma phase_3_text (id : Z) (f : and_fields) (related : qtree_and_node) :
  Forall (fun f => plain_atom f = true) (clause f related) ->
  printf_without_arguments (g_string_str (phase_3_statement id f related))
  = Some (g_string_str (phase_3_statement id f related))
  /\ sql_parse_text (g_string_str (phase_3_statement id f related))
     = Some (delete_RDS_not_in id (predicates_of (clause f related))).
Proof.
  intros Hall. unfold phase_3_statement.
  cbn [g_string_str piece_str]. rewrite g_string_str_app.
  cbn [g_string_str piece_str].
  set (w := g_string_str (where_pieces f related)).
  split.
  - apply printf_without_arguments_plain.
    rewrite !avoids_app, avoids_percent_printf_d.
    unfold w. rewrite (where_text_avoids_percent related f Hall). reflexivity.
  - unfold sql_parse_text.
    change (strip_prefix "insert into RDS select "
              ("delete from RDS where rds_id = " ++ printf_d id ++
               (" and inode not in (select objects.inode " ++ joined_tables) ++
               w ++ ")" ++ ""))
      with (@None string).
    rewrite strip_prefix_app.
    rewrite (read_integer_printf_d id) by reflexivity.
    rewrite strip_prefix_app.
    change (")" ++ "")%string with ")"%string.
    rewrite (read_where_plain related f ")" _ Hall) by
      (auto; rewrite string_length_app;
       pose proof (where_text_length related f Hall); unfold w; lia).
    reflexivity.
Qed.

Lemma phase_4_text (id : Z) (f : and_fields) (related : qtree_and_node) :
  Forall (fun f => plain_atom f = true) (clause f related) ->
  printf_without_arguments (g_string_str (phase_4_statement id f related))
  = Some (g_string_str (phase_4_statement id f related))
  /\ sql_parse_text (g_string_str (phase_4_statement id f related))
     = Some (delete_RDS_in id (predicates_of (clause f related))).
Proof.
  intros Hall. unfold phase_4_statement.
  cbn [g_string_str piece_str]. rewrite g_string_str_app.
  cbn [g_string_str piece_str].
  set (w := g_string_str (where_pieces f related)).
  split.
  - apply printf_without_arguments_plain.
    rewrite !avoids_app, avoids_percent_printf_d.
    unfold w. rewrite (where_text_avoids_percent related f Hall). reflexivity.
  - unfold sql_parse_text.
    change (strip_prefix "insert into RDS select "
              ("delete from RDS where rds_id = " ++ printf_d id ++
               (" and inode in (select objects.inode " ++ joined_tables) ++
               w ++ ")" ++ ""))
      with (@None string).
    rewrite strip_prefix_app.
    rewrite (read_integer_printf_d id) by reflexivity.
    change (strip_prefix
              (" and inode not in (select objects.inode " ++ joined_tables)
              ((" and inode in (select objects.inode " ++ joined_tables) ++
               w ++ ")" ++ ""))
      with (@None string).
    rewrite strip_prefix_app.
    change (")" ++ "")%string with ")"%string.
    rewrite (read_where_plain related f ")" _ Hall) by
      (auto; rewrite string_length_app;
       pose proof (where_text_length related f Hall); unfold w; lia).
    reflexivity.
Qed.

(** *** What a statement on the RDS table can change *)

Lemma sql_parse_text_on_RDS (text : string) (st : statement) :
  sql_parse_text text = Some st ->
  (exists id w, st = insert_RDS_select id w)
  \/ (exists id w row, st = insert_RDS_select_union id w row)
  \/ (exists id w, st = delete_RDS_not_in id w)
  \/ (exists id w, st = delete_RDS_in id w).
Proof.
  unfold sql_parse_text, option_map.
  repeat match goal with
         | |- context [match ?x with _ => _ end] => destruct x
         end; try discriminate; intros [= <-]; eauto 8.
Qed.

Lemma In_filter_In {A : Type} (p : A -> bool) (l : list A) (x : A) :
  In x (filter p l) -> In x l.
Proof. intros H. now apply filter_In in H. Qed.

Lemma query_str_step (g : GString) (c : dbi_conn) :
  phase_step c (snd (tagsistant_query_str g c))
  /\ statements (snd (tagsistant_query_str g c)) = statements c ++ [g].
Proof.
  unfold tagsistant_query_str, phase_step.
  destruct (printf_without_arguments (g_string_str g)) as [text|];
    [|cbn; auto 10].
  destruct (sql_parse_text text) as [st|] eqn:E; [|cbn; auto 10].
  destruct (sql_parse_text_on_RDS text st E)
    as [(id & w & ->) | [(id & w & row & ->) | [(id & w & ->) | (id & w & ->)]]];
    cbn; auto 10.
Qed.

Lemma phase_step_refl (c : dbi_conn) : phase_step c c.
Proof. unfold phase_step; auto. Qed.

Lemma phase_step_trans (c1 c2 c3 : dbi_conn) :
  phase_step c1 c2 -> phase_step c2 c3 -> phase_step c1 c3.
Proof.
  unfold phase_step.
  intros (A1 & A2 & A3 & A4 & A5) (B1 & B2 & B3 & B4 & B5).
  repeat split; congruence.
Qed.

Lemma bind_eq {A B : Type} (m : SQL A) (k : A -> SQL B) (c : dbi_conn) :
  bind m k c = k (fst (m c)) (snd (m c)).
Proof. unfold bind. now destruct (m c). Qed.

Lemma phase_3_loop_steps (id : Z) (n : qtree_and_node) (c : dbi_conn) :
  phase_step c (snd (phase_3_loop id n c)).
Proof.
  revert c; induction n as [|f next IH related _ negated _]; intros c.
  - apply phase_step_refl.
  - cbn [phase_3_loop]. rewrite bind_eq.
    eapply phase_step_trans; [apply query_str_step | apply IH].
Qed.

Lemma phase_4_negated_steps (id : Z) (n : qtree_and_node) (c : dbi_conn) :
  phase_step c (snd (phase_4_negated id n c)).
Proof.
  revert c; induction n as [|f next _ related _ negated IH]; intros c.
  - apply phase_step_refl.
  - cbn [phase_4_negated]. rewrite bind_eq.
    eapply phase_step_trans; [apply query_str_step | apply IH].
Qed.

Lemma phase_4_loop_steps (id : Z) (n : qtree_and_node) (c : dbi_conn) :
  phase_step c (snd (phase_4_loop id n c)).
Proof.
  revert c; induction n as [|f next IH related _ negated _]; intros c.
  - apply phase_step_refl.
  - cbn [phase_4_loop]. rewrite bind_eq.
    eapply phase_step_trans; [apply phase_4_negated_steps | apply IH].
Qed.

Lemma insert_catalog_query (s : string) (c : dbi_conn) :
  tagsistant_query "insert into RDS_catalog (subquery) values ('%s')"
    NULL tt [arg_s (Some s)] c
  = (tt, registered s c).
Proof. reflexivity. Qed.

(** What a build does, whatever the atoms are: it registers the subquery
    under the next id and returns that id; the statements of its phases
    reach the RDS table only. *)
Lemma build_registers (query : qtree_or_node) (s : string) (c : dbi_conn) :
  fst (tagsistant_RDS_build query s c) = auto_increment c
  /\ phase_step (registered s c) (snd (tagsistant_RDS_build query s c)).
Proof.
  unfold tagsistant_RDS_build.
  rewrite bind_eq, insert_catalog_query. cbn [fst snd].
  rewrite bind_eq. cbv [tagsistant_last_insert_id]. cbn [fst snd].
  change (last_insert_id (registered s c)) with (auto_increment c).
  destruct (and_set query) as [|f next related negated].
  - split; [reflexivity | apply phase_step_refl].
  - rewrite !bind_eq. unfold ret. cbn [fst snd].
    split; [reflexivity|].
    eapply phase_step_trans; [apply query_str_step|].
    eapply phase_step_trans; [apply phase_3_loop_steps|].
    apply phase_4_loop_steps.
Qed.

(** *** The rows of a build with plain atoms *)

Lemma filter_filter_ext {A : Type} (p q r : A -> bool) (l : list A) :
  (forall x, p x && q x = r x) -> filter q (filter p l) = filter r l.
Proof.
  intros H. induction l as [|x l IH]; [reflexivity|].
  cbn [filter]. rewrite <- (H x).
  destruct (p x); cbn [filter andb]; [destruct (q x)|]; now rewrite IH.
Qed.

Lemma same_tables_refl (c : dbi_conn) : same_tables c c.
Proof. unfold same_tables. auto. Qed.

Lemma same_tables_trans (c1 c2 c3 : dbi_conn) :
  same_tables c1 c2 -> same_tables c2 c3 -> same_tables c1 c3.
Proof. unfold same_tables. intros (A & B & C) (D & E & F). repeat split; congruence. Qed.

Lemma selected_inodes_same (w : list predicate) (c c' : dbi_conn) :
  objects c' = objects c -> tagging c' = tagging c -> tags c' = tags c ->
  selected_inodes w c' = selected_inodes w c.
Proof.
  unfold selected_inodes, selected, joined. now intros -> -> ->.
Qed.

Lemma selects_same (c c' : dbi_conn) (cl : list and_fields) (i : Z) :
  same_tables c c' -> selects c' cl i = selects c cl i.
Proof.
  intros (Ho & Htg & Ht). unfold selects.
  now rewrite (selected_inodes_same _ c c' Ho Htg Ht).
Qed.

Lemma phase_step_tables (c c' : dbi_conn) : phase_step c c' -> same_tables c c'.
Proof. intros (_ & _ & A & B & C). now repeat split. Qed.

Lemma query_str_tables (g : GString) (c : dbi_conn) :
  same_tables c (snd (tagsistant_query_str g c)).
Proof. apply phase_step_tables, query_str_step. Qed.

(** A text without conversion that the engine reads as [st] is executed as
    [st]. *)
Lemma query_str_run (g : GString) (st : statement) (c : dbi_conn) :
  printf_without_arguments (g_string_str g) = Some (g_string_str g) ->
  sql_parse_text (g_string_str g) = Some st ->
  snd (tagsistant_query_str g c) = snd (sql_exec st (with_statement c g)).
Proof. intros Hp Hs. unfold tagsistant_query_str. now rewrite Hp, Hs. Qed.

Lemma phase_2_rows (id : Z) (f : and_fields) (related : qtree_and_node)
  (c0 : dbi_conn) :
  Forall (fun f => plain_atom f = true) (clause f related) ->
  RDS (snd (tagsistant_query_str (phase_2_statement id f related) c0))
  = RDS c0 ++ seed id (clause f related) c0.
Proof.
  intros Hall. destruct (phase_2_text id f related Hall) as [Hp Hs].
  rewrite (query_str_run _ _ c0 Hp Hs). reflexivity.
Qed.

Lemma phase_3_rows (id : Z) (f : and_fields) (related : qtree_and_node)
  (c0 : dbi_conn) :
  Forall (fun f => plain_atom f = true) (clause f related) ->
  RDS (snd (tagsistant_query_str (phase_3_statement id f related) c0))
  = filter (fun r => negb (rds_id r =? id)
                     || selects c0 (clause f related) (inode r)) (RDS c0).
Proof.
  intros Hall. destruct (phase_3_text id f related Hall) as [Hp Hs].
  rewrite (query_str_run _ _ c0 Hp Hs). cbn [snd sql_exec with_RDS RDS].
  apply filter_ext. intros r. unfold selects.
  change (selected_inodes _ (with_statement c0 _))
    with (selected_inodes (predicates_of (clause f related)) c0).
  now rewrite negb_andb, negb_involutive.
Qed.

Lemma phase_4_rows (id : Z) (f : and_fields) (related : qtree_and_node)
  (c0 : dbi_conn) :
  Forall (fun f => plain_atom f = true) (clause f related) ->
  RDS (snd (tagsistant_query_str (phase_4_statement id f related) c0))
  = filter (fun r => negb (rds_id r =? id)
                     || negb (selects c0 (clause f related) (inode r))) (RDS c0).
Proof.
  intros Hall. destruct (phase_4_text id f related Hall) as [Hp Hs].
  rewrite (query_str_run _ _ c0 Hp Hs). cbn [snd sql_exec with_RDS RDS].
  apply filter_ext. intros r. unfold selects.
  change (selected_inodes _ (with_statement c0 _))
    with (selected_inodes (predicates_of (clause f related)) c0).
  now rewrite negb_andb.
Qed.

Lemma phase_3_loop_rows (id : Z) (c : dbi_conn) (n : qtree_and_node)
  (c0 : dbi_conn) :
  same_tables c c0 -> all_plain (next_clauses n) ->
  RDS (snd (phase_3_loop id n c0))
  = filter (kept id c (next_clauses n) []) (RDS c0).
Proof.
  revert c0; induction n as [|f next IH related _ negated _];
    intros c0 Hsame Hall.
  - cbn. symmetry. rewrite <- (filter_ext (fun _ => true)).
    + induction (RDS c0) as [|x l IHl]; [reflexivity|]. cbn. now rewrite IHl.
    + intros r. unfold kept. cbn. now rewrite orb_true_r.
  - cbn [next_clauses] in Hall. inversion Hall as [|x l Hf Hrest]; subst.
    cbn [phase_3_loop]. rewrite phase_3_pieces, bind_eq.
    set (c1 := snd (tagsistant_query_str (phase_3_statement id f related) c0)).
    assert (H1 : same_tables c0 c1)
      by apply query_str_tables.
    rewrite (IH c1 (same_tables_trans _ _ _ Hsame H1) Hrest).
    unfold c1. rewrite (phase_3_rows id f related c0 Hf).
    apply filter_filter_ext. intros r. unfold kept.
    cbn [next_clauses forallb]. rewrite (selects_same c c0 _ _ Hsame).
    destruct (negb (rds_id r =? id)); cbn; [reflexivity|].
    now rewrite !andb_true_r.
Qed.

Lemma phase_4_negated_rows (id : Z) (c : dbi_conn) (n : qtree_and_node)
  (c0 : dbi_conn) :
  same_tables c c0 -> all_plain (negated_chain n) ->
  RDS (snd (phase_4_negated id n c0))
  = filter (kept id c [] (negated_chain n)) (RDS c0).
Proof.
  revert c0; induction n as [|f next _ related _ negated IH];
    intros c0 Hsame Hall.
  - cbn. symmetry. rewrite <- (filter_ext (fun _ => true)).
    + induction (RDS c0) as [|x l IHl]; [reflexivity|]. cbn. now rewrite IHl.
    + intros r. unfold kept. cbn. now rewrite orb_true_r.
  - cbn [negated_chain] in Hall. inversion Hall as [|x l Hf Hrest]; subst.
    cbn [phase_4_negated]. rewrite phase_4_pieces, bind_eq.
    set (c1 := snd (tagsistant_query_str (phase_4_statement id f related) c0)).
    assert (H1 : same_tables c0 c1)
      by apply query_str_tables.
    rewrite (IH c1 (same_tables_trans _ _ _ Hsame H1) Hrest).
    unfold c1. rewrite (phase_4_rows id f related c0 Hf).
    apply filter_filter_ext. intros r. unfold kept.
    cbn [negated_chain forallb]. rewrite (selects_same c c0 _ _ Hsame).
    destruct (negb (rds_id r =? id)); reflexivity.
Qed.

Lemma all_plain_app (l1 l2 : list (list and_fields)) :
  all_plain (l1 ++ l2) -> all_plain l1 /\ all_plain l2.
Proof. unfold all_plain. apply Forall_app. Qed.

Lemma phase_4_loop_rows (id : Z) (c : dbi_conn) (n : qtree_and_node)
  (c0 : dbi_conn) :
  same_tables c c0 -> all_plain (subtracted n) ->
  RDS (snd (phase_4_loop id n c0))
  = filter (kept id c [] (subtracted n)) (RDS c0).
Proof.
  revert c0; induction n as [|f next IH related _ negated _];
    intros c0 Hsame Hall.
  - cbn. symmetry. rewrite <- (filter_ext (fun _ => true)).
    + induction (RDS c0) as [|x l IHl]; [reflexivity|]. cbn. now rewrite IHl.
    + intros r. unfold kept. cbn. now rewrite orb_true_r.
  - cbn [subtracted] in Hall. apply all_plain_app in Hall as [Hneg Hrest].
    cbn [phase_4_loop]. rewrite bind_eq.
    set (c1 := snd (phase_4_negated id negated c0)).
    assert (H1 : same_tables c0 c1)
      by apply phase_step_tables, phase_4_negated_steps.
    rewrite (IH c1 (same_tables_trans _ _ _ Hsame H1) Hrest).
    unfold c1. rewrite (phase_4_negated_rows id c negated c0 Hsame Hneg).
    apply filter_filter_ext. intros r. unfold kept.
    cbn [subtracted forallb]. rewrite forallb_app.
    destruct (negb (rds_id r =? id)); reflexivity.
Qed.

(** What a build of plain atoms leaves in the RDS table: the rows that were
    there, and under the new id the objects the first clause selects, less
    those a further clause misses or a negated clause selects. *)
Lemma build_rows (query : qtree_or_node) (s : string) (c : dbi_conn)
  (f : and_fields) (next related negated : qtree_and_node) :
  and_set query = and_node f next related negated ->
  all_plain (clause f related
             :: next_clauses next ++ subtracted (and_set query)) ->
  RDS (snd (tagsistant_RDS_build query s c))
  = filter (kept (auto_increment c) c (next_clauses next)
              (subtracted (and_set query)))
      (RDS c ++ seed (auto_increment c) (clause f related) c).
Proof.
  intros Hset Hall.
  inversion Hall as [|x l Hhead Hrest]; subst.
  apply all_plain_app in Hrest as [Hnext Hsub].
  unfold tagsistant_RDS_build.
  rewrite bind_eq, insert_catalog_query. cbn [fst snd].
  rewrite bind_eq. cbv [tagsistant_last_insert_id]. cbn [fst snd].
  change (last_insert_id (registered s c)) with (auto_increment c).
  rewrite Hset in *.
  rewrite phase_2_pieces, !bind_eq. unfold ret. cbn [fst snd].
  set (id := auto_increment c).
  set (c2 := snd (tagsistant_query_str (phase_2_statement id f related)
                    (registered s c))).
  assert (H2 : same_tables c c2).
  { destruct (query_str_tables (phase_2_statement id f related)
                (registered s c)) as (Ho & Htg & Ht).
    unfold c2. now repeat split. }
  set (c3 := snd (phase_3_loop id next c2)).
  assert (H3 : same_tables c2 c3)
    by apply phase_step_tables, phase_3_loop_steps.
  rewrite (phase_4_loop_rows id c _ c3 (same_tables_trans _ _ _ H2 H3) Hsub).
  unfold c3. rewrite (phase_3_loop_rows id c next c2 H2 Hnext).
  unfold c2. rewrite (phase_2_rows id f related (registered s c) Hhead).
  change (RDS (registered s c)) with (RDS c).
  change (seed id (clause f related) (registered s c))
    with (seed id (clause f related) c).
  apply filter_filter_ext. intros r. unfold kept. cbn [forallb].
  destruct (negb (rds_id r =? id)); cbn; [reflexivity|].
  now rewrite andb_true_r.
Qed.

(** A build of plain atoms adds rows under its own id only. *)
Lemma build_rows_new (query : qtree_or_node) (s : string) (c : dbi_conn) :
  plain_conjunction (and_set query) ->
  forall r, In r (RDS (snd (tagsistant_RDS_build query s c))) ->
            In r (RDS c) \/ rds_id r = auto_increment c.
Proof.
  intros Hplain r Hr.
  destruct (and_set query) as [|f next related negated] eqn:Hset.
  - left. revert Hr. unfold tagsistant_RDS_build.
    rewrite bind_eq, insert_catalog_query. cbn [fst snd].
    rewrite bind_eq. cbv [tagsistant_last_insert_id]. cbn [fst snd].
    now rewrite Hset.
  - unfold plain_conjunction, clauses_of in Hplain. rewrite <- Hset in Hplain.
    rewrite (build_rows query s c f next related negated Hset Hplain) in Hr.
    apply filter_In in Hr as [Hr _]. apply in_app_or in Hr as [Hr | Hr].
    + now left.
    + right. unfold seed in Hr. apply in_map_iff in Hr as (j & <- & _).
      reflexivity.
Qed.

(** ** The loop of [tagsistant_RDS_prepare] *)

Lemma prepare_loop_ids (query : qtree_or_node) (r : Z) (g : GString)
  (c : dbi_conn) :
  prepare_loop g query r c
  = (g ++ ids_pieces (fst (prepare_ids query r c)),
     snd (prepare_ids query r c)).
Proof.
  revert g c; induction query as [|a next IH]; intros g c.
  - cbn. now rewrite app_nil_r.
  - cbn [prepare_loop prepare_ids].
    unfold g_mutex_lock, g_mutex_unlock, fetch_or_build.
    rewrite !bind_eq. unfold ret. cbn [fst snd].
    rewrite IH. cbn [fst snd ids_pieces flat_map].
    unfold g_string_append_printf. rewrite <- app_assoc. reflexivity.
Qed.

Lemma concat_ids_pieces (x : string) (ids : list Z) :
  String.concat ", " (x :: map printf_d ids)
  = (x ++ g_string_str (ids_pieces ids))%string.
Proof.
  revert x; induction ids as [|id ids IH]; intros x.
  - simpl. now rewrite append_nil_r.
  - change (map printf_d (id :: ids)) with (printf_d id :: map printf_d ids).
    change (String.concat ", " (x :: printf_d id :: map printf_d ids))
      with (x ++ ", " ++ String.concat ", " (printf_d id :: map printf_d ids))%string.
    rewrite IH. reflexivity.
Qed.

Lemma fingerprint_str (id : Z) (ids : list Z) :
  skip 2 (g_string_str (ids_pieces (id :: ids))) = fingerprint_of (id :: ids).
Proof.
  unfold fingerprint_of.
  change (map printf_d (id :: ids)) with (printf_d id :: map printf_d ids).
  rewrite concat_ids_pieces. reflexivity.
Qed.

Lemma prepare_ids_cons (a : qtree_and_node) (next : qtree_or_node) (r : Z)
  (c : dbi_conn) :
  prepare_ids (or_node a next) r c
  = (fst (fetch_or_build (or_node a next) r c)
       :: fst (prepare_ids next r (snd (fetch_or_build (or_node a next) r c))),
     snd (prepare_ids next r (snd (fetch_or_build (or_node a next) r c)))).
Proof. cbn [prepare_ids]. now rewrite !bind_eq. Qed.

(** On a disjunction that is not empty, and not on the ALL path, prepare
    returns the fingerprint of the ids of the loop. *)
Lemma prepare_fingerprint (a : qtree_and_node) (next : qtree_or_node) (r : Z)
  (c : dbi_conn) :
  tagsistant_RDS_prepare (or_node a next) 0 r c
  = (Some (fingerprint_of (fst (prepare_ids (or_node a next) r c))),
     snd (prepare_ids (or_node a next) r c)).
Proof.
  unfold tagsistant_RDS_prepare. cbn [Z.eqb negb].
  rewrite bind_eq, prepare_loop_ids. unfold ret. cbn [fst snd g_string_new flush app].
  rewrite prepare_ids_cons. cbn [fst snd].
  now rewrite fingerprint_str.
Qed.

(** ** The catalog across a prepare *)

Lemma lookup_same_catalog (s : string) (c c' : dbi_conn) :
  RDS_catalog c' = RDS_catalog c -> lookup s c' = lookup s c.
Proof. unfold lookup, rds_ids_of_subquery. now intros ->. Qed.

Lemma catalog_wf_same (c c' : dbi_conn) :
  RDS_catalog c' = RDS_catalog c -> auto_increment c' = auto_increment c ->
  catalog_wf c -> catalog_wf c'.
Proof. unfold catalog_wf. now intros -> ->. Qed.

Lemma last_In {A : Type} (l : list A) (x d : A) : In (last (x :: l) d) (x :: l).
Proof.
  revert x; induction l as [|y l IH]; intros x; [now left|].
  right. apply IH.
Qed.

Lemma lookup_In (s : string) (c : dbi_conn) :
  lookup s c <> 0 ->
  exists r, In r (RDS_catalog c) /\ cat_subquery r = s
            /\ cat_rds_id r = lookup s c.
Proof.
  unfold lookup, rds_ids_of_subquery.
  destruct (map cat_rds_id _) as [|x l] eqn:E; [now intros []|].
  intros _. pose proof (last_In l x 0) as H. rewrite <- E in H.
  apply in_map_iff in H as (r & Hr & Hin).
  apply filter_In in Hin as [Hin Hs]. apply String.eqb_eq in Hs.
  exists r. rewrite E in Hr. auto.
Qed.

Lemma lookup_zero (s : string) (c : dbi_conn) :
  catalog_wf c -> lookup s c = 0 -> rds_ids_of_subquery s c = [].
Proof.
  intros [_ Hwf] H0. unfold lookup in H0.
  destruct (rds_ids_of_subquery s c) as [|x l] eqn:E; [reflexivity|].
  pose proof (last_In l x 0) as H. rewrite H0, <- E in H.
  unfold rds_ids_of_subquery in H.
  apply in_map_iff in H as (r & Hr & Hin).
  apply filter_In in Hin as [Hin _]. apply Hwf in Hin. lia.
Qed.

Lemma rds_ids_registered (s s' : string) (c c' : dbi_conn) :
  RDS_catalog c' = RDS_catalog c ++ [mk_catalog_row (auto_increment c) s 0] ->
  rds_ids_of_subquery s' c'
  = rds_ids_of_subquery s' c
    ++ (if (s =? s')%string then [auto_increment c] else []).
Proof.
  unfold rds_ids_of_subquery. intros ->.
  rewrite filter_app, map_app. cbn. now destruct (s =? s')%string.
Qed.

Lemma fetch_or_build_keep (query : qtree_or_node) (c : dbi_conn) :
  fetch_or_build query 0 c
  = let s := tagsistant_RDS_build_subquery query in
    if lookup s c =? 0
    then tagsistant_RDS_build query s (with_statement c (select_statement s))
    else (lookup s c, with_statement c (select_statement s)).
Proof.
  unfold fetch_or_build. rewrite bind_eq, fetch_id_keep. cbn [fst snd].
  now destruct (lookup _ c =? 0).
Qed.

Lemma fetch_or_build_rebuild (query : qtree_or_node) (r : Z) (c : dbi_conn) :
  r <> 0 ->
  fetch_or_build query r c
  = let s := tagsistant_RDS_build_subquery query in
    tagsistant_RDS_build query s (purged s c).
Proof.
  intros Hr. unfold fetch_or_build.
  rewrite bind_eq, fetch_id_rebuild by assumption. reflexivity.
Qed.

(** The catalog after a build started from [c0]. *)
Lemma build_catalog (query : qtree_or_node) (s : string) (c0 : dbi_conn) :
  RDS_catalog (snd (tagsistant_RDS_build query s c0))
  = RDS_catalog c0 ++ [mk_catalog_row (auto_increment c0) s 0]
  /\ auto_increment (snd (tagsistant_RDS_build query s c0))
     = auto_increment c0 + 1.
Proof.
  destruct (build_registers query s c0) as [_ (H1 & H2 & _)].
  now rewrite H1, H2.
Qed.

Lemma build_wf (query : qtree_or_node) (s : string) (c0 : dbi_conn) :
  catalog_wf c0 -> catalog_wf (snd (tagsistant_RDS_build query s c0)).
Proof.
  intros [Hpos Hwf]. destruct (build_catalog query s c0) as [Hc Ha].
  unfold catalog_wf. rewrite Hc, Ha. split; [lia|].
  intros r Hr. apply in_app_or in Hr as [Hr | [<- | []]].
  - apply Hwf in Hr. lia.
  - cbn. lia.
Qed.

(** One turn of the loop without rebuild: the id returned is the one the
    catalog now holds for the subquery, and subqueries that had an id keep
    it. *)
Lemma fetch_or_build_keep_spec (query : qtree_or_node) (c : dbi_conn) :
  catalog_wf c ->
  let x := fetch_or_build query 0 c in
  catalog_wf (snd x)
  /\ fst x = lookup (tagsistant_RDS_build_subquery query) (snd x)
  /\ fst x <> 0
  /\ (forall s', lookup s' c <> 0 -> lookup s' (snd x) = lookup s' c).
Proof.
  intros Hwf. cbv zeta. rewrite fetch_or_build_keep. cbv zeta.
  set (s := tagsistant_RDS_build_subquery query).
  set (c0 := with_statement c (select_statement s)).
  assert (Hwf0 : catalog_wf c0) by exact Hwf.
  destruct (lookup s c =? 0) eqn:E.
  - apply Z.eqb_eq in E.
    destruct (build_registers query s c0) as [Hid _].
    destruct (build_catalog query s c0) as [Hc Ha].
    pose proof (lookup_zero s c Hwf E) as Hnil.
    split; [|split; [|split]].
    + now apply build_wf.
    + rewrite Hid. unfold lookup.
      rewrite (rds_ids_registered s s c0 _ Hc), String.eqb_refl.
      change (rds_ids_of_subquery s c0) with (rds_ids_of_subquery s c).
      rewrite Hnil. reflexivity.
    + rewrite Hid. destruct Hwf0. lia.
    + intros s' Hs'. unfold lookup.
      rewrite (rds_ids_registered s s' c0 _ Hc).
      destruct (String.eqb_spec s s') as [<- | _]; [now rewrite E in Hs'|].
      now rewrite app_nil_r.
  - apply Z.eqb_neq in E. cbn [fst snd]. split; [|split; [|split]]; auto.
Qed.

Lemma with_statements_cons (c : dbi_conn) (g : GString) (l : list GString) :
  with_statements (with_statement c g) l = with_statements c (g :: l).
Proof.
  unfold with_statements, with_statement. cbn.
  now rewrite <- app_assoc.
Qed.

Lemma with_statements_nil (c : dbi_conn) : with_statements c [] = c.
Proof. unfold with_statements. rewrite app_nil_r. now destruct c. Qed.

(** Without rebuild, the ids of a prepare are those the catalog holds for
    the subqueries when it returns, none of them 0. *)
Lemma prepare_ids_keep (query : qtree_or_node) (c : dbi_conn) :
  catalog_wf c ->
  let x := prepare_ids query 0 c in
  catalog_wf (snd x)
  /\ (forall s', lookup s' c <> 0 -> lookup s' (snd x) = lookup s' c)
  /\ fst x = map (fun s => lookup s (snd x)) (subqueries query)
  /\ Forall (fun s => lookup s (snd x) <> 0) (subqueries query).
Proof.
  revert c; induction query as [|a next IH]; intros c Hwf; cbv zeta.
  - cbn. auto.
  - rewrite prepare_ids_cons. cbn [fst snd].
    destruct (fetch_or_build_keep_spec (or_node a next) c Hwf)
      as (Hwf1 & Hid & Hnz & Hstab1).
    set (c1 := snd (fetch_or_build (or_node a next) 0 c)) in *.
    destruct (IH c1 Hwf1) as (Hwf2 & Hstab2 & Hids & Hall).
    set (c2 := snd (prepare_ids next 0 c1)) in *.
    assert (Hs : lookup (tagsistant_RDS_build_subquery (or_node a next)) c2
                 = fst (fetch_or_build (or_node a next) 0 c)).
    { rewrite Hstab2; [now rewrite Hid | now rewrite <- Hid]. }
    split; [assumption|]. split; [|split].
    + intros s' Hs'. rewrite Hstab2; rewrite Hstab1; auto.
    + change (subqueries (or_node a next))
        with (tagsistant_RDS_build_subquery (or_node a next) :: subqueries next).
      cbn [map]. now rewrite Hs, Hids.
    + change (subqueries (or_node a next))
        with (tagsistant_RDS_build_subquery (or_node a next) :: subqueries next).
      constructor; [now rewrite Hs | assumption].
Qed.

(** When the catalog holds an id for every subquery, a prepare without
    rebuild sends one select per conjunction and nothing else. *)
Lemma prepare_ids_hits (query : qtree_or_node) (c : dbi_conn) :
  Forall (fun s => lookup s c <> 0) (subqueries query) ->
  prepare_ids query 0 c
  = (map (fun s => lookup s c) (subqueries query),
     with_statements c (map select_statement (subqueries query))).
Proof.
  revert c; induction query as [|a next IH]; intros c Hall.
  - cbn. now rewrite with_statements_nil.
  - change (subqueries (or_node a next))
      with (tagsistant_RDS_build_subquery (or_node a next) :: subqueries next)
      in *.
    inversion Hall as [|s l Hs Hl]; subst.
    rewrite prepare_ids_cons, fetch_or_build_keep. cbv zeta.
    apply Z.eqb_neq in Hs. rewrite Hs. cbn [fst snd].
    rewrite (IH (with_statement c _)) by exact Hl.
    cbn [fst snd map]. now rewrite with_statements_cons.
Qed.

(** C2. After a prepare without rebuild, a second prepare of the same
    disjunction returns the same fingerprint, made of the same ids; it sends
    one select per conjunction and nothing else, so that no row is inserted
    into RDS_catalog and both tables are left as they were. *)
Theorem prepare_cache_hit (query : qtree_or_node) (c : dbi_conn) :
  catalog_wf c ->
  let first := tagsistant_RDS_prepare query 0 0 c in
  let second := tagsistant_RDS_prepare query 0 0 (snd first) in
  fst second = fst first
  /\ fst (prepare_ids query 0 (snd first)) = fst (prepare_ids query 0 c)
  /\ RDS_catalog (snd second) = RDS_catalog (snd first)
  /\ RDS (snd second) = RDS (snd first)
  /\ statements (snd second)
     = statements (snd first) ++ map select_statement (subqueries query).
Proof.
  intros Hwf.
  destruct query as [|a next].
  - cbn. rewrite app_nil_r. auto.
  - cbv zeta. rewrite (prepare_fingerprint a next 0 c). cbn [fst snd].
    rewrite prepare_fingerprint. cbn [fst snd].
    destruct (prepare_ids_keep (or_node a next) c Hwf) as (_ & _ & Hids & Hall).
    rewrite (prepare_ids_hits _ _ Hall). cbn [fst snd].
    rewrite <- Hids. auto.
Qed.

Lemma prepare_cache_hit_witness :
  catalog_wf S1_conn
  /\ fst (tagsistant_RDS_prepare red_or_big 0 0
            (snd (tagsistant_RDS_prepare red_or_big 0 0 S1_conn)))
     = Some "1, 2"%string.
Proof.
  assert (Hwf : catalog_wf S1_conn).
  { split; [reflexivity | intros r []]. }
  split; [exact Hwf|].
  rewrite (proj1 (prepare_cache_hit red_or_big S1_conn Hwf)).
  reflexivity.
Defined.

(** ** The fingerprint *)

Lemma prepare_all_path (query : qtree_or_node)
  (is_all_path rebuild_expired_RDS : Z) (c : dbi_conn) :
  is_all_path <> 0 ->
  tagsistant_RDS_prepare query is_all_path rebuild_expired_RDS c = (None, c).
Proof.
  intros H. apply Z.eqb_neq in H.
  unfold tagsistant_RDS_prepare. now rewrite H.
Qed.

(** C8. On the ALL path prepare returns no fingerprint, whatever the query
    tree and [rebuild_expired_RDS] are, and leaves the connection as it was:
    no statement is sent, and the tables are unchanged. *)
Theorem prepare_all_path_bypass (query : qtree_or_node)
  (is_all_path rebuild_expired_RDS : Z) (c : dbi_conn) :
  is_all_path <> 0 ->
  let x := tagsistant_RDS_prepare query is_all_path rebuild_expired_RDS c in
  fst x = None
  /\ statements (snd x) = statements c
  /\ RDS (snd x) = RDS c
  /\ RDS_catalog (snd x) = RDS_catalog c
  /\ snd x = c.
Proof.
  intros H. cbv zeta. rewrite prepare_all_path by assumption. cbn. auto.
Qed.

Lemma prepare_all_path_bypass_witness :
  1 <> 0
  /\ fst (tagsistant_RDS_prepare red_or_big 1 1 S1_conn) = None
  /\ statements (snd (tagsistant_RDS_prepare red_or_big 1 1 S1_conn)) = [].
Proof.
  assert (H : 1 <> 0) by discriminate.
  split; [exact H|].
  split; [apply (prepare_all_path_bypass red_or_big 1 1 S1_conn H)|].
  apply (proj1 (proj2 (prepare_all_path_bypass red_or_big 1 1 S1_conn H))).
Defined.

(** C6 fails: the ids are joined by a comma followed by a blank, which the
    grammar [id ("," id)*] does not allow. *)
Lemma fingerprint_has_blanks :
  fst (tagsistant_RDS_prepare red_or_big 0 0 S1_conn) = Some "1, 2"%string
  /\ fingerprint_grammar "1, 2" = false
  /\ fingerprint_grammar "1,2" = true.
Proof. repeat split; reflexivity. Qed.

Lemma prepare_ids_length (query : qtree_or_node) (r : Z) (c : dbi_conn) :
  List.length (fst (prepare_ids query r c)) = List.length (or_chain query).
Proof.
  revert c; induction query as [|a next IH]; intros c; [reflexivity|].
  rewrite prepare_ids_cons. cbn [fst List.length or_chain]. now rewrite IH.
Qed.

Lemma split_commas_app (x rest cur : string) :
  avoids "," x = true ->
  split_commas cur (x ++ rest) = split_commas (cur ++ x) rest.
Proof.
  revert cur; induction x as [|c x IH]; intros cur H; simpl in *.
  - now rewrite append_nil_r.
  - apply andb_prop in H as [Hc Hx]. apply negb_true_iff in Hc.
    rewrite Hc, IH by assumption. now rewrite append_assoc.
Qed.

Lemma split_ids_pieces (ids : list Z) (cur : string) :
  split_commas cur (g_string_str (ids_pieces ids))
  = cur :: map (fun i => (" " ++ printf_d i)%string) ids.
Proof.
  revert cur; induction ids as [|i ids IH]; intros cur; [reflexivity|].
  change (g_string_str (ids_pieces (i :: ids)))
    with (String "," (String " " (printf_d i ++ g_string_str (ids_pieces ids)))).
  cbn [split_commas]. change (Ascii.eqb "," ",") with true.
  change (Ascii.eqb " " ",") with false. cbv iota.
  rewrite split_commas_app by apply printf_d_avoids_comma.
  rewrite IH. reflexivity.
Qed.

Lemma parse_blank_integers (ids : list Z) :
  parse_integers (map (fun i => (" " ++ printf_d i)%string) ids) = Some ids.
Proof.
  induction ids as [|i ids IH]; [reflexivity|].
  cbn [map parse_integers]. rewrite IH.
  change (parse_integer (" " ++ printf_d i)) with (parse_integer (printf_d i)).
  now rewrite parse_integer_printf_d.
Qed.

(** The list of an [in (...)] written with a fingerprint is the list of
    its ids. *)
Lemma parse_fingerprint (id : Z) (ids : list Z) :
  parse_in_list (fingerprint_of (id :: ids)) = Some (id :: ids).
Proof.
  unfold parse_in_list, fingerprint_of.
  change (map printf_d (id :: ids)) with (printf_d id :: map printf_d ids).
  rewrite concat_ids_pieces.
  rewrite split_commas_app by apply printf_d_avoids_comma.
  rewrite split_ids_pieces. cbn [parse_integers append].
  now rewrite parse_integer_printf_d, parse_blank_integers.
Qed.

(** C6, amended.  On a disjunction that is not empty, and not on the ALL
    path, prepare returns the base-10 integers of one rds_id per
    conjunction, in link order, joined by a comma followed by one blank. *)
Theorem fingerprint_format (a : qtree_and_node) (next : qtree_or_node)
  (rebuild_expired_RDS : Z) (c : dbi_conn) :
  let query := or_node a next in
  let ids := fst (prepare_ids query rebuild_expired_RDS c) in
  fst (tagsistant_RDS_prepare query 0 rebuild_expired_RDS c)
  = Some (String.concat ", " (map printf_d ids))
  /\ List.length ids = List.length (or_chain query)
  /\ (forall id, parse_integer (printf_d id) = Some id)
  /\ parse_in_list (String.concat ", " (map printf_d ids)) = Some ids.
Proof.
  cbv zeta. rewrite prepare_fingerprint. cbn [fst].
  split; [reflexivity|]. split; [apply prepare_ids_length|].
  split; [apply parse_integer_printf_d|].
  rewrite prepare_ids_cons. cbn [fst]. apply parse_fingerprint.
Qed.

(** ** The life of a catalog entry *)

Lemma catalog_step_refl (c : dbi_conn) : catalog_step c c.
Proof.
  split; [lia|]. intros r' Hr'. left. exists r'. auto.
Qed.

Lemma catalog_grows_refl (c : dbi_conn) : catalog_grows c c.
Proof. split; [lia | auto]. Qed.

Lemma catalog_grows_trans (c1 c2 c3 : dbi_conn) :
  catalog_grows c1 c2 -> catalog_grows c2 c3 -> catalog_grows c1 c3.
Proof.
  intros [A1 A2] [B1 B2]. split; [lia|].
  intros r H3. destruct (B2 r H3) as [H2 | [Hn He]].
  - apply A2, H2.
  - right. split; [lia | assumption].
Qed.

Lemma catalog_grows_same (c c' : dbi_conn) :
  RDS_catalog c' = RDS_catalog c -> auto_increment c' = auto_increment c ->
  catalog_grows c c'.
Proof. intros Hc Ha. split; [lia|]. rewrite Hc. auto. Qed.

Lemma build_grows (query : qtree_or_node) (s : string) (c0 : dbi_conn) :
  catalog_grows c0 (snd (tagsistant_RDS_build query s c0)).
Proof.
  destruct (build_catalog query s c0) as [Hc Ha].
  split; [lia|]. rewrite Hc.
  intros r Hr. apply in_app_or in Hr as [Hr | [<- | []]]; [now left | right].
  cbn. lia.
Qed.

Lemma purged_grows (s : string) (c : dbi_conn) : catalog_grows c (purged s c).
Proof.
  split; [reflexivity|]. intros r Hr. left. eapply In_filter_In, Hr.
Qed.

Lemma fetch_or_build_grows (query : qtree_or_node) (r : Z) (c : dbi_conn) :
  catalog_grows c (snd (fetch_or_build query r c)).
Proof.
  destruct (Z.eq_dec r 0) as [-> | Hr].
  - rewrite fetch_or_build_keep. cbv zeta.
    destruct (lookup _ c =? 0).
    + eapply catalog_grows_trans; [|apply build_grows].
      now apply catalog_grows_same.
    + now apply catalog_grows_same.
  - rewrite fetch_or_build_rebuild by assumption. cbv zeta.
    eapply catalog_grows_trans; [apply purged_grows | apply build_grows].
Qed.

Lemma prepare_ids_grows (query : qtree_or_node) (r : Z) (c : dbi_conn) :
  catalog_grows c (snd (prepare_ids query r c)).
Proof.
  revert c; induction query as [|a next IH]; intros c.
  - apply catalog_grows_refl.
  - rewrite prepare_ids_cons. cbn [snd].
    eapply catalog_grows_trans; [apply fetch_or_build_grows | apply IH].
Qed.

Lemma prepare_grows (query : qtree_or_node) (is_all_path r : Z) (c : dbi_conn) :
  catalog_grows c (snd (tagsistant_RDS_prepare query is_all_path r c)).
Proof.
  destruct (Z.eq_dec is_all_path 0) as [-> | Hall].
  - destruct query as [|a next]; [apply catalog_grows_refl|].
    rewrite prepare_fingerprint. apply prepare_ids_grows.
  - rewrite prepare_all_path by assumption. apply catalog_grows_refl.
Qed.

(** Without rebuild no catalog entry is deleted. *)
Lemma fetch_or_build_keeps_rows (query : qtree_or_node) (c : dbi_conn) :
  incl (RDS_catalog c) (RDS_catalog (snd (fetch_or_build query 0 c))).
Proof.
  rewrite fetch_or_build_keep. cbv zeta.
  destruct (lookup _ c =? 0); [|apply incl_refl].
  match goal with
  | |- context [tagsistant_RDS_build ?q ?s ?c0] =>
      destruct (build_catalog q s c0) as [Hc _]; rewrite Hc
  end.
  apply incl_appl, incl_refl.
Qed.

Lemma prepare_ids_keeps_rows (query : qtree_or_node) (c : dbi_conn) :
  incl (RDS_catalog c) (RDS_catalog (snd (prepare_ids query 0 c))).
Proof.
  revert c; induction query as [|a next IH]; intros c.
  - apply incl_refl.
  - rewrite prepare_ids_cons. cbn [snd].
    eapply incl_tran; [apply fetch_or_build_keeps_rows | apply IH].
Qed.

Lemma prepare_keeps_rows (query : qtree_or_node) (is_all_path : Z)
  (c : dbi_conn) :
  incl (RDS_catalog c)
    (RDS_catalog (snd (tagsistant_RDS_prepare query is_all_path 0 c))).
Proof.
  destruct (Z.eq_dec is_all_path 0) as [-> | Hall].
  - destruct query as [|a next]; [apply incl_refl|].
    rewrite prepare_fingerprint. apply prepare_ids_keeps_rows.
  - rewrite prepare_all_path by assumption. apply incl_refl.
Qed.

(** What [tagsistant_RDS_invalidate] does to the connection. *)
Lemma invalidate_effect (qtree : tagsistant_querytree) (c : dbi_conn) :
  let c' := snd (tagsistant_RDS_invalidate qtree c) in
  statements c' = statements c ++ [update_statement (RDS_fingerprint qtree)]
  /\ RDS c' = RDS c
  /\ auto_increment c' = auto_increment c
  /\ RDS_catalog c'
     = match parse_in_list (printf_s (RDS_fingerprint qtree)) with
       | Some ids => map (mark_expired ids) (RDS_catalog c)
       | None => RDS_catalog c
       end.
Proof.
  unfold tagsistant_RDS_invalidate, tagsistant_query, tagsistant_real_query.
  change (sprintf "update RDS_catalog set expired = 1 where rds_id in (%s)"
            [arg_s (RDS_fingerprint qtree)])
    with (update_statement (RDS_fingerprint qtree)).
  change (sql_parse (update_statement (RDS_fingerprint qtree)))
    with (option_map update_expired
            (parse_in_list (printf_s (RDS_fingerprint qtree)))).
  destruct (parse_in_list _) as [ids|]; cbn; auto.
Qed.

Lemma mark_expired_fields (ids : list Z) (r : RDS_catalog_row) :
  cat_rds_id (mark_expired ids r) = cat_rds_id r
  /\ cat_subquery (mark_expired ids r) = cat_subquery r
  /\ (mark_expired ids r = r
      \/ (mem (cat_rds_id r) ids = true /\ cat_expired (mark_expired ids r) = 1)).
Proof.
  unfold mark_expired. destruct (mem _ ids); cbn; auto.
Qed.

Lemma invalidate_step (qtree : tagsistant_querytree) (c : dbi_conn) :
  catalog_step c (snd (tagsistant_RDS_invalidate qtree c)).
Proof.
  destruct (invalidate_effect qtree c) as (_ & _ & Ha & Hc).
  split; [lia|]. rewrite Hc.
  intros r' Hr'. left.
  destruct (parse_in_list _) as [ids|].
  - apply in_map_iff in Hr' as (r & <- & Hr). exists r.
    destruct (mark_expired_fields ids r) as (H1 & H2 & [H3 | [_ H3]]).
    + rewrite H3. auto.
    + auto.
  - exists r'. auto.
Qed.

Lemma grows_step (c c' : dbi_conn) : catalog_grows c c' -> catalog_step c c'.
Proof.
  intros [Ha H]. split; [assumption|].
  intros r' Hr'. destruct (H r' Hr') as [Hin | Hnew]; [left | now right].
  exists r'. auto.
Qed.

Lemma run_operation_step (o : operation) (c : dbi_conn) :
  catalog_step c (run_operation c o).
Proof.
  destruct o as [query is_all_path r | qtree]; cbn [run_operation].
  - apply grows_step, prepare_grows.
  - apply invalidate_step.
Qed.

Lemma catalog_step_expired (c c' : dbi_conn) (i : Z) :
  catalog_step c c' -> i < auto_increment c -> expired_in c i ->
  i < auto_increment c' /\ expired_in c' i.
Proof.
  intros [Ha H] Hi He. split; [lia|].
  intros r' Hr' Hid.
  destruct (H r' Hr') as [(r & Hr & Hid' & _ & [Hflag | Hflag]) | [Hnew _]].
  - rewrite Hflag. apply He; [assumption | congruence].
  - assumption.
  - lia.
Qed.

Lemma run_expired (ops : list operation) (c : dbi_conn) (i : Z) :
  i < auto_increment c -> expired_in c i ->
  i < auto_increment (run ops c) /\ expired_in (run ops c) i.
Proof.
  revert c; induction ops as [|o ops IH]; intros c Hi He; [now split|].
  cbn [run fold_left].
  destruct (catalog_step_expired c (run_operation c o) i
              (run_operation_step o c) Hi He) as [Hi' He'].
  now apply IH.
Qed.

(** C7.  [tagsistant_RDS_invalidate] sends one statement, the update that
    sets expired to 1 on the entries whose rds_id is in the fingerprint: the
    RDS table is unchanged, and the catalog keeps its rows, each as it was
    or marked expired.  Across any sequence of prepare and invalidate, an
    entry marked expired is never seen again with another flag: entries of
    its id stay marked, until a rebuild deletes them, and new entries get
    ids that were not given yet.  Without rebuild, prepare deletes no
    catalog entry. *)
Theorem invalidation_monotone :
  (forall qtree c,
     let c' := snd (tagsistant_RDS_invalidate qtree c) in
     statements c' = statements c ++ [update_statement (RDS_fingerprint qtree)]
     /\ RDS c' = RDS c
     /\ RDS_catalog c'
        = match parse_in_list (printf_s (RDS_fingerprint qtree)) with
          | Some ids => map (mark_expired ids) (RDS_catalog c)
          | None => RDS_catalog c
          end
     /\ map cat_rds_id (RDS_catalog c') = map cat_rds_id (RDS_catalog c)
     /\ map cat_subquery (RDS_catalog c') = map cat_subquery (RDS_catalog c))
  /\ (forall ino path id ids c,
        RDS_catalog
          (snd (tagsistant_RDS_invalidate
                  (mk_querytree ino path (Some (fingerprint_of (id :: ids)))) c))
        = map (mark_expired (id :: ids)) (RDS_catalog c))
  /\ (forall o c, catalog_step c (run_operation c o))
  /\ (forall ops c i,
        i < auto_increment c -> expired_in c i -> expired_in (run ops c) i)
  /\ (forall query is_all_path c,
        incl (RDS_catalog c)
          (RDS_catalog (snd (tagsistant_RDS_prepare query is_all_path 0 c)))).
Proof.
  split; [|split; [|split; [|split]]].
  - intros qtree c. cbv zeta.
    destruct (invalidate_effect qtree c) as (Hs & Hr & _ & Hc).
    split; [assumption|]. split; [assumption|]. split; [assumption|].
    rewrite Hc. destruct (parse_in_list _) as [ids|]; [|auto].
    rewrite !map_map. split; apply map_ext; intros r;
      now destruct (mark_expired_fields ids r) as (H1 & H2 & _).
  - intros ino path id ids c.
    destruct (invalidate_effect
                (mk_querytree ino path (Some (fingerprint_of (id :: ids)))) c)
      as (_ & _ & _ & Hc).
    rewrite Hc. cbn [RDS_fingerprint printf_s].
    now rewrite parse_fingerprint.
  - intros o c. apply run_operation_step.
  - intros ops c i Hi He. now apply run_expired.
  - intros query is_all_path c. apply prepare_keeps_rows.
Qed.

Lemma invalidation_monotone_witness :
  1 < auto_increment expired_conn
  /\ expired_in expired_conn 1
  /\ expired_in
       (run [op_prepare red 0 0;
             op_invalidate (mk_querytree 0 None (Some "1")%string);
             op_prepare red_or_big 0 1] expired_conn) 1.
Proof.
  assert (H : expired_in expired_conn 1).
  { intros r [<- | []] _. reflexivity. }
  split; [reflexivity|]. split; [exact H|].
  apply (proj1 (proj2 (proj2 (proj2 invalidation_monotone))));
    [reflexivity | exact H].
Defined.

(** ** The entries a fingerprint names *)

(** C5 fails: without rebuild, prepare returns the id of an entry that is
    marked expired, and leaves it marked. *)
Lemma prepare_returns_expired_entry :
  fst (tagsistant_RDS_prepare red 0 0 expired_conn) = Some "1"%string
  /\ RDS_catalog (snd (tagsistant_RDS_prepare red 0 0 expired_conn))
     = [mk_catalog_row 1 "red/" 1]
  /\ ~ (exists r,
          In r (RDS_catalog (snd (tagsistant_RDS_prepare red 0 0 expired_conn)))
          /\ cat_rds_id r = 1 /\ cat_expired r = 0).
Proof.
  split; [reflexivity|]. split; [reflexivity|].
  intros (r & [<- | []] & _ & H). discriminate.
Qed.

Lemma Forall2_In_r {A B : Type} (R : A -> B -> Prop) (l1 : list A)
  (l2 : list B) (y : B) :
  Forall2 R l1 l2 -> In y l2 -> exists x, In x l1 /\ R x y.
Proof.
  induction 1 as [|x y' l1 l2 HR _ IH]; intros Hy; [contradiction|].
  destruct Hy as [<- | Hy].
  - exists x. split; [now left | assumption].
  - destruct (IH Hy) as (x' & Hx' & HR'). exists x'. split; [now right | assumption].
Qed.

(** One turn of the loop with rebuild: the entries of the subquery are
    replaced by a new one, not expired, whose id is returned. *)
Lemma fetch_or_build_rebuild_catalog (query : qtree_or_node) (r : Z)
  (c : dbi_conn) :
  r <> 0 ->
  let s := tagsistant_RDS_build_subquery query in
  let x := fetch_or_build query r c in
  fst x = auto_increment c
  /\ RDS_catalog (snd x)
     = filter (fun row => negb (cat_subquery row =? s)%string) (RDS_catalog c)
       ++ [mk_catalog_row (auto_increment c) s 0]
  /\ auto_increment (snd x) = auto_increment c + 1.
Proof.
  intros Hr. cbv zeta. rewrite fetch_or_build_rebuild by assumption. cbv zeta.
  set (s := tagsistant_RDS_build_subquery query).
  destruct (build_registers query s (purged s c)) as [Hid _].
  destruct (build_catalog query s (purged s c)) as [Hc Ha].
  rewrite Hid, Hc, Ha. auto.
Qed.

Lemma prepare_ids_rebuild_rows (query : qtree_or_node) (r : Z) (c : dbi_conn) :
  r <> 0 -> NoDup (subqueries query) ->
  let x := prepare_ids query r c in
  Forall2 (fun s id => In (mk_catalog_row id s 0) (RDS_catalog (snd x)))
    (subqueries query) (fst x)
  /\ (forall row, In row (RDS_catalog c) ->
        ~ In (cat_subquery row) (subqueries query) ->
        In row (RDS_catalog (snd x))).
Proof.
  intros Hr. revert c; induction query as [|a next IH]; intros c Hnd; cbv zeta.
  - cbn. split; [constructor | auto].
  - change (subqueries (or_node a next))
      with (tagsistant_RDS_build_subquery (or_node a next) :: subqueries next)
      in *.
    set (s := tagsistant_RDS_build_subquery (or_node a next)) in *.
    inversion Hnd as [|s' l Hnotin Hnd']; subst.
    rewrite prepare_ids_cons. cbn [fst snd].
    destruct (fetch_or_build_rebuild_catalog (or_node a next) r c Hr)
      as (Hid & Hc & _).
    fold s in Hc.
    set (c1 := snd (fetch_or_build (or_node a next) r c)) in *.
    destruct (IH c1 Hnd') as [Hall Hkeep].
    split.
    + constructor; [|assumption].
      apply Hkeep; [|assumption].
      rewrite Hc, Hid. apply in_or_app. right. now left.
    + intros row Hrow Hnot. apply Hkeep.
      * rewrite Hc. apply in_or_app. left. apply filter_In. split; [assumption|].
        apply negb_true_iff, String.eqb_neq. intros E. apply Hnot. now left.
      * intros E. apply Hnot. now right.
Qed.

(** With rebuild, a disjunction that holds the same subquery twice gets a
    fingerprint whose first id names no entry any more: the second turn of
    the loop deletes what the first one built. *)
Lemma rebuild_same_subquery_twice :
  fst (tagsistant_RDS_prepare red_or_red 0 1 S1_conn) = Some "1, 2"%string
  /\ RDS_catalog (snd (tagsistant_RDS_prepare red_or_red 0 1 S1_conn))
     = [mk_catalog_row 2 "red/" 0].
Proof. split; reflexivity. Qed.

(** C5, amended.  With rebuild, and when the conjunctions have pairwise
    distinct subqueries, every rds_id of the fingerprint names a catalog
    entry whose expired flag is 0 when prepare returns.  Without rebuild,
    every rds_id of the fingerprint names a catalog entry that is either an
    entry the catalog had before, with the flag it had, or a new entry whose
    expired flag is 0. *)
Theorem fingerprint_entries (a : qtree_and_node) (next : qtree_or_node)
  (rebuild_expired_RDS : Z) (c : dbi_conn) :
  catalog_wf c ->
  let query := or_node a next in
  let x := tagsistant_RDS_prepare query 0 rebuild_expired_RDS c in
  let ids := fst (prepare_ids query rebuild_expired_RDS c) in
  fst x = Some (fingerprint_of ids)
  /\ (rebuild_expired_RDS <> 0 -> NoDup (subqueries query) ->
      forall id, In id ids ->
        exists r, In r (RDS_catalog (snd x))
                  /\ cat_rds_id r = id /\ cat_expired r = 0)
  /\ (rebuild_expired_RDS = 0 ->
      forall id, In id ids ->
        exists r, In r (RDS_catalog (snd x)) /\ cat_rds_id r = id
                  /\ (In r (RDS_catalog c) \/ cat_expired r = 0)).
Proof.
  intros Hwf. cbv zeta. rewrite prepare_fingerprint. cbn [fst snd].
  split; [reflexivity|]. split.
  - intros Hr Hnd id Hid.
    destruct (prepare_ids_rebuild_rows (or_node a next) _ c Hr Hnd) as [Hall _].
    destruct (Forall2_In_r _ _ _ id Hall Hid) as (s & _ & Hrow).
    exists (mk_catalog_row id s 0). auto.
  - intros ->. intros id Hid.
    destruct (prepare_ids_keep (or_node a next) c Hwf) as (_ & _ & Hids & Hall).
    rewrite Hids in Hid. apply in_map_iff in Hid as (s & <- & Hs).
    rewrite Forall_forall in Hall.
    destruct (lookup_In s _ (Hall s Hs)) as (row & Hrow & _ & Hrid).
    exists row. split; [assumption|]. split; [assumption|].
    destruct (prepare_ids_grows (or_node a next) 0 c) as [_ Hg].
    destruct (Hg row Hrow) as [Hold | [_ Hnew]]; auto.
Qed.

Lemma fingerprint_entries_witness :
  catalog_wf expired_conn
  /\ exists r,
       In r (RDS_catalog (snd (tagsistant_RDS_prepare red_or_big 0 1 expired_conn)))
       /\ cat_rds_id r = 2 /\ cat_expired r = 0.
Proof.
  assert (Hwf : catalog_wf expired_conn).
  { split; [reflexivity|]. intros r [<- | []]. cbn. lia. }
  split; [exact Hwf|].
  unfold red_or_big.
  refine (proj1 (proj2 (fingerprint_entries (leaf (named "red"))
                         (or_node (leaf (named "big")) or_NULL) 1
                         expired_conn Hwf)) _ _ 2 _).
  - discriminate.
  - constructor; [intros [H | []]; discriminate|].
    constructor; [intros []|]. constructor.
  - vm_compute. left. reflexivity.
Defined.

(** ** Rebuild *)

Lemma mem_In (z : Z) (l : list Z) : mem z l = true <-> In z l.
Proof.
  unfold mem. rewrite existsb_exists. split.
  - intros (x & Hx & E). apply Z.eqb_eq in E. now subst.
  - intros H. exists z. split; [assumption | apply Z.eqb_refl].
Qed.






Lemma plain_query_cons (a : qtree_and_node) (next : qtree_or_node) :
  plain_query (or_node a next) -> plain_conjunction a /\ plain_query next.
Proof.
  intros H. split.
  - apply (H (or_node a next)). now left.
  - intros q Hq. apply H. now right.
Qed.



Lemma purged_wf (s : string) (c : dbi_conn) :
  catalog_wf c -> catalog_wf (purged s c).
Proof.
  intros [Hpos Hwf]. split; [exact Hpos|].
  intros r Hr. cbn in Hr. apply In_filter_In in Hr. now apply Hwf.
Qed.

Lemma fetch_or_build_wf (query : qtree_or_node) (r : Z) (c : dbi_conn) :
  catalog_wf c -> catalog_wf (snd (fetch_or_build query r c)).
Proof.
  intros Hwf. destruct (Z.eq_dec r 0) as [-> | Hr].
  - now apply fetch_or_build_keep_spec.
  - rewrite fetch_or_build_rebuild by assumption. cbv zeta.
    now apply build_wf, purged_wf.
Qed.

Lemma prepare_ids_wf (query : qtree_or_node) (r : Z) (c : dbi_conn) :
  catalog_wf c -> catalog_wf (snd (prepare_ids query r c)).
Proof.
  revert c; induction query as [|a next IH]; intros c H; [exact H|].
  rewrite prepare_ids_cons. cbn [snd]. now apply IH, fetch_or_build_wf.
Qed.









(** ** Negation *)

Lemma predicates_of_In (atoms : list and_fields) (f : and_fields)
  (p : predicate) :
  In f atoms -> predicate_of f = Some p -> In p (predicates_of atoms).
Proof.
  induction atoms as [|g atoms IH]; intros Hin Hp; [contradiction|].
  cbn [predicates_of]. destruct Hin as [-> | Hin].
  - rewrite Hp. now left.
  - destruct (predicate_of g); [right|]; now apply IH.
Qed.

Lemma tagged_by_selected (c : dbi_conn) (atoms : list and_fields) (i : Z) :
  tagged_by c atoms i ->
  mem i (selected_inodes (predicates_of atoms) c) = true.
Proof.
  intros (j & f & p & Hj & Hi & Hf & Hp & Hholds).
  apply mem_In. unfold selected_inodes, selected.
  apply in_map_iff. exists j. split; [assumption|].
  apply filter_In. split; [assumption|].
  unfold where_holds. apply existsb_exists. exists p.
  split; [|assumption]. now apply (predicates_of_In atoms f).
Qed.




(** C10 is broken by the code: the canonicalizer steps through a negated
    chain by [->next], the builder by [->negated].  For red, not big, not
    round the key names big only, while the build subtracts big and round;
    the key is that of red, not big, so that this query is then answered
    from rows that miss inode 3. *)
Theorem negated_chain_mismatch :
  tagsistant_RDS_build_subquery red_not_big_not_round = "red/-/big/"%string
  /\ tagsistant_RDS_build_subquery red_not_big = "red/-/big/"%string
  /\ canonical_negated (and_set red_not_big_not_round) = [named "big"]
  /\ subtracted (and_set red_not_big_not_round)
     = [[named "big"]; [named "round"]]
  /\ tagsistant_RDS_prepare red_not_big_not_round 0 0 shapes_conn
     = (Some "1"%string,
        snd (tagsistant_RDS_prepare red_not_big_not_round 0 0 shapes_conn))
  /\ RDS (snd (tagsistant_RDS_prepare red_not_big_not_round 0 0 shapes_conn))
     = [mk_RDS_row 1 1 "one"]
  /\ fst (tagsistant_RDS_prepare red_not_big 0 0
            (snd (tagsistant_RDS_prepare red_not_big_not_round 0 0 shapes_conn)))
     = Some "1"%string
  /\ RDS (snd (tagsistant_RDS_prepare red_not_big 0 0 shapes_conn))
     = [mk_RDS_row 1 1 "one"; mk_RDS_row 1 3 "three"].
Proof. repeat split; vm_compute; reflexivity. Qed.

(** ** The scenarios of the spec *)

(** S1: red and big leaves inode 2 only. *)
Example scenario_S1 :
  RDS (snd (tagsistant_RDS_prepare red_and_big 0 0 S1_conn))
  = [mk_RDS_row 1 2 "two"].
Proof. reflexivity. Qed.

(** S2: red or big gives a fingerprint of two ids, and the rows of both. *)
Example scenario_S2 :
  fst (tagsistant_RDS_prepare red_or_big 0 0 S1_conn) = Some "1, 2"%string
  /\ map inode (RDS (snd (tagsistant_RDS_prepare red_or_big 0 0 S1_conn)))
     = [1; 2; 2; 3].
Proof. split; reflexivity. Qed.

(** S3: red and not big leaves inode 1 only. *)
Example scenario_S3 :
  RDS (snd (tagsistant_RDS_prepare red_not_big 0 0 S1_conn))
  = [mk_RDS_row 1 1 "one"].
Proof. reflexivity. Qed.

(** S4: the subquery of a triple. *)
Example scenario_S4 :
  tagsistant_RDS_build_subquery
    (or_node (leaf (triple "author" "name" TAGSISTANT_EQUAL_TO "Tx0")) or_NULL)
  = "author/name/eq/Tx0/"%string.
Proof. reflexivity. Qed.

(** S5: after an invalidate, a prepare with rebuild gives two new ids, and
    the catalog holds no row of the old ones. *)
Example scenario_S5 :
  let first := tagsistant_RDS_prepare red_or_big 0 0 S1_conn in
  let c2 :=
    snd (tagsistant_RDS_invalidate (mk_querytree 0 None (fst first))
           (snd first)) in
  let second := tagsistant_RDS_prepare red_or_big 0 1 c2 in
  fst first = Some "1, 2"%string
  /\ map cat_expired (RDS_catalog c2) = [1; 1]
  /\ fst second = Some "3, 4"%string
  /\ RDS_catalog (snd second)
     = [mk_catalog_row 3 "red/" 0; mk_catalog_row 4 "big/" 0].
Proof. repeat split; reflexivity. Qed.

(** * More of rds.c *)

(** ** What a build materializes *)

Lemma predicates_of_In_inv (atoms : list and_fields) (p : predicate) :
  In p (predicates_of atoms) ->
  exists f, In f atoms /\ predicate_of f = Some p.
Proof.
  induction atoms as [|g atoms IH]; intros Hin; [contradiction|].
  cbn [predicates_of] in Hin.
  destruct (predicate_of g) as [q|] eqn:E.
  - destruct Hin as [<- | Hin].
    + exists g. split; [now left | assumption].
    + destruct (IH Hin) as (f & Hf & Hp). exists f. split; [now right | assumption].
  - destruct (IH Hin) as (f & Hf & Hp). exists f. split; [now right | assumption].
Qed.

Lemma where_holds_tagged (c : dbi_conn) (atoms : list and_fields)
  (o : objects_row) (t : tags_row) :
  In (o, t) (joined c) ->
  where_holds (predicates_of atoms) (o, t) = true ->
  object_tagged_by c atoms o.
Proof.
  intros Hj H. unfold where_holds in H. apply existsb_exists in H as (p & Hp & Hh).
  destruct (predicates_of_In_inv atoms p Hp) as (f & Hf & Hpf).
  exists t, f, p. auto.
Qed.

Lemma tagged_where_holds (c : dbi_conn) (atoms : list and_fields)
  (o : objects_row) :
  object_tagged_by c atoms o ->
  exists t, In (o, t) (joined c)
            /\ where_holds (predicates_of atoms) (o, t) = true.
Proof.
  intros (t & f & p & Hj & Hf & Hp & Hh). exists t. split; [assumption|].
  unfold where_holds. apply existsb_exists. exists p.
  split; [now apply (predicates_of_In atoms f) | assumption].
Qed.

Lemma selects_tagged (c : dbi_conn) (atoms : list and_fields) (i : Z) :
  selects c atoms i = true <-> tagged_by c atoms i.
Proof.
  split; [|apply tagged_by_selected].
  unfold selects. intros H. apply mem_In in H.
  unfold selected_inodes, selected in H.
  apply in_map_iff in H as ([o t] & Hi & Hin).
  apply filter_In in Hin as [Hj Hh].
  destruct (where_holds_tagged c atoms o t Hj Hh) as (t' & f & p & A & B & C & D).
  exists (o, t'), f, p. cbn in *. auto.
Qed.

Lemma In_seed (id id' i : Z) (name : string) (cl : list and_fields)
  (c : dbi_conn) :
  In (mk_RDS_row id' i name) (seed id cl c)
  <-> id' = id /\ object_tagged_by c cl (mk_objects_row i name).
Proof.
  unfold seed. rewrite in_map_iff. split.
  - intros ([o t] & E & Hin). cbn in E. injection E as <- <- <-.
    unfold selected in Hin. apply filter_In in Hin as [Hj Hh].
    split; [reflexivity|]. destruct o as [i name].
    now apply (where_holds_tagged c cl _ t).
  - intros [-> H]. destruct (tagged_where_holds c cl _ H) as (t & Hj & Hh).
    exists (mk_objects_row i name, t). split; [reflexivity|].
    unfold selected. apply filter_In. auto.
Qed.

(** X1.  What a build materializes.  For a conjunction with a head whose
    clauses are made of plain atoms (by id, by name, or a triple with eq, gt
    or lt; no quote, per cent sign or backslash in their strings; a tag id
    that [%d] prints as it is), built under an id in the range of [int] that
    no row of the RDS table carries yet: a row (id, inode, name) is in the
    RDS table after the build exactly when the object (inode, name) is
    tagged by the head or one of its related atoms, the inode is tagged by
    every further atom of the next-chain (or one of its related atoms), and
    by no negated atom of the ->negated chains (nor one of their related
    atoms). *)
Theorem build_materializes_conjunction (query : qtree_or_node)
  (subquery : string) (c : dbi_conn)
  (f : and_fields) (next related negated : qtree_and_node) :
  and_set query = and_node f next related negated ->
  all_plain (clause f related
             :: next_clauses next ++ subtracted (and_set query)) ->
  fits_int (auto_increment c) ->
  (forall r, In r (RDS c) -> rds_id r <> auto_increment c) ->
  let x := tagsistant_RDS_build query subquery c in
  forall i name,
    In (mk_RDS_row (fst x) i name) (RDS (snd x))
    <-> object_tagged_by c (clause f related) (mk_objects_row i name)
        /\ (forall cl, In cl (next_clauses next) -> tagged_by c cl i)
        /\ (forall cl, In cl (subtracted (and_set query)) ->
                       ~ tagged_by c cl i).
Proof.
  intros Hset Hall _ Hfresh. cbv zeta. intros i name.
  destruct (build_registers query subquery c) as [Hfst _]. rewrite Hfst.
  rewrite (build_rows query subquery c f next related negated Hset Hall).
  rewrite filter_In, in_app_iff, In_seed. unfold kept. cbn [rds_id inode].
  rewrite Z.eqb_refl. cbn [negb orb]. rewrite andb_true_iff, !forallb_forall.
  split.
  - intros [[Hold | [_ Hhead]] [Hreq Hexc]].
    + now apply Hfresh in Hold.
    + split; [assumption|]. split.
      * intros cl Hcl. now apply selects_tagged, Hreq.
      * intros cl Hcl Htag. apply selects_tagged in Htag.
        specialize (Hexc cl Hcl). rewrite Htag in Hexc. discriminate.
  - intros (Hhead & Hreq & Hexc). split; [right; now split|]. split.
    + intros cl Hcl. now apply selects_tagged, Hreq.
    + intros cl Hcl. apply negb_true_iff.
      destruct (selects c cl i) eqn:E; [|reflexivity].
      apply selects_tagged in E. now apply Hexc in E.
Qed.

Lemma build_materializes_conjunction_witness :
  In (mk_RDS_row 1 2 "two")
    (RDS (snd (tagsistant_RDS_build red_and_big "red/big/" S1_conn))).
Proof.
  refine (proj2 (build_materializes_conjunction red_and_big "red/big/" S1_conn
                   (named "red") (leaf (named "big")) and_NULL and_NULL
                   eq_refl _ _ _ 2 "two") _).
  - repeat constructor.
  - unfold fits_int. cbn. lia.
  - intros r [].
  - split; [|split].
    + exists (mk_tags_row 10 "red" "" ""), (named "red"), (tagname_is "red").
      repeat split; try reflexivity; vm_compute; auto.
    + intros cl [<- | []].
      exists (mk_objects_row 2 "two", mk_tags_row 20 "big" "" ""),
        (named "big"), (tagname_is "big").
      repeat split; try reflexivity; vm_compute; auto 10.
    + intros cl [].
Defined.

(** ** What a build leaves alone *)

Lemma others_app_new (id : Z) (l new : list RDS_row) :
  (forall r, In r new -> rds_id r = id) -> others id (l ++ new) = others id l.
Proof.
  intros H. unfold others. rewrite filter_app.
  assert (E : filter (fun r => negb (rds_id r =? id)) new = []).
  { induction new as [|x new IH]; [reflexivity|].
    cbn [filter]. rewrite (H x (or_introl eq_refl)), Z.eqb_refl. cbn.
    apply IH. intros r Hr. apply H. now right. }
  rewrite E. apply app_nil_r.
Qed.

Lemma others_kept (id : Z) (c : dbi_conn)
  (required excluded : list (list and_fields)) (l : list RDS_row) :
  others id (filter (kept id c required excluded) l) = others id l.
Proof.
  unfold others. apply filter_filter_ext. intros r. unfold kept.
  destruct (rds_id r =? id); cbn [negb orb andb];
    [apply andb_false_r | reflexivity].
Qed.

Lemma build_rows_empty (query : qtree_or_node) (s : string) (c : dbi_conn) :
  and_set query = and_NULL ->
  RDS (snd (tagsistant_RDS_build query s c)) = RDS c.
Proof.
  intros Hset. unfold tagsistant_RDS_build.
  rewrite bind_eq, insert_catalog_query. cbn [fst snd].
  rewrite bind_eq. cbv [tagsistant_last_insert_id]. cbn [fst snd].
  now rewrite Hset.
Qed.

Lemma build_others (query : qtree_or_node) (s : string) (c : dbi_conn) :
  plain_conjunction (and_set query) ->
  others (auto_increment c) (RDS (snd (tagsistant_RDS_build query s c)))
  = others (auto_increment c) (RDS c).
Proof.
  intros Hplain.
  destruct (and_set query) as [|f next related negated] eqn:Hset.
  - now rewrite (build_rows_empty query s c Hset).
  - unfold plain_conjunction, clauses_of in Hplain. rewrite <- Hset in Hplain.
    rewrite (build_rows query s c f next related negated Hset Hplain).
    rewrite others_kept. apply others_app_new.
    intros r Hr. unfold seed in Hr. apply in_map_iff in Hr as (j & <- & _).
    reflexivity.
Qed.



(** ** The statements of a build, in order *)

Lemma related_pieces (related : qtree_and_node) :
  add_related [] related = or_pieces (related_chain related).
Proof.
  induction related as [|f next _ related IH negated _]; [reflexivity|].
  rewrite add_related_cons. unfold where_pieces.
  cbn [related_chain or_pieces]. now rewrite IH.
Qed.

Lemma where_clause_pieces (f : and_fields) (related : qtree_and_node) :
  where_pieces f related = clause_pieces (clause f related).
Proof. unfold where_pieces, clause, clause_pieces. now rewrite related_pieces. Qed.

Lemma query_str_statements (g : GString) (c : dbi_conn) :
  statements (snd (tagsistant_query_str g c)) = statements c ++ [g].
Proof. apply query_str_step. Qed.

Lemma phase_3_loop_statements (id : Z) (n : qtree_and_node) (c : dbi_conn) :
  statements (snd (phase_3_loop id n c))
  = statements c ++ map (intersect_statement id) (next_clauses n).
Proof.
  revert c; induction n as [|f next IH related _ negated _]; intros c.
  - cbn. now rewrite app_nil_r.
  - cbn [phase_3_loop]. rewrite phase_3_pieces, bind_eq, IH.
    rewrite query_str_statements, <- app_assoc.
    unfold phase_3_statement. rewrite where_clause_pieces. reflexivity.
Qed.

Lemma phase_4_negated_statements (id : Z) (n : qtree_and_node) (c : dbi_conn) :
  statements (snd (phase_4_negated id n c))
  = statements c ++ map (subtract_statement id) (negated_chain n).
Proof.
  revert c; induction n as [|f next _ related _ negated IH]; intros c.
  - cbn. now rewrite app_nil_r.
  - cbn [phase_4_negated]. rewrite phase_4_pieces, bind_eq, IH.
    rewrite query_str_statements, <- app_assoc.
    unfold phase_4_statement. rewrite where_clause_pieces. reflexivity.
Qed.

Lemma phase_4_loop_statements (id : Z) (n : qtree_and_node) (c : dbi_conn) :
  statements (snd (phase_4_loop id n c))
  = statements c ++ map (subtract_statement id) (subtracted n).
Proof.
  revert c; induction n as [|f next IH related _ negated _]; intros c.
  - cbn. now rewrite app_nil_r.
  - cbn [phase_4_loop]. rewrite bind_eq, IH, phase_4_negated_statements.
    cbn [subtracted]. now rewrite map_app, <- app_assoc.
Qed.

(** X3.  The statements of a build.  A build sends the insert into the
    catalog; for a conjunction with a head it then sends one insert-select
    for the head with its related atoms, one delete ... not in ... for each
    further node of the next-chain, and one delete ... in ... for each node
    of the ->negated chains, in this order, each statement of its own.  For
    a conjunction without atoms the insert into the catalog is the only
    statement: the entry is registered with no rows. *)
Theorem build_sends (query : qtree_or_node) (subquery : string)
  (c : dbi_conn) :
  let x := tagsistant_RDS_build query subquery c in
  statements (snd x)
  = statements c ++ build_statements (fst x) subquery (and_set query)
  /\ (and_set query = and_NULL -> RDS (snd x) = RDS c).
Proof.
  cbv zeta. destruct (build_registers query subquery c) as [Hfst _].
  rewrite Hfst. clear Hfst.
  unfold tagsistant_RDS_build.
  rewrite bind_eq, insert_catalog_query. cbn [fst snd].
  rewrite bind_eq. cbv [tagsistant_last_insert_id]. cbn [fst snd].
  change (last_insert_id (registered subquery c)) with (auto_increment c).
  destruct (and_set query) as [|f next related negated] eqn:E.
  - split; [reflexivity | reflexivity].
  - split; [|discriminate].
    rewrite phase_2_pieces, !bind_eq. unfold ret. cbn [fst snd].
    rewrite phase_4_loop_statements, phase_3_loop_statements,
      query_str_statements.
    cbn [statements registered build_statements].
    unfold phase_2_statement. rewrite where_clause_pieces.
    rewrite <- !app_assoc. reflexivity.
Qed.

Lemma build_sends_witness :
  RDS (snd (tagsistant_RDS_build (or_node and_NULL or_NULL) "" S1_conn))
  = RDS S1_conn.
Proof.
  apply (proj2 (build_sends (or_node and_NULL or_NULL) "" S1_conn)).
  reflexivity.
Defined.

(** ** Invariants of the two RDS tables *)






Lemma prepare_state (query : qtree_or_node) (is_all_path r : Z) (c : dbi_conn) :
  snd (tagsistant_RDS_prepare query is_all_path r c)
  = if is_all_path =? 0 then snd (prepare_ids query r c) else c.
Proof.
  destruct (Z.eq_dec is_all_path 0) as [-> | Hall].
  - destruct query as [|a next]; [reflexivity|].
    now rewrite prepare_fingerprint.
  - rewrite prepare_all_path by assumption.
    apply Z.eqb_neq in Hall. now rewrite Hall.
Qed.




(** Deleting rows keeps a column free of duplicates. *)
Lemma keys_after_delete {Row Key : Type} (column : Row -> Key)
  (keep : Row -> bool) (rows : list Row) :
  NoDup (map column rows) -> NoDup (map column (filter keep rows)).
Proof.
  induction rows as [|x l IH]; intros H; [constructor|].
  cbn [map] in H. inversion H as [|y m Hnotin Hnd]; subst.
  cbn [filter]. destruct (keep x); [|now apply IH].
  cbn [map]. constructor; [|now apply IH].
  intros Hin. apply Hnotin. apply in_map_iff in Hin as (z & E & Hz).
  apply In_filter_In in Hz. apply in_map_iff. now exists z.
Qed.

Lemma NoDup_snoc {A : Type} (l : list A) (x : A) :
  NoDup l -> ~ In x l -> NoDup (l ++ [x]).
Proof.
  intros Hl Hx. induction Hl as [|y l Hy Hl IH]; cbn.
  - constructor; [intros [] | constructor].
  - constructor.
    + intros Hin. apply in_app_or in Hin as [Hin | [<- | []]]; [contradiction|].
      apply Hx. now left.
    + apply IH. intros Hin. apply Hx. now right.
Qed.

Lemma keys_build (query : qtree_or_node) (s : string) (c0 : dbi_conn) :
  catalog_keys c0 ->
  ~ In s (map cat_subquery (RDS_catalog c0)) ->
  catalog_keys (snd (tagsistant_RDS_build query s c0)).
Proof.
  intros (Hwf & Hids & Hsubs) Hs.
  destruct (build_catalog query s c0) as [Hc _].
  split; [now apply build_wf|]. rewrite Hc, !map_app. cbn [map cat_rds_id cat_subquery].
  split; apply NoDup_snoc; auto.
  intros Hin. apply in_map_iff in Hin as (r & E & Hr).
  destruct Hwf as [_ Hwf]. apply Hwf in Hr. lia.
Qed.

Lemma keys_purged (s : string) (c : dbi_conn) :
  catalog_keys c ->
  catalog_keys (purged s c)
  /\ ~ In s (map cat_subquery (RDS_catalog (purged s c))).
Proof.
  intros (Hwf & Hids & Hsubs). split.
  - split; [now apply purged_wf|]. cbn [purged RDS_catalog].
    split; now apply keys_after_delete.
  - cbn [purged RDS_catalog]. intros Hin.
    apply in_map_iff in Hin as (r & E & Hr).
    apply filter_In in Hr as [_ Hneq]. apply negb_true_iff, String.eqb_neq in Hneq.
    contradiction.
Qed.

Lemma lookup_zero_absent (s : string) (c : dbi_conn) :
  catalog_wf c -> lookup s c = 0 ->
  ~ In s (map cat_subquery (RDS_catalog c)).
Proof.
  intros Hwf H0 Hin. apply in_map_iff in Hin as (r & E & Hr).
  pose proof (lookup_zero s c Hwf H0) as Hnil.
  unfold rds_ids_of_subquery in Hnil.
  assert (Hf : In r (filter (fun r => (cat_subquery r =? s)%string) (RDS_catalog c))).
  { apply filter_In. split; [assumption | now apply String.eqb_eq]. }
  apply (in_map cat_rds_id) in Hf. rewrite Hnil in Hf. contradiction.
Qed.

Lemma keys_turn (query : qtree_or_node) (r : Z) (c : dbi_conn) :
  catalog_keys c -> catalog_keys (snd (fetch_or_build query r c)).
Proof.
  intros H. destruct (Z.eq_dec r 0) as [-> | Hr].
  - rewrite fetch_or_build_keep. cbv zeta.
    destruct (lookup _ c =? 0) eqn:E; [|exact H].
    apply Z.eqb_eq in E. apply keys_build; [exact H|].
    destruct H as [Hwf _]. now apply (lookup_zero_absent _ c).
  - rewrite fetch_or_build_rebuild by assumption. cbv zeta.
    destruct (keys_purged (tagsistant_RDS_build_subquery query) c H).
    now apply keys_build.
Qed.

Lemma keys_prepare_ids (query : qtree_or_node) (r : Z) (c : dbi_conn) :
  catalog_keys c -> catalog_keys (snd (prepare_ids query r c)).
Proof.
  revert c; induction query as [|a next IH]; intros c H; [exact H|].
  rewrite prepare_ids_cons. cbn [snd]. now apply IH, keys_turn.
Qed.

Lemma keys_operation (o : operation) (c : dbi_conn) :
  catalog_keys c -> catalog_keys (run_operation c o).
Proof.
  intros H. destruct o as [query is_all_path r | qtree]; cbn [run_operation].
  - rewrite prepare_state. destruct (is_all_path =? 0); [|exact H].
    now apply keys_prepare_ids.
  - destruct H as ([Hpos Hwf] & Hids & Hsubs).
    destruct (invalidate_effect qtree c) as (_ & _ & Ha & Hc).
    assert (Hi : map cat_rds_id (RDS_catalog (snd (tagsistant_RDS_invalidate qtree c)))
                 = map cat_rds_id (RDS_catalog c)).
    { rewrite Hc. destruct (parse_in_list _) as [ids|]; [|reflexivity].
      rewrite map_map. apply map_ext. intros x.
      now destruct (mark_expired_fields ids x). }
    assert (Hs : map cat_subquery (RDS_catalog (snd (tagsistant_RDS_invalidate qtree c)))
                 = map cat_subquery (RDS_catalog c)).
    { rewrite Hc. destruct (parse_in_list _) as [ids|]; [|reflexivity].
      rewrite map_map. apply map_ext. intros x.
      now destruct (mark_expired_fields ids x) as (_ & ? & _). }
    split; [|now rewrite Hi, Hs].
    split; [lia|]. intros x Hx.
    apply (in_map cat_rds_id) in Hx. rewrite Hi in Hx.
    apply in_map_iff in Hx as (y & E & Hy). apply Hwf in Hy. lia.
Qed.

(** X5.  Build once.  When the catalog has positive, pairwise distinct ids
    below the auto_increment counter and pairwise distinct subqueries, it
    still has after every sequence of prepare and invalidate: a prepare
    builds an entry only when the catalog holds none for the subquery, so
    that no subquery is ever registered twice. *)
Theorem catalog_keys_kept (ops : list operation) (c : dbi_conn) :
  catalog_keys c -> catalog_keys (run ops c).
Proof.
  revert c; induction ops as [|o ops IH]; intros c H; [exact H|].
  cbn [run fold_left]. now apply IH, keys_operation.
Qed.

Lemma catalog_keys_kept_witness :
  catalog_keys
    (run [op_prepare red_or_big 0 1;
          op_invalidate (mk_querytree 1 None (Some "2"%string));
          op_prepare red_and_big 0 0]
       expired_conn).
Proof.
  refine (catalog_keys_kept _ expired_conn _).
  split; [|split].
  - split; [reflexivity|]. intros row [<- | []]. split; reflexivity.
  - repeat constructor. intros [].
  - repeat constructor. intros [].
Defined.

(** ** Lookup in the catalog *)

Lemma filter_unique {A : Type} (f : A -> string) (l : list A) (r : A) :
  NoDup (map f l) -> In r l ->
  filter (fun x => (f x =? f r)%string) l = [r].
Proof.
  induction l as [|x l IH]; intros Hnd Hin; [contradiction|].
  cbn [map] in Hnd. inversion Hnd as [|y m Hnotin Hnd']; subst.
  cbn [filter]. destruct Hin as [-> | Hin].
  - rewrite String.eqb_refl. f_equal.
    assert (H : forall x, In x l -> (f x =? f r)%string = false).
    { intros x Hx. apply String.eqb_neq. intros E. apply Hnotin.
      rewrite <- E. now apply in_map. }
    clear -H. induction l as [|y l IHl]; [reflexivity|].
    cbn [filter]. rewrite (H y (or_introl eq_refl)).
    apply IHl. intros x Hx. apply H. now right.
  - destruct (String.eqb_spec (f x) (f r)) as [E | _]; [|now apply IH].
    exfalso. apply Hnotin. rewrite E. now apply in_map.
Qed.

Lemma lookup_entry (c : dbi_conn) (r : RDS_catalog_row) :
  NoDup (map cat_subquery (RDS_catalog c)) -> In r (RDS_catalog c) ->
  lookup (cat_subquery r) c = cat_rds_id r.
Proof.
  intros Hnd Hin. unfold lookup, rds_ids_of_subquery.
  now rewrite (filter_unique cat_subquery _ r Hnd Hin).
Qed.

Lemma filter_absent (s : string) (l : list RDS_catalog_row) :
  ~ In s (map cat_subquery l) ->
  filter (fun r => (cat_subquery r =? s)%string) l = [].
Proof.
  induction l as [|x l IH]; intros Hnot; [reflexivity|].
  cbn [filter]. destruct (String.eqb_spec (cat_subquery x) s) as [E|_].
  - exfalso. apply Hnot. left. exact E.
  - apply IH. intros H. apply Hnot. now right.
Qed.

(** X6.  Lookup without rebuild.  [tagsistant_RDS_fetch_id] with
    [rebuild_expired_RDS] 0 sends one select and writes to no table.  When a
    catalog entry holds the subquery, the id of an entry of this subquery is
    returned: of that entry, when subqueries are pairwise distinct.  On a
    catalog with positive ids, 0 is returned exactly when no entry holds the
    subquery.  The expired flag plays no part. *)
Theorem fetch_id_lookup (subquery : string) (c : dbi_conn) :
  let x := tagsistant_RDS_fetch_id subquery 0 c in
  snd x = with_statements c [select_statement subquery]
  /\ (fst x <> 0 ->
      exists r, In r (RDS_catalog c) /\ cat_subquery r = subquery
                /\ cat_rds_id r = fst x)
  /\ (catalog_wf c ->
      (fst x = 0 <-> ~ In subquery (map cat_subquery (RDS_catalog c))))
  /\ (NoDup (map cat_subquery (RDS_catalog c)) ->
      forall r, In r (RDS_catalog c) -> cat_subquery r = subquery ->
                fst x = cat_rds_id r).
Proof.
  cbv zeta. rewrite fetch_id_keep. cbn [fst snd].
  split; [reflexivity|]. split; [apply lookup_In|]. split.
  - intros Hwf. split; [now apply lookup_zero_absent|].
    intros Hnot. unfold lookup, rds_ids_of_subquery.
    now rewrite (filter_absent subquery _ Hnot).
  - intros Hnd r Hr <-. now apply lookup_entry.
Qed.

Lemma fetch_id_lookup_witness :
  fst (tagsistant_RDS_fetch_id "red/" 0 expired_conn) = 1.
Proof.
  refine (proj2 (proj2 (proj2 (fetch_id_lookup "red/" expired_conn))) _
            (mk_catalog_row 1 "red/" 1) _ eq_refl).
  - repeat constructor. intros [].
  - now left.
Defined.

(** X7.  Register, then look up.  After a build for a subquery that no
    catalog entry held, [tagsistant_RDS_fetch_id] without rebuild returns
    the id the build returned. *)
Theorem build_then_fetch (query : qtree_or_node) (subquery : string)
  (c : dbi_conn) :
  ~ In subquery (map cat_subquery (RDS_catalog c)) ->
  let x := tagsistant_RDS_build query subquery c in
  fst (tagsistant_RDS_fetch_id subquery 0 (snd x)) = fst x.
Proof.
  intros Hnot. cbv zeta. rewrite fetch_id_keep. cbn [fst].
  destruct (build_registers query subquery c) as [Hfst _].
  destruct (build_catalog query subquery c) as [Hc _].
  rewrite Hfst. unfold lookup.
  rewrite (rds_ids_registered subquery subquery c _ Hc), String.eqb_refl.
  unfold rds_ids_of_subquery at 1.
  now rewrite (filter_absent subquery _ Hnot).
Qed.

Lemma build_then_fetch_witness :
  fst (tagsistant_RDS_fetch_id "red/big/" 0
         (snd (tagsistant_RDS_build red_and_big "red/big/" S1_conn)))
  = 1.
Proof.
  refine (build_then_fetch red_and_big "red/big/" S1_conn _).
  intros [].
Defined.

(** ** Prepare on its edges, and on a disjunction in two parts *)

(** X8.  [tagsistant_RDS_prepare] returns NULL exactly when [is_all_path]
    is set or the query is NULL; it has then sent no statement and the
    connection is as it was.  Otherwise it returns a string. *)
Theorem prepare_returns_NULL (query : qtree_or_node)
  (is_all_path rebuild_expired_RDS : Z) (c : dbi_conn) :
  let x := tagsistant_RDS_prepare query is_all_path rebuild_expired_RDS c in
  (fst x = None <-> is_all_path <> 0 \/ query = or_NULL)
  /\ (fst x = None -> snd x = c).
Proof.
  cbv zeta. destruct (Z.eq_dec is_all_path 0) as [-> | Hall].
  - destruct query as [|a next].
    + cbn. split; [|reflexivity]. split; [now right | reflexivity].
    + rewrite prepare_fingerprint. cbn [fst snd].
      split; [|discriminate]. split; [discriminate|].
      intros [H | H]; [now contradiction H | discriminate].
  - rewrite prepare_all_path by assumption. cbn.
    split; [|reflexivity]. split; [now left | reflexivity].
Qed.

Lemma prepare_returns_NULL_witness :
  snd (tagsistant_RDS_prepare or_NULL 0 1 S1_conn) = S1_conn.
Proof.
  apply (proj2 (prepare_returns_NULL or_NULL 0 1 S1_conn)). reflexivity.
Defined.

Lemma fetch_or_build_head (a : qtree_and_node) (n1 n2 : qtree_or_node)
  (r : Z) (c : dbi_conn) :
  fetch_or_build (or_node a n1) r c = fetch_or_build (or_node a n2) r c.
Proof. reflexivity. Qed.

Lemma prepare_ids_append (q1 q2 : qtree_or_node) (r : Z) (c : dbi_conn) :
  prepare_ids (or_append q1 q2) r c
  = (fst (prepare_ids q1 r c) ++ fst (prepare_ids q2 r (snd (prepare_ids q1 r c))),
     snd (prepare_ids q2 r (snd (prepare_ids q1 r c)))).
Proof.
  revert c; induction q1 as [|a next IH]; intros c.
  - cbn [or_append prepare_ids ret fst snd app]. now destruct (prepare_ids q2 r c).
  - cbn [or_append]. rewrite !prepare_ids_cons.
    rewrite (fetch_or_build_head a (or_append next q2) next).
    rewrite IH. reflexivity.
Qed.

Lemma ids_pieces_app (l1 l2 : list Z) :
  ids_pieces (l1 ++ l2) = ids_pieces l1 ++ ids_pieces l2.
Proof. unfold ids_pieces. apply flat_map_app. Qed.

Lemma fingerprint_of_app (x y : Z) (l1 l2 : list Z) :
  fingerprint_of ((x :: l1) ++ y :: l2)
  = (fingerprint_of (x :: l1) ++ ", " ++ fingerprint_of (y :: l2))%string.
Proof.
  unfold fingerprint_of.
  change (map printf_d ((x :: l1) ++ y :: l2))
    with (printf_d x :: map printf_d (l1 ++ y :: l2)).
  change (map printf_d (x :: l1)) with (printf_d x :: map printf_d l1).
  change (map printf_d (y :: l2)) with (printf_d y :: map printf_d l2).
  rewrite !concat_ids_pieces, ids_pieces_app, g_string_str_app, append_assoc.
  reflexivity.
Qed.

(** X9.  A disjunction in two parts.  Preparing the disjunction [q1]
    followed by [q2] is preparing [q1], then [q2] on the connection [q1]
    left: the connection is the same in the end, and the fingerprint is the
    two fingerprints joined by a comma and a blank. *)
Theorem prepare_append (q1 q2 : qtree_or_node) (rebuild_expired_RDS : Z)
  (c : dbi_conn) :
  let x1 := tagsistant_RDS_prepare q1 0 rebuild_expired_RDS c in
  let x2 := tagsistant_RDS_prepare q2 0 rebuild_expired_RDS (snd x1) in
  tagsistant_RDS_prepare (or_append q1 q2) 0 rebuild_expired_RDS c
  = (join_fingerprints (fst x1) (fst x2), snd x2).
Proof.
  cbv zeta. destruct q1 as [|a1 n1].
  { change (tagsistant_RDS_prepare or_NULL 0 rebuild_expired_RDS c)
      with (@None string, c).
    cbn [fst snd join_fingerprints or_append].
    now destruct (tagsistant_RDS_prepare q2 0 rebuild_expired_RDS c). }
  cbn [or_append]. rewrite !prepare_fingerprint. cbn [fst snd].
  change (or_node a1 (or_append n1 q2)) with (or_append (or_node a1 n1) q2).
  rewrite prepare_ids_append. cbn [fst snd].
  destruct q2 as [|a2 n2].
  - cbn [prepare_ids ret fst snd join_fingerprints tagsistant_RDS_prepare
           Z.eqb negb].
    now rewrite app_nil_r.
  - rewrite prepare_fingerprint. cbn [fst snd join_fingerprints].
    rewrite (prepare_ids_cons a1 n1), (prepare_ids_cons a2 n2). cbn [fst snd].
    now rewrite fingerprint_of_app.
Qed.

(** ** Load *)

Example load_S2 :
  fst (tagsistant_RDS_load (Some "1, 2"%string)
         (snd (tagsistant_RDS_prepare red_or_big 0 0 S1_conn)))
  = [("one", [mk_file_handle "one" 1]); ("two", [mk_file_handle "two" 2]);
     ("three", [mk_file_handle "three" 3])]%string.
Proof. vm_compute. reflexivity. Qed.

Lemma lookup_insert_same (T : GHashTable) (k : string) (v : GList) :
  g_hash_table_lookup (g_hash_table_insert T k v) k = v.
Proof.
  induction T as [|[k' v'] T IH]; cbn.
  - now rewrite String.eqb_refl.
  - destruct (String.eqb_spec k' k) as [-> | Hne]; cbn.
    + now rewrite String.eqb_refl.
    + apply String.eqb_neq in Hne. now rewrite Hne.
Qed.

Lemma lookup_insert_other (T : GHashTable) (k k' : string) (v : GList) :
  k <> k' ->
  g_hash_table_lookup (g_hash_table_insert T k v) k' = g_hash_table_lookup T k'.
Proof.
  intros Hne. induction T as [|[k0 v0] T IH]; cbn.
  - apply String.eqb_neq in Hne. now rewrite Hne.
  - destruct (String.eqb_spec k0 k) as [-> | Hne0]; cbn.
    + apply String.eqb_neq in Hne. now rewrite Hne.
    + now rewrite IH.
Qed.

Lemma substring_all (s : string) (m : nat) :
  (String.length s <= m)%nat -> String.substring 0 m s = s.
Proof.
  revert m; induction s as [|a s IH]; intros m Hm.
  - now destruct m.
  - destruct m as [|m]; cbn in *; [lia|]. rewrite IH; [reflexivity | lia].
Qed.

Lemma g_strlcpy_short (name : string) :
  (String.length name < 1024)%nat -> g_strlcpy name 1024 = name.
Proof. intros H. unfold g_strlcpy. apply substring_all. lia. Qed.

Lemma list_holds_inode_In (l : GList) (i : Z) :
  list_holds_inode l i = true <-> In i (map fh_inode l).
Proof.
  induction l as [|fh l IH]; cbn; [split; [discriminate | contradiction]|].
  destruct (Z.eqb_spec (fh_inode fh) i) as [E | Hne].
  - split; auto.
  - rewrite IH. split; [now right | intros [H | H]; [contradiction | assumption]].
Qed.

Lemma callback_object (T : GHashTable) (o : string * Z) :
  tagsistant_RDS_add_entry_callback T (object_row o)
  = if list_holds_inode (g_hash_table_lookup T (fst o)) (snd o) then T
    else g_hash_table_insert T (g_strlcpy (fst o) 1024)
           (mk_file_handle (g_strlcpy (fst o) 1024) (snd o)
              :: g_hash_table_lookup T (fst o)).
Proof. reflexivity. Qed.

Lemma callback_step (T : GHashTable) (o : string * Z) :
  (String.length (fst o) < 1024)%nat -> table_ok T ->
  let T' := tagsistant_RDS_add_entry_callback T (object_row o) in
  table_ok T'
  /\ forall k i, table_holds T' k i <-> table_holds T k i \/ (k, i) = o.
Proof.
  intros Hshort Hok. cbv zeta. rewrite callback_object.
  rewrite (g_strlcpy_short _ Hshort). destruct o as [name inode]. cbn [fst snd] in *.
  destruct (list_holds_inode (g_hash_table_lookup T name) inode) eqn:E.
  - split; [assumption|]. intros k i. split; [now left|].
    intros [H | [= -> ->]]; [assumption|].
    apply list_holds_inode_In, in_map_iff in E as (fh & Hi & Hfh).
    destruct (Hok name) as [Hname _]. specialize (Hname fh Hfh).
    unfold table_holds. destruct fh as [n j]. cbn in *. now subst.
  - assert (Hnot : ~ In inode (map fh_inode (g_hash_table_lookup T name))).
    { intros H. apply list_holds_inode_In in H. congruence. }
    split.
    + intros k. destruct (string_dec name k) as [<- | Hne].
      * rewrite lookup_insert_same. destruct (Hok name) as [Hname Hnd]. split.
        -- intros fh [<- | Hfh]; [reflexivity | now apply Hname].
        -- cbn [map fh_inode]. now constructor.
      * rewrite (lookup_insert_other _ _ _ _ Hne). apply Hok.
    + intros k i. unfold table_holds.
      destruct (string_dec name k) as [<- | Hne].
      * rewrite lookup_insert_same. cbn [In]. split.
        -- intros [[= <-] | H]; [now right | now left].
        -- intros [H | [= <-]]; [now right | now left].
      * rewrite (lookup_insert_other _ _ _ _ Hne). split; [now left|].
        intros [H | [= E' _]]; [assumption | now contradiction Hne].
Qed.

Lemma callback_fold (rows : list (string * Z)) (T : GHashTable) :
  (forall o, In o rows -> (String.length (fst o) < 1024)%nat) ->
  table_ok T ->
  let T' := fold_left tagsistant_RDS_add_entry_callback (map object_row rows) T in
  table_ok T'
  /\ forall k i, table_holds T' k i <-> table_holds T k i \/ In (k, i) rows.
Proof.
  revert T; induction rows as [|o rows IH]; intros T Hshort Hok; cbv zeta.
  - cbn. split; [assumption|]. intros k i. split; [now left | now intros [H | []]].
  - cbn [map fold_left].
    destruct (callback_step T o (Hshort o (or_introl eq_refl)) Hok) as [Hok1 H1].
    destruct (IH _ (fun o' H => Hshort o' (or_intror H)) Hok1) as [Hok2 H2].
    split; [assumption|]. intros k i. rewrite H2, H1. cbn [In].
    split; [intros [[H | H] | H] | intros [H | [H | H]]]; auto.
Qed.

Lemma table_ok_new : table_ok g_hash_table_new.
Proof. intros k. cbn. split; [contradiction | constructor]. Qed.

(** A fingerprint that reads as a list of ids is not the text [(null)]. *)
Lemma in_list_parsed (fp : string) (ids : list Z) :
  parse_in_list fp = Some ids -> in_list fp = Some ids.
Proof.
  intros H. unfold in_list.
  destruct (String.eqb_spec fp "(null)") as [-> | _]; [|exact H].
  vm_compute in H. discriminate.
Qed.

Lemma load_parsed (fp : option string) (ids : list Z) (c : dbi_conn) :
  parse_in_list (printf_s fp) = Some ids ->
  tagsistant_RDS_load fp c
  = (fold_left tagsistant_RDS_add_entry_callback
       (map object_row (nodup object_eq_dec (objects_in ids c)))
       g_hash_table_new,
     with_statements c [load_statement fp]).
Proof.
  intros Hp. unfold tagsistant_RDS_load, tagsistant_query_rows.
  change (sprintf "select distinct objectname, inode from RDS where rds_id in (%s)"
            [arg_s fp]) with (load_statement fp).
  change (sql_parse_rows (load_statement fp))
    with (option_map select_distinct_objects (in_list (printf_s fp))).
  rewrite (in_list_parsed _ _ Hp). reflexivity.
Qed.

Lemma In_objects_in (ids : list Z) (c : dbi_conn) (name : string) (i : Z) :
  In (name, i) (objects_in ids c)
  <-> exists row, In row (RDS c) /\ In (rds_id row) ids
                  /\ objectname row = name /\ inode row = i.
Proof.
  unfold objects_in, RDS_rows_in. rewrite in_map_iff. split.
  - intros (row & [= <- <-] & Hin). apply filter_In in Hin as [Hin Hm].
    apply mem_In in Hm. exists row. auto.
  - intros (row & Hin & Hm & <- & <-). exists row. split; [reflexivity|].
    apply filter_In. split; [assumption | now apply mem_In].
Qed.

(** X10.  What load returns.  For a fingerprint that reads as the ids
    [ids], and names of less than 1024 characters (the column holds 255):
    the table lists an object (name, inode) under its name exactly when a
    row of the RDS table with an rds_id of [ids] holds it; under a key every
    handle carries the key as its name, and no inode is listed twice.  Load
    sends the one select and writes to no table. *)
Theorem load_lists_the_objects (fingerprint : option string) (ids : list Z)
  (c : dbi_conn) :
  parse_in_list (printf_s fingerprint) = Some ids ->
  (forall row, In row (RDS c) -> In (rds_id row) ids ->
               (String.length (objectname row) < 1024)%nat) ->
  let x := tagsistant_RDS_load fingerprint c in
  snd x = with_statements c [load_statement fingerprint]
  /\ (forall name i,
        table_holds (fst x) name i
        <-> exists row, In row (RDS c) /\ In (rds_id row) ids
                        /\ objectname row = name /\ inode row = i)
  /\ table_ok (fst x).
Proof.
  intros Hp Hshort. cbv zeta. rewrite (load_parsed _ ids c Hp). cbn [fst snd].
  split; [reflexivity|].
  destruct (callback_fold (nodup object_eq_dec (objects_in ids c))
              g_hash_table_new) as [Hok H].
  - intros [name i] Hin. apply nodup_In, In_objects_in in Hin
      as (row & Hrow & Hid & <- & _). cbn. now apply Hshort.
  - apply table_ok_new.
  - split; [|exact Hok]. intros name i. rewrite H, nodup_In, In_objects_in.
    split; [intros [[] | H']; exact H' | now right].
Qed.

Lemma load_lists_the_objects_witness :
  table_holds
    (fst (tagsistant_RDS_load (Some "1, 2"%string)
            (snd (tagsistant_RDS_prepare red_or_big 0 0 S1_conn))))
    "three" 3.
Proof.
  refine (proj2 (proj1 (proj2 (load_lists_the_objects (Some "1, 2"%string) [1; 2]
            (snd (tagsistant_RDS_prepare red_or_big 0 0 S1_conn)) eq_refl _))
            "three"%string 3) _).
  - intros row Hrow _. apply Nat.ltb_lt.
    refine (proj1 (forallb_forall
                     (fun row => (String.length (objectname row) <? 1024)%nat) _)
              _ row Hrow).
    vm_compute. reflexivity.
  - exists (mk_RDS_row 2 3 "three"). vm_compute. auto 10.
Defined.

Lemma no_rows_in_no_RDS (c : dbi_conn) : RDS_rows_in [] c = [].
Proof.
  unfold RDS_rows_in. induction (RDS c) as [|r rows IH]; [reflexivity|].
  exact IH.
Qed.

Lemma load_NULL (c : dbi_conn) :
  tagsistant_RDS_load None c
  = (g_hash_table_new, with_statements c [load_statement None]).
Proof.
  unfold tagsistant_RDS_load, tagsistant_query_rows.
  change (sprintf "select distinct objectname, inode from RDS where rds_id in (%s)"
            [arg_s None]) with (load_statement None).
  change (sql_parse_rows (load_statement None))
    with (Some (select_distinct_objects [])).
  cbn [sql_exec_rows]. rewrite no_rows_in_no_RDS. reflexivity.
Qed.

(** X11.  Load on the NULL fingerprint that prepare returns on the ALL path
    or for a NULL query: printf writes [(null)] into the list of the select,
    no rds_id is in it, and load returns the empty table, having sent the
    one select. *)
Theorem load_null_fingerprint (query : qtree_or_node)
  (is_all_path rebuild_expired_RDS : Z) (c c' : dbi_conn) :
  is_all_path <> 0 \/ query = or_NULL ->
  let fingerprint :=
    fst (tagsistant_RDS_prepare query is_all_path rebuild_expired_RDS c) in
  fingerprint = None
  /\ g_string_str (load_statement fingerprint)
     = "select distinct objectname, inode from RDS where rds_id in ((null))"%string
  /\ tagsistant_RDS_load fingerprint c'
     = (g_hash_table_new, with_statements c' [load_statement fingerprint]).
Proof.
  intros H. cbv zeta.
  assert (E : fst (tagsistant_RDS_prepare query is_all_path
                     rebuild_expired_RDS c) = None).
  { destruct H as [H | ->].
    - now rewrite prepare_all_path.
    - unfold tagsistant_RDS_prepare. now destruct (is_all_path =? 0). }
  rewrite E. split; [reflexivity|]. split; [reflexivity|]. apply load_NULL.
Qed.

Lemma load_null_fingerprint_witness :
  fst (tagsistant_RDS_load
         (fst (tagsistant_RDS_prepare red_or_big 1 0 S1_conn))
         (snd (tagsistant_RDS_prepare red_or_big 0 0 S1_conn)))
  = g_hash_table_new.
Proof.
  refine (eq_trans
            (f_equal fst
               (proj2 (proj2 (load_null_fingerprint red_or_big 1 0 S1_conn
                  (snd (tagsistant_RDS_prepare red_or_big 0 0 S1_conn)) _)))) _).
  - left. discriminate.
  - reflexivity.
Defined.

Lemma lookup_absent (T : GHashTable) (key : string) :
  (forall k v, In (k, v) T -> k <> key) -> g_hash_table_lookup T key = [].
Proof.
  induction T as [|[k v] T IH]; intros H; [reflexivity|].
  cbn. destruct (String.eqb_spec k key) as [E | _].
  - exfalso. exact (H k v (or_introl eq_refl) E).
  - apply IH. intros k' v' Hin. apply (H k' v'). now right.
Qed.

Lemma substring_length (s : string) (m : nat) :
  (m <= String.length s)%nat -> String.length (String.substring 0 m s) = m.
Proof.
  revert m; induction s as [|a s IH]; intros m Hm.
  - destruct m; cbn in *; [reflexivity | lia].
  - destruct m as [|m]; cbn in *; [reflexivity|]. rewrite IH; lia.
Qed.

(** X12.  The bound on names.  The callback looks the name up as the row
    gives it, but files the handle under the first 1023 characters, which
    is all the handle holds.  For a name of 1024 characters or more, on a
    table with shorter keys, the list of that key is replaced by the one
    new handle, and nothing is listed under the name itself. *)
Theorem callback_truncates_name (T : GHashTable) (name : string) (inode : Z) :
  (1024 <= String.length name)%nat ->
  (forall k v, In (k, v) T -> (String.length k < 1024)%nat) ->
  let key := String.substring 0 1023 name in
  let T' := tagsistant_RDS_add_entry_callback T (object_row (name, inode)) in
  g_hash_table_lookup T' key = [mk_file_handle key inode]
  /\ g_hash_table_lookup T' name = [].
Proof.
  intros Hlong Hkeys. cbv zeta.
  assert (Hname : g_hash_table_lookup T name = []).
  { apply lookup_absent. intros k v Hin ->. apply Hkeys in Hin. lia. }
  rewrite callback_object. cbn [fst snd]. rewrite Hname. cbn [list_holds_inode].
  change (g_strlcpy name 1024) with (String.substring 0 1023 name).
  split; [apply lookup_insert_same|].
  rewrite lookup_insert_other; [assumption|].
  intros E. apply (f_equal String.length) in E.
  rewrite substring_length in E; lia.
Qed.

Lemma callback_truncates_name_witness :
  g_hash_table_lookup
    (tagsistant_RDS_add_entry_callback
       [(String.substring 0 1023 long_name,
         [mk_file_handle (String.substring 0 1023 long_name) 7])]
       (object_row (long_name, 8)))
    (String.substring 0 1023 long_name)
  = [mk_file_handle (String.substring 0 1023 long_name) 8].
Proof.
  refine (proj1 (callback_truncates_name _ long_name 8 _ _)).
  - apply Nat.leb_le. vm_compute. reflexivity.
  - intros k v [[= <- _] | []]. apply Nat.ltb_lt. vm_compute. reflexivity.
Defined.

(** X13.  Union.  With names of less than 1024 characters, the table
    loaded for the fingerprint of two lists of ids put together lists an
    object exactly when the table loaded for one of the two fingerprints
    does. *)
Theorem load_union (id1 id2 : Z) (ids1 ids2 : list Z) (c : dbi_conn) :
  (forall row, In row (RDS c) -> (String.length (objectname row) < 1024)%nat) ->
  let both := fingerprint_of ((id1 :: ids1) ++ id2 :: ids2) in
  forall name i,
    table_holds (fst (tagsistant_RDS_load (Some both) c)) name i
    <-> table_holds
          (fst (tagsistant_RDS_load (Some (fingerprint_of (id1 :: ids1))) c))
          name i
        \/ table_holds
             (fst (tagsistant_RDS_load (Some (fingerprint_of (id2 :: ids2))) c))
             name i.
Proof.
  intros Hshort. cbv zeta. intros name i.
  assert (H : forall x l,
             table_holds (fst (tagsistant_RDS_load (Some (fingerprint_of (x :: l))) c))
               name i
             <-> exists row, In row (RDS c) /\ In (rds_id row) (x :: l)
                             /\ objectname row = name /\ inode row = i).
  { intros x l.
    rewrite (load_parsed (Some (fingerprint_of (x :: l))) (x :: l) c
               (parse_fingerprint x l)).
    cbn [fst].
    destruct (callback_fold (nodup object_eq_dec (objects_in (x :: l) c))
                g_hash_table_new) as [_ Hf].
    - intros [n j] Hin. apply nodup_In, In_objects_in in Hin
        as (row & Hrow & _ & <- & _). cbn. now apply Hshort.
    - apply table_ok_new.
    - rewrite Hf, nodup_In, In_objects_in.
      split; [intros [[] | H']; exact H' | now right]. }
  change ((id1 :: ids1) ++ id2 :: ids2) with (id1 :: (ids1 ++ id2 :: ids2)).
  rewrite !H. split.
  - intros (row & Hrow & Hid & Hn & Hi).
    change (id1 :: ids1 ++ id2 :: ids2) with ((id1 :: ids1) ++ id2 :: ids2) in Hid.
    apply in_app_or in Hid as [Hid | Hid]; [left | right]; exists row; auto.
  - intros [(row & Hrow & Hid & Hn & Hi) | (row & Hrow & Hid & Hn & Hi)];
      exists row; repeat split; auto;
      change (id1 :: ids1 ++ id2 :: ids2) with ((id1 :: ids1) ++ id2 :: ids2);
      apply in_or_app; auto.
Qed.

Lemma load_union_witness :
  table_holds
    (fst (tagsistant_RDS_load (Some (fingerprint_of ([1] ++ [2])))
            (snd (tagsistant_RDS_prepare red_or_big 0 0 S1_conn))))
    "three" 3.
Proof.
  refine (proj2 (load_union 1 2 [] []
                   (snd (tagsistant_RDS_prepare red_or_big 0 0 S1_conn)) _
                   "three"%string 3) _).
  - intros row Hrow. apply Nat.ltb_lt.
    refine (proj1 (forallb_forall
                     (fun row => (String.length (objectname row) <? 1024)%nat) _)
              _ row Hrow).
    vm_compute. reflexivity.
  - right. vm_compute. auto.
Defined.

(** ** Contains *)







(** ** Rebuild from the tables *)

Lemma build_membership (query : qtree_or_node) (s : string) (c : dbi_conn) :
  plain_conjunction (and_set query) ->
  (forall r, In r (RDS c) -> rds_id r <> auto_increment c) ->
  forall i name,
    In (mk_RDS_row (auto_increment c) i name)
      (RDS (snd (tagsistant_RDS_build query s c)))
    <-> conjunction_selects c (and_set query) (mk_objects_row i name).
Proof.
  intros Hall Hfresh i name.
  destruct (and_set query) as [|f next related negated] eqn:Hset.
  - cbn [conjunction_selects]. split; [|contradiction].
    unfold tagsistant_RDS_build.
    rewrite bind_eq, insert_catalog_query. cbn [fst snd].
    rewrite bind_eq. cbv [tagsistant_last_insert_id]. cbn [fst snd].
    rewrite Hset. cbn. intros H. now apply Hfresh in H.
  - unfold plain_conjunction, clauses_of in Hall. rewrite <- Hset in Hall.
    rewrite (build_rows query s c f next related negated Hset Hall).
    rewrite filter_In, in_app_iff, In_seed. unfold kept. cbn [rds_id inode].
    rewrite Z.eqb_refl. cbn [negb orb]. rewrite andb_true_iff, !forallb_forall.
    cbn [conjunction_selects obj_inode]. rewrite <- Hset.
    split.
    + intros [[Hold | [_ Hhead]] [Hreq Hexc]].
      * now apply Hfresh in Hold.
      * split; [assumption|]. split.
        -- intros cl Hcl. now apply selects_tagged, Hreq.
        -- intros cl Hcl Htag. apply selects_tagged in Htag.
           specialize (Hexc cl Hcl). rewrite Htag in Hexc. discriminate.
    + intros (Hhead & Hreq & Hexc). split; [right; now split|]. split.
      * intros cl Hcl. now apply selects_tagged, Hreq.
      * intros cl Hcl. apply negb_true_iff.
        destruct (selects c cl i) eqn:E; [|reflexivity].
        apply selects_tagged in E. now apply Hexc in E.
Qed.

Lemma below_purged (s : string) (c : dbi_conn) :
  RDS_below c -> RDS_below (purged s c).
Proof. intros H row Hrow. cbn in Hrow. apply In_filter_In in Hrow. now apply H. Qed.

Lemma below_build (query : qtree_or_node) (s : string) (c0 : dbi_conn) :
  plain_conjunction (and_set query) ->
  RDS_below c0 -> RDS_below (snd (tagsistant_RDS_build query s c0)).
Proof.
  intros Hplain H row Hrow.
  destruct (build_registers query s c0) as [_ (_ & Ha & _)].
  pose proof (build_rows_new query s c0 Hplain) as Hrows.
  rewrite Ha. cbn [registered auto_increment].
  destruct (Hrows row Hrow) as [Hold | ->]; [|lia].
  apply H in Hold. lia.
Qed.

Lemma build_tables (query : qtree_or_node) (s : string) (c0 : dbi_conn) :
  same_tables c0 (snd (tagsistant_RDS_build query s c0)).
Proof.
  destruct (build_registers query s c0) as [_ (_ & _ & Ho & Htg & Ht)].
  now repeat split.
Qed.

Lemma conjunction_selects_same (c c' : dbi_conn) (n : qtree_and_node)
  (o : objects_row) :
  same_tables c c' -> conjunction_selects c' n o <-> conjunction_selects c n o.
Proof.
  intros (Ho & Htg & Ht).
  assert (Hj : joined c' = joined c) by (unfold joined; now rewrite Ho, Htg, Ht).
  destruct n as [|f next related negated]; [reflexivity|].
  unfold conjunction_selects, object_tagged_by, tagged_by. now rewrite Hj.
Qed.

(** One turn of the loop with rebuild. *)
Lemma rebuild_turn (query : qtree_or_node) (r : Z) (c0 : dbi_conn) :
  r <> 0 -> RDS_below c0 -> plain_conjunction (and_set query) ->
  let x := fetch_or_build query r c0 in
  same_tables c0 (snd x) /\ RDS_below (snd x)
  /\ forall i name,
       In (mk_RDS_row (fst x) i name) (RDS (snd x))
       <-> conjunction_selects c0 (and_set query) (mk_objects_row i name).
Proof.
  intros Hr Hbelow Hall. cbv zeta.
  rewrite fetch_or_build_rebuild by assumption. cbv zeta.
  set (s := tagsistant_RDS_build_subquery query).
  destruct (build_registers query s (purged s c0)) as [Hfst _].
  split; [|split].
  - apply (same_tables_trans _ (purged s c0)); [now repeat split | apply build_tables].
  - apply below_build; [exact Hall|]. now apply below_purged.
  - intros i name. rewrite Hfst.
    rewrite (build_membership query s (purged s c0) Hall).
    + apply conjunction_selects_same. now repeat split.
    + intros row Hrow. apply (below_purged s) in Hbelow.
      apply Hbelow in Hrow. lia.
Qed.

Lemma In_others (id : Z) (l : list RDS_row) (row : RDS_row) :
  In row (others id l) <-> In row l /\ rds_id row <> id.
Proof.
  unfold others. rewrite filter_In, negb_true_iff, Z.eqb_neq. reflexivity.
Qed.

Lemma NoDup_map_In {A B : Type} (f : A -> B) (l : list A) (x y : A) :
  NoDup (map f l) -> In x l -> In y l -> f x = f y -> x = y.
Proof.
  induction l as [|z l IH]; [contradiction|].
  cbn [map]. intros Hnd Hx Hy E. inversion Hnd as [|? ? Hnotin Hnd'].
  destruct Hx as [Hx | Hx], Hy as [Hy | Hy].
  - congruence.
  - exfalso. apply Hnotin. rewrite Hx, E. now apply in_map.
  - exfalso. apply Hnotin. rewrite Hy, <- E. now apply in_map.
  - now apply IH.
Qed.

(** A turn with rebuild for another subquery leaves the rows of a
    registered id as they are. *)
Lemma rebuild_turn_keeps (query : qtree_or_node) (r : Z) (c1 : dbi_conn)
  (id : Z) (s : string) :
  r <> 0 -> catalog_keys c1 ->
  plain_conjunction (and_set query) ->
  In id (rds_ids_of_subquery s c1) ->
  tagsistant_RDS_build_subquery query <> s ->
  let c2 := snd (fetch_or_build query r c1) in
  (forall row, rds_id row = id -> (In row (RDS c2) <-> In row (RDS c1)))
  /\ In id (rds_ids_of_subquery s c2).
Proof.
  intros Hr (Hwf & Hids & _) Hplain Hreg Hne. cbv zeta.
  rewrite fetch_or_build_rebuild by assumption. cbv zeta.
  set (s' := tagsistant_RDS_build_subquery query) in *.
  unfold rds_ids_of_subquery in Hreg.
  apply in_map_iff in Hreg as (x & Hx & Hin). apply filter_In in Hin as [Hin Hs].
  apply String.eqb_eq in Hs.
  assert (Hlt : id < auto_increment c1).
  { destruct Hwf as [_ Hwf]. apply Hwf in Hin. lia. }
  assert (Hnot : ~ In id (rds_ids_of_subquery s' c1)).
  { unfold rds_ids_of_subquery. intros H.
    apply in_map_iff in H as (y & Hy & Hiny). apply filter_In in Hiny as [Hiny Hs'].
    apply String.eqb_eq in Hs'.
    assert (E : x = y)
      by (apply (NoDup_map_In cat_rds_id (RDS_catalog c1)); congruence).
    subst y. congruence. }
  split.
  - intros row Hid.
    pose proof (build_others query s' (purged s' c1) Hplain) as Ho.
    assert (Hne' : rds_id row <> auto_increment (purged s' c1)) by (cbn; lia).
    transitivity (In row (RDS (purged s' c1))).
    + split; intros H.
      * assert (H' : In row (others (auto_increment (purged s' c1))
                               (RDS (snd (tagsistant_RDS_build query s' (purged s' c1))))))
          by (apply In_others; auto).
        rewrite Ho in H'. now apply In_others in H'.
      * assert (H' : In row (others (auto_increment (purged s' c1))
                               (RDS (purged s' c1))))
          by (apply In_others; auto).
        rewrite <- Ho in H'. now apply In_others in H'.
    + cbn [purged RDS]. rewrite filter_In. split; [now intros [H _]|].
      intros H. split; [assumption|]. apply negb_true_iff.
      destruct (mem (rds_id row) (rds_ids_of_subquery s' c1)) eqn:E; [|reflexivity].
      apply mem_In in E. rewrite Hid in E. contradiction.
  - destruct (build_catalog query s' (purged s' c1)) as [Hc _].
    unfold rds_ids_of_subquery. rewrite Hc. apply in_map_iff. exists x.
    split; [assumption|]. apply filter_In. split; [|now apply String.eqb_eq].
    apply in_or_app. left. cbn [purged RDS_catalog]. apply filter_In.
    split; [assumption|]. apply negb_true_iff, String.eqb_neq. congruence.
Qed.

Lemma rebuild_loop_keeps (query : qtree_or_node) (r : Z) (c1 : dbi_conn)
  (id : Z) (s : string) :
  r <> 0 -> catalog_keys c1 ->
  plain_query query ->
  In id (rds_ids_of_subquery s c1) ->
  ~ In s (subqueries query) ->
  forall row, rds_id row = id ->
    (In row (RDS (snd (prepare_ids query r c1))) <-> In row (RDS c1)).
Proof.
  intros Hr. revert c1; induction query as [|a next IH];
    intros c1 Hkeys Hplain Hreg Hnot row Hid; [reflexivity|].
  apply plain_query_cons in Hplain as [Ha Hnext].
  rewrite prepare_ids_cons. cbn [snd].
  change (subqueries (or_node a next))
    with (tagsistant_RDS_build_subquery (or_node a next) :: subqueries next)
    in Hnot.
  destruct (rebuild_turn_keeps (or_node a next) r c1 id s Hr Hkeys Ha Hreg)
    as [Hrows Hreg'].
  { intros E. apply Hnot. now left. }
  rewrite IH; auto.
  - now apply keys_turn.
  - intros H. apply Hnot. now right.
Qed.

Lemma turn_registers (query : qtree_or_node) (r : Z) (c : dbi_conn) :
  r <> 0 ->
  In (fst (fetch_or_build query r c))
    (rds_ids_of_subquery (tagsistant_RDS_build_subquery query)
       (snd (fetch_or_build query r c))).
Proof.
  intros Hr.
  destruct (fetch_or_build_rebuild_catalog query r c Hr) as (Hid & Hc & _).
  unfold rds_ids_of_subquery. rewrite Hc, Hid, filter_app, map_app.
  apply in_or_app. right. cbn. rewrite String.eqb_refl. now left.
Qed.

(** The rows of every id of a prepare with rebuild. *)
Lemma rebuild_loop_rows (c : dbi_conn) (query : qtree_or_node) (r : Z)
  (c0 : dbi_conn) :
  r <> 0 -> catalog_keys c0 -> RDS_below c0 -> same_tables c c0 ->
  NoDup (subqueries query) ->
  plain_query query ->
  Forall2 (fun q id =>
             forall i name,
               In (mk_RDS_row id i name) (RDS (snd (prepare_ids query r c0)))
               <-> conjunction_selects c (and_set q) (mk_objects_row i name))
    (or_chain query) (fst (prepare_ids query r c0)).
Proof.
  intros Hr. revert c0; induction query as [|a next IH];
    intros c0 Hkeys Hbelow Hsame Hnd Hall; [constructor|].
  rewrite prepare_ids_cons. cbn [fst snd or_chain].
  change (subqueries (or_node a next))
    with (tagsistant_RDS_build_subquery (or_node a next) :: subqueries next)
    in Hnd.
  inversion Hnd as [|? ? Hnotin Hnd']; subst.
  destruct (rebuild_turn (or_node a next) r c0 Hr Hbelow
              (Hall _ (or_introl eq_refl))) as (Ht & Hb & Hrows).
  set (c1 := snd (fetch_or_build (or_node a next) r c0)) in *.
  set (id := fst (fetch_or_build (or_node a next) r c0)) in *.
  assert (Hkeys1 : catalog_keys c1) by now apply keys_turn.
  constructor.
  - intros i name.
    rewrite (rebuild_loop_keeps next r c1 id _ Hr Hkeys1
               (proj2 (plain_query_cons a next Hall))
               (turn_registers (or_node a next) r c0 Hr) Hnotin
               (mk_RDS_row id i name) eq_refl).
    rewrite Hrows. now apply conjunction_selects_same.
  - apply IH; auto.
    + now apply (same_tables_trans _ c0).
    + exact (proj2 (plain_query_cons a next Hall)).
Qed.

Lemma joined_object (c : dbi_conn) (o : objects_row) (t : tags_row) :
  In (o, t) (joined c) -> In o (objects c).
Proof.
  unfold joined. rewrite in_flat_map. intros (o' & Ho & H).
  apply in_flat_map in H as (tg & _ & H).
  destruct (tagging_inode tg =? obj_inode o'); [|contradiction].
  apply in_map_iff in H as (t' & [= <- _] & _). exact Ho.
Qed.

Lemma conjunction_selects_object (c : dbi_conn) (n : qtree_and_node)
  (o : objects_row) :
  conjunction_selects c n o -> In o (objects c).
Proof.
  destruct n as [|f next related negated]; [contradiction|].
  intros [(t & _ & _ & Hj & _) _]. now apply joined_object in Hj.
Qed.

Lemma refers_below (c : dbi_conn) :
  catalog_wf c -> RDS_refers_to_catalog c -> RDS_below c.
Proof.
  intros [_ Hwf] Href row Hrow. apply Href in Hrow.
  apply in_map_iff in Hrow as (x & <- & Hx). apply Hwf in Hx. lia.
Qed.

Lemma Forall2_left {A B : Type} (P : A -> B -> Prop) (l : list A)
  (l' : list B) (y : B) :
  Forall2 P l l' -> In y l' -> exists x, In x l /\ P x y.
Proof.
  induction 1 as [|a b l l' Hab _ IH]; [contradiction|].
  intros [<- | Hy].
  - exists a. split; [now left | assumption].
  - destruct (IH Hy) as (x & Hx & Hp). exists x. split; [now right | assumption].
Qed.

Lemma Forall2_right {A B : Type} (P : A -> B -> Prop) (l : list A)
  (l' : list B) (x : A) :
  Forall2 P l l' -> In x l -> exists y, In y l' /\ P x y.
Proof.
  induction 1 as [|a b l l' Hab _ IH]; [contradiction|].
  intros [<- | Hx].
  - exists b. split; [now left | assumption].
  - destruct (IH Hx) as (y & Hy & Hp). exists y. split; [now right | assumption].
Qed.

(** X15.  Prepare with rebuild, then load.  On a catalog with distinct ids
    and subqueries whose ids the RDS rows refer to, for a query whose
    conjunctions have distinct subqueries and plain atoms (by id, by name,
    or a triple with eq, gt or lt; no quote, per cent sign or backslash in
    their strings; a tag id that [%d] prints as it is), with ids to give in
    the range of [int], and object names of less than 1024 characters: the
    table loaded from the fingerprint that prepare returns lists an object
    exactly when it satisfies one of the conjunctions of the query on the
    objects, tagging and tags tables as they are, whatever the RDS table
    held before. *)
Theorem rebuild_then_load (query : qtree_or_node) (r : Z) (c : dbi_conn) :
  r <> 0 -> catalog_keys c -> RDS_refers_to_catalog c ->
  NoDup (subqueries query) ->
  plain_query query ->
  auto_increment c + Z.of_nat (List.length (or_chain query)) <= 2 ^ 31 ->
  (forall o, In o (objects c) -> (String.length (obj_objectname o) < 1024)%nat) ->
  let x := tagsistant_RDS_prepare query 0 r c in
  let y := tagsistant_RDS_load (fst x) (snd x) in
  forall name i,
    table_holds (fst y) name i
    <-> exists q, In q (or_chain query)
                  /\ conjunction_selects c (and_set q) (mk_objects_row i name).
Proof.
  intros Hr Hkeys Href Hnd Hall _ Hshort. cbv zeta. intros name i.
  destruct query as [|a next].
  - change (tagsistant_RDS_prepare or_NULL 0 r c) with (@None string, c).
    cbn [fst snd]. rewrite load_NULL. cbn.
    split; [contradiction | now intros (q & [] & _)].
  - pose proof (rebuild_loop_rows c (or_node a next) r c Hr Hkeys
                  (refers_below c (proj1 Hkeys) Href) (same_tables_refl c)
                  Hnd Hall) as Hrows.
    rewrite prepare_fingerprint. cbn [fst snd].
    set (c' := snd (prepare_ids (or_node a next) r c)) in *.
    set (ids := fst (prepare_ids (or_node a next) r c)) in *.
    assert (Hp : parse_in_list (printf_s (Some (fingerprint_of ids))) = Some ids).
    { subst ids. rewrite prepare_ids_cons. cbn [fst]. apply parse_fingerprint. }
    rewrite (load_parsed _ ids c' Hp). cbn [fst].
    assert (Hrow : forall row, In row (RDS c') -> In (rds_id row) ids ->
              exists q, In q (or_chain (or_node a next))
                /\ conjunction_selects c (and_set q)
                     (mk_objects_row (inode row) (objectname row))).
    { intros [id i' name'] Hin Hid. cbn [rds_id inode objectname] in Hid |- *.
      destruct (Forall2_left _ _ _ id Hrows Hid) as (q & Hq & Hiff).
      exists q. split; [assumption | now apply Hiff]. }
    destruct (callback_fold (nodup object_eq_dec (objects_in ids c'))
                g_hash_table_new) as [_ H].
    + intros [name' i'] Hin. apply nodup_In, In_objects_in in Hin
        as (row & Hin & Hid & <- & _). cbn [fst].
      destruct (Hrow row Hin Hid) as (q & _ & Hsel).
      apply conjunction_selects_object in Hsel.
      exact (Hshort _ Hsel).
    + apply table_ok_new.
    + rewrite H, nodup_In, In_objects_in. split.
      * intros [[] | (row & Hin & Hid & <- & <-)]. now apply Hrow.
      * intros (q & Hq & Hsel). right.
        destruct (Forall2_right _ _ _ q Hrows Hq) as (id & Hid & Hiff).
        exists (mk_RDS_row id i name). repeat split; [|assumption].
        now apply Hiff.
Qed.

Lemma rebuild_then_load_witness :
  table_holds
    (fst (tagsistant_RDS_load
            (fst (tagsistant_RDS_prepare red_or_big 0 1 expired_conn))
            (snd (tagsistant_RDS_prepare red_or_big 0 1 expired_conn))))
    "three" 3.
Proof.
  refine (proj2 (rebuild_then_load red_or_big 1 expired_conn _ _ _ _ _ _ _
                   "three"%string 3) _).
  - discriminate.
  - split; [|split].
    + split; [reflexivity|]. intros row [<- | []]. split; reflexivity.
    + repeat constructor. intros [].
    + repeat constructor. intros [].
  - intros row [<- | []]. now left.
  - change (subqueries red_or_big) with ["red/"; "big/"]%string.
    constructor; [intros [H | []]; discriminate H|].
    constructor; [intros [] | constructor].
  - intros q [<- | [<- | []]]; repeat constructor.
  - apply Z.leb_le. vm_compute. reflexivity.
  - intros o Ho. apply Nat.ltb_lt.
    refine (proj1 (forallb_forall
                     (fun o => (String.length (obj_objectname o) <? 1024)%nat) _)
              _ o Ho).
    vm_compute. reflexivity.
  - exists (or_node (leaf (named "big")) or_NULL). split; [right; now left|].
    split; [|split].
    + exists (mk_tags_row 20 "big" "" ""), (named "big"), (tagname_is "big").
      repeat split; try reflexivity; vm_compute; auto 10.
    + intros cl [].
    + intros cl [].
Defined.

(** ** Contains and load *)




(** ** Prepare without rebuild, then load *)

Lemma build_keeps_rows (query : qtree_or_node) (s : string) (c : dbi_conn)
  (row : RDS_row) :
  plain_conjunction (and_set query) ->
  rds_id row <> auto_increment c ->
  In row (RDS (snd (tagsistant_RDS_build query s c))) <-> In row (RDS c).
Proof.
  intros Hplain Hne. pose proof (build_others query s c Hplain) as Ho.
  split; intros H.
  - assert (H' : In row (others (auto_increment c)
                           (RDS (snd (tagsistant_RDS_build query s c)))))
      by (apply In_others; auto).
    rewrite Ho in H'. now apply In_others in H'.
  - assert (H' : In row (others (auto_increment c) (RDS c)))
      by (apply In_others; auto).
    rewrite <- Ho in H'. now apply In_others in H'.
Qed.

(** One turn of the loop without rebuild. *)
Lemma keep_turn (query : qtree_or_node) (c0 : dbi_conn) :
  catalog_wf c0 -> RDS_below c0 ->
  plain_conjunction (and_set query) ->
  let x := fetch_or_build query 0 c0 in
  same_tables c0 (snd x) /\ RDS_below (snd x)
  /\ auto_increment c0 <= auto_increment (snd x)
  /\ fst x < auto_increment (snd x)
  /\ forall i name,
       In (mk_RDS_row (fst x) i name) (RDS (snd x))
       <-> answered c0 query (mk_objects_row i name).
Proof.
  intros Hwf Hbelow Hall. cbv zeta. rewrite fetch_or_build_keep. cbv zeta.
  unfold answered. cbv zeta. cbn [obj_inode obj_objectname].
  set (s := tagsistant_RDS_build_subquery query).
  set (c1 := with_statement c0 (select_statement s)).
  destruct (lookup s c0 =? 0) eqn:E.
  - destruct (build_registers query s c1) as [Hid _].
    destruct (build_catalog query s c1) as [_ Ha].
    change (auto_increment c1) with (auto_increment c0) in *.
    rewrite Hid, Ha.
    split; [|split; [|split; [|split]]].
    + apply (same_tables_trans _ c1); [now repeat split | apply build_tables].
    + apply below_build; [exact Hall | exact Hbelow].
    + lia.
    + lia.
    + intros i name.
      change (auto_increment c0) with (auto_increment c1).
      rewrite (build_membership query s c1 Hall).
      * apply conjunction_selects_same. now repeat split.
      * intros row Hrow. apply Hbelow in Hrow.
        change (auto_increment c1) with (auto_increment c0). lia.
  - apply Z.eqb_neq in E. cbn [fst snd].
    split; [|split; [|split; [|split]]].
    + now repeat split.
    + exact Hbelow.
    + reflexivity.
    + destruct (lookup_In s c0 E) as (r & Hr & _ & <-).
      destruct Hwf as [_ Hwf]. apply Hwf in Hr.
      change (auto_increment c1) with (auto_increment c0). lia.
    + reflexivity.
Qed.

(** A turn without rebuild leaves the rows of the ids given before as they
    are. *)
Lemma keep_turn_rows (query : qtree_or_node) (c0 : dbi_conn) (row : RDS_row) :
  plain_conjunction (and_set query) ->
  rds_id row < auto_increment c0 ->
  In row (RDS (snd (fetch_or_build query 0 c0))) <-> In row (RDS c0).
Proof.
  intros Hplain Hlt. rewrite fetch_or_build_keep. cbv zeta.
  set (s := tagsistant_RDS_build_subquery query).
  destruct (lookup s c0 =? 0); [|reflexivity].
  rewrite build_keeps_rows; [reflexivity | exact Hplain |].
  change (auto_increment (with_statement c0 (select_statement s)))
    with (auto_increment c0). lia.
Qed.

Lemma keep_turn_counter (query : qtree_or_node) (c0 : dbi_conn) :
  auto_increment c0 <= auto_increment (snd (fetch_or_build query 0 c0)).
Proof.
  rewrite fetch_or_build_keep. cbv zeta.
  set (s := tagsistant_RDS_build_subquery query).
  destruct (lookup s c0 =? 0); [|cbn; lia].
  destruct (build_catalog query s (with_statement c0 (select_statement s)))
    as [_ Ha].
  rewrite Ha. cbn. lia.
Qed.

Lemma keep_loop_rows (query : qtree_or_node) (c0 : dbi_conn) (row : RDS_row) :
  plain_query query ->
  rds_id row < auto_increment c0 ->
  In row (RDS (snd (prepare_ids query 0 c0))) <-> In row (RDS c0).
Proof.
  revert c0; induction query as [|a next IH]; intros c0 Hplain Hlt;
    [reflexivity|].
  apply plain_query_cons in Hplain as [Ha Hnext].
  rewrite prepare_ids_cons. cbn [snd].
  rewrite IH; [now apply keep_turn_rows | exact Hnext |].
  pose proof (keep_turn_counter (or_node a next) c0). lia.
Qed.

(** A turn without rebuild changes nothing to the answer for another
    subquery. *)
Lemma answered_turn (query q' : qtree_or_node) (c0 : dbi_conn)
  (o : objects_row) :
  catalog_wf c0 ->
  plain_conjunction (and_set query) ->
  tagsistant_RDS_build_subquery q' <> tagsistant_RDS_build_subquery query ->
  answered (snd (fetch_or_build query 0 c0)) q' o <-> answered c0 q' o.
Proof.
  intros Hwf Hplain Hne. unfold answered. cbv zeta.
  set (s' := tagsistant_RDS_build_subquery q') in *.
  assert (Hl : lookup s' (snd (fetch_or_build query 0 c0)) = lookup s' c0).
  { rewrite fetch_or_build_keep. cbv zeta.
    set (s := tagsistant_RDS_build_subquery query) in *.
    destruct (lookup s c0 =? 0); [|reflexivity].
    destruct (build_catalog query s (with_statement c0 (select_statement s)))
      as [Hc _].
    unfold lookup. rewrite (rds_ids_registered s s' _ _ Hc).
    assert (E : (s =? s')%string = false) by (apply String.eqb_neq; congruence).
    rewrite E, app_nil_r. reflexivity. }
  rewrite Hl. destruct (lookup s' c0 =? 0) eqn:E.
  - apply conjunction_selects_same.
    rewrite fetch_or_build_keep. cbv zeta.
    set (s := tagsistant_RDS_build_subquery query) in *.
    destruct (lookup s c0 =? 0); [|now repeat split].
    apply (same_tables_trans _ (with_statement c0 (select_statement s)));
      [now repeat split | apply build_tables].
  - apply Z.eqb_neq in E. apply keep_turn_rows; [exact Hplain|]. cbn [rds_id].
    destruct (lookup_In s' c0 E) as (r & Hr & _ & <-).
    destruct Hwf as [_ Hwf]. apply Hwf in Hr. lia.
Qed.

Lemma Forall2_impl_In {A B : Type} (P Q : A -> B -> Prop) (l : list A)
  (l' : list B) :
  (forall x y, In x l -> P x y -> Q x y) -> Forall2 P l l' -> Forall2 Q l l'.
Proof.
  intros H F. induction F as [|a b l l' Hab _ IH]; constructor.
  - apply H; [now left | assumption].
  - apply IH. intros x y Hx. apply H. now right.
Qed.

Lemma keep_loop_answers (query : qtree_or_node) (c0 : dbi_conn) :
  catalog_wf c0 -> RDS_below c0 ->
  NoDup (subqueries query) ->
  plain_query query ->
  Forall2 (fun q id =>
             forall i name,
               In (mk_RDS_row id i name) (RDS (snd (prepare_ids query 0 c0)))
               <-> answered c0 q (mk_objects_row i name))
    (or_chain query) (fst (prepare_ids query 0 c0)).
Proof.
  revert c0; induction query as [|a next IH];
    intros c0 Hwf Hbelow Hnd Hall; [constructor|].
  rewrite prepare_ids_cons. cbn [fst snd or_chain].
  change (subqueries (or_node a next))
    with (tagsistant_RDS_build_subquery (or_node a next) :: subqueries next)
    in Hnd.
  inversion Hnd as [|? ? Hnotin Hnd']; subst.
  destruct (plain_query_cons a next Hall) as [Ha Hnext].
  destruct (keep_turn (or_node a next) c0 Hwf Hbelow Ha)
    as (Ht & Hb & _ & Hlt & Hrows).
  set (c1 := snd (fetch_or_build (or_node a next) 0 c0)) in *.
  set (id := fst (fetch_or_build (or_node a next) 0 c0)) in *.
  assert (Hwf1 : catalog_wf c1) by now apply fetch_or_build_wf.
  constructor.
  - intros i name. rewrite keep_loop_rows by assumption. apply Hrows.
  - apply (Forall2_impl_In
             (fun q id' =>
                forall i name,
                  In (mk_RDS_row id' i name) (RDS (snd (prepare_ids next 0 c1)))
                  <-> answered c1 q (mk_objects_row i name))).
    + intros q id' Hq H i name. rewrite H.
      apply answered_turn; [exact Hwf | exact Ha |].
      intros E. apply Hnotin. rewrite <- E. unfold subqueries. now apply in_map.
    + apply IH; auto.
Qed.

(** X17.  Prepare without rebuild, then load.  On a catalog with ids below
    the counter, to which the RDS rows refer, for a query whose
    conjunctions have distinct subqueries and plain atoms (by id, by name,
    or a triple with eq, gt or lt; no quote, per cent sign or backslash in
    their strings; a tag id that [%d] prints as it is), with ids to give in
    the range of [int], and names of less than 1024 characters: the table
    loaded from the fingerprint lists an object exactly when one of the
    conjunctions of the query answers it, from the rows kept under the id
    of its subquery when the catalog has an entry for it (expired or not),
    and from the objects, tagging and tags tables when it has none. *)
Theorem prepare_then_load (query : qtree_or_node) (c : dbi_conn) :
  catalog_wf c -> RDS_refers_to_catalog c ->
  NoDup (subqueries query) ->
  plain_query query ->
  auto_increment c + Z.of_nat (List.length (or_chain query)) <= 2 ^ 31 ->
  (forall o, In o (objects c) -> (String.length (obj_objectname o) < 1024)%nat) ->
  (forall row, In row (RDS c) -> (String.length (objectname row) < 1024)%nat) ->
  let x := tagsistant_RDS_prepare query 0 0 c in
  let y := tagsistant_RDS_load (fst x) (snd x) in
  forall name i,
    table_holds (fst y) name i
    <-> exists q, In q (or_chain query)
                  /\ answered c q (mk_objects_row i name).
Proof.
  intros Hwf Href Hnd Hall _ Hshort Hshort'. cbv zeta. intros name i.
  destruct query as [|a next].
  - change (tagsistant_RDS_prepare or_NULL 0 0 c) with (@None string, c).
    cbn [fst snd]. rewrite load_NULL. cbn.
    split; [contradiction | now intros (q & [] & _)].
  - pose proof (keep_loop_answers (or_node a next) c Hwf
                  (refers_below c Hwf Href) Hnd Hall) as Hrows.
    rewrite prepare_fingerprint. cbn [fst snd].
    set (c' := snd (prepare_ids (or_node a next) 0 c)) in *.
    set (ids := fst (prepare_ids (or_node a next) 0 c)) in *.
    assert (Hp : parse_in_list (printf_s (Some (fingerprint_of ids))) = Some ids).
    { subst ids. rewrite prepare_ids_cons. cbn [fst]. apply parse_fingerprint. }
    rewrite (load_parsed _ ids c' Hp). cbn [fst].
    assert (Hrow : forall row, In row (RDS c') -> In (rds_id row) ids ->
              exists q, In q (or_chain (or_node a next))
                /\ answered c q (mk_objects_row (inode row) (objectname row))).
    { intros [id i' name'] Hin Hid. cbn [rds_id inode objectname] in Hid |- *.
      destruct (Forall2_left _ _ _ id Hrows Hid) as (q & Hq & Hiff).
      exists q. split; [assumption | exact (proj1 (Hiff i' name') Hin)]. }
    destruct (callback_fold (nodup object_eq_dec (objects_in ids c'))
                g_hash_table_new) as [_ H].
    + intros [name' i'] Hin. apply nodup_In, In_objects_in in Hin
        as (row & Hin & Hid & <- & _). cbn [fst].
      destruct (Hrow row Hin Hid) as (q & _ & Hsel).
      unfold answered in Hsel. cbv zeta in Hsel.
      cbn [obj_inode obj_objectname] in Hsel.
      destruct (lookup _ c =? 0).
      * apply conjunction_selects_object in Hsel. exact (Hshort _ Hsel).
      * exact (Hshort' _ Hsel).
    + apply table_ok_new.
    + rewrite H, nodup_In, In_objects_in. split.
      * intros [[] | (row & Hin & Hid & <- & <-)]. now apply Hrow.
      * intros (q & Hq & Hsel). right.
        destruct (Forall2_right _ _ _ q Hrows Hq) as (id & Hid & Hiff).
        exists (mk_RDS_row id i name).
        split; [exact (proj2 (Hiff i name) Hsel)|]. now repeat split.
Qed.

Lemma prepare_then_load_witness :
  table_holds
    (fst (tagsistant_RDS_load
            (fst (tagsistant_RDS_prepare red_or_big 0 0 expired_conn))
            (snd (tagsistant_RDS_prepare red_or_big 0 0 expired_conn))))
    "one" 1.
Proof.
  refine (proj2 (prepare_then_load red_or_big expired_conn _ _ _ _ _ _ _
                   "one"%string 1) _).
  - split; [reflexivity|]. intros row [<- | []]. split; reflexivity.
  - intros row [<- | []]. now left.
  - change (subqueries red_or_big) with ["red/"; "big/"]%string.
    constructor; [intros [H | []]; discriminate H|].
    constructor; [intros [] | constructor].
  - intros q [<- | [<- | []]]; repeat constructor.
  - apply Z.leb_le. vm_compute. reflexivity.
  - intros o Ho. apply Nat.ltb_lt.
    refine (proj1 (forallb_forall
                     (fun o => (String.length (obj_objectname o) <? 1024)%nat) _)
              _ o Ho).
    vm_compute. reflexivity.
  - intros row Hrow. apply Nat.ltb_lt.
    refine (proj1 (forallb_forall
                     (fun row => (String.length (objectname row) <? 1024)%nat) _)
              _ row Hrow).
    vm_compute. reflexivity.
  - exists red_or_big. split; [now left|]. vm_compute. now left.
Defined.

(** ** Tag-level invalidation *)

Lemma invalidate_single_tag_evicts (f : and_fields) (c : dbi_conn) :
  tagsistant_RDS_invalidate_single_tag f c = (tt, evicted f c).
Proof.
  unfold tagsistant_RDS_invalidate_single_tag, evicted, like_statements,
    like_pattern.
  destruct (tag f) as [t|].
  - rewrite bind_eq. unfold tagsistant_query_like.
    change (sprintf
              ("delete from RDS where rds_id in (" ++
               "select rds_id from RDS_catalog where subquery like '%%%s%%')")
              [arg_s (Some t)])
      with [Lit "delete from RDS where rds_id in (select rds_id from RDS_catalog where subquery like '%";
            Str t; Lit "%')"].
    change (sprintf "delete from RDS_catalog where subquery like '%%%s%%'"
              [arg_s (Some t)])
      with [Lit "delete from RDS_catalog where subquery like '%"; Str t;
            Lit "%'"].
    cbv zeta.
    change (sql_parse_like
              [Lit "delete from RDS where rds_id in (select rds_id from RDS_catalog where subquery like '%";
               Str t; Lit "%')"]) with (Some (delete_RDS_like t)).
    change (sql_parse_like
              [Lit "delete from RDS_catalog where subquery like '%"; Str t;
               Lit "%'"]) with (Some (delete_catalog_like t)).
    cbn [fst snd sql_exec_like]. unfold with_statement, with_RDS, with_RDS_catalog.
    cbn [RDS_catalog RDS objects tagging tags auto_increment last_insert_id
         statements].
    now rewrite <- app_assoc.
  - rewrite bind_eq. unfold tagsistant_query_like.
    change (sprintf
              ("delete from RDS where rds_id in (" ++
               "select rds_id from RDS_catalog where subquery like '%%%s/%s%%')")
              [arg_s (namespace f); arg_s (key f)])
      with [Lit "delete from RDS where rds_id in (select rds_id from RDS_catalog where subquery like '%";
            Str (printf_s (namespace f)); Lit "/"; Str (printf_s (key f));
            Lit "%')"].
    change (sprintf "delete from RDS_catalog where subquery like '%%%s/%s%%'"
              [arg_s (namespace f); arg_s (key f)])
      with [Lit "delete from RDS_catalog where subquery like '%";
            Str (printf_s (namespace f)); Lit "/"; Str (printf_s (key f));
            Lit "%'"].
    cbv zeta.
    change (sql_parse_like
              [Lit "delete from RDS where rds_id in (select rds_id from RDS_catalog where subquery like '%";
               Str (printf_s (namespace f)); Lit "/"; Str (printf_s (key f));
               Lit "%')"])
      with (Some (delete_RDS_like
                    (printf_s (namespace f) ++ "/" ++ printf_s (key f)))).
    change (sql_parse_like
              [Lit "delete from RDS_catalog where subquery like '%";
               Str (printf_s (namespace f)); Lit "/"; Str (printf_s (key f));
               Lit "%'"])
      with (Some (delete_catalog_like
                    (printf_s (namespace f) ++ "/" ++ printf_s (key f)))).
    cbn [fst snd sql_exec_like]. unfold with_statement, with_RDS, with_RDS_catalog.
    cbn [RDS_catalog RDS objects tagging tags auto_increment last_insert_id
         statements].
    now rewrite <- app_assoc.
Qed.

Lemma prefix_app (p s : string) : String.prefix p (p ++ s) = true.
Proof.
  induction p as [|x p IH]; [now destruct s|].
  cbn. destruct (ascii_dec x x); [exact IH | contradiction].
Qed.

Lemma prefix_split (p s : string) :
  String.prefix p s = true -> exists b, s = (p ++ b)%string.
Proof.
  revert s; induction p as [|x p IH]; intros s H.
  - exists s. reflexivity.
  - destruct s as [|y s]; [discriminate|]. cbn in H.
    destruct (ascii_dec x y) as [-> | _]; [|discriminate].
    destruct (IH s H) as (b & ->). exists b. reflexivity.
Qed.

Lemma is_substring_unfold (p s : string) :
  is_substring p s
  = String.prefix p s
    || match s with
       | EmptyString => false
       | String _ s' => is_substring p s'
       end.
Proof. destruct s; reflexivity. Qed.

(** [is_substring] says that the text holds the pattern somewhere. *)
Lemma is_substring_spec (p s : string) :
  is_substring p s = true <-> exists a b, s = (a ++ p ++ b)%string.
Proof.
  split.
  - induction s as [|x s IH]; rewrite is_substring_unfold; intros H.
    + rewrite orb_false_r in H. apply prefix_split in H as (b & E).
      exists ""%string, b. exact E.
    + apply orb_true_iff in H as [H | H].
      * apply prefix_split in H as (b & E). exists ""%string, b. exact E.
      * destruct (IH H) as (a & b & ->). exists (String x a), b. reflexivity.
  - intros (a & b & ->). induction a as [|x a IH].
    + rewrite is_substring_unfold. cbn [append]. now rewrite prefix_app.
    + rewrite is_substring_unfold. cbn [append]. rewrite IH. apply orb_true_r.
Qed.

Lemma is_substring_trans (p s t : string) :
  is_substring p s = true -> is_substring s t = true ->
  is_substring p t = true.
Proof.
  rewrite !is_substring_spec. intros (a & b & ->) (a' & b' & ->).
  exists (a' ++ a)%string, (b ++ b')%string. now rewrite !append_assoc.
Qed.

Lemma is_substring_concat (g : and_fields -> string) (l : list and_fields)
  (f : and_fields) :
  In f l -> is_substring (g f) (String.concat "" (map g l)) = true.
Proof.
  induction l as [|x l IH]; [contradiction|]. cbn [map].
  rewrite concat_empty_cons. intros [-> | Hin]; apply is_substring_spec.
  - exists ""%string, (String.concat "" (map g l)). reflexivity.
  - apply IH, is_substring_spec in Hin as (a & b & ->).
    exists (g x ++ a)%string, b. now rewrite append_assoc.
Qed.

(** The subquery of a conjunction holds the text of each of its atoms. *)
Lemma render_in_subquery (query : qtree_or_node) (g : and_fields) :
  In g (canonical_atoms (and_set query)) ->
  is_substring (render_atom g) (tagsistant_RDS_build_subquery query) = true.
Proof.
  rewrite build_subquery_canonicalize. unfold canonicalize, canonical_atoms.
  intros Hin. apply in_app_or in Hin as [Hin | Hin].
  - apply (is_substring_concat render_atom) in Hin.
    apply is_substring_spec in Hin as (a & b & ->). apply is_substring_spec.
    exists a, (b ++ String.concat ""
                      (map render_negated (canonical_negated (and_set query))))%string.
    now rewrite !append_assoc.
  - apply (is_substring_concat render_negated) in Hin.
    apply is_substring_spec in Hin as (a & b & ->). apply is_substring_spec.
    exists (String.concat "" (map render_atom (next_chain (and_set query)))
            ++ a ++ "-/")%string, b.
    unfold render_negated. now rewrite !append_assoc.
Qed.

Lemma pattern_in_render (f : and_fields) :
  is_substring (like_pattern f) (render_atom f) = true.
Proof.
  apply is_substring_spec. unfold like_pattern, render_atom.
  destruct (tag f) as [t|].
  - exists ""%string, "/"%string. reflexivity.
  - exists ""%string,
      ("/" ++ operator_name (operator f) ++ printf_s (value f) ++ "/")%string.
    cbn [append]. now rewrite !append_assoc.
Qed.

(** *** [like] on a pattern between two per cent signs *)

Lemma like_percent_unfold (pattern text : string) :
  like_match (String "%" pattern) text
  = like_match pattern text
    || match text with
       | EmptyString => false
       | String _ text' => like_match (String "%" pattern) text'
       end.
Proof. destruct text; reflexivity. Qed.

Lemma like_percent_end (text : string) : like_match "%" text = true.
Proof.
  induction text as [|x text IH]; [reflexivity|].
  rewrite like_percent_unfold, IH. apply orb_true_r.
Qed.

Lemma same_letter_refl (x : ascii) : same_letter x x = true.
Proof. unfold same_letter. apply Ascii.eqb_refl. Qed.

(** A text is like itself, wildcards or not, whatever follows it. *)
Lemma like_self (pattern rest : string) :
  like_match (pattern ++ "%") (pattern ++ rest) = true.
Proof.
  induction pattern as [|x pattern IH]; cbn [append].
  - apply like_percent_end.
  - destruct (Ascii.eqb x "%") eqn:E.
    + apply Ascii.eqb_eq in E. subst x.
      rewrite like_percent_unfold.
      rewrite (like_percent_unfold (pattern ++ "%") (pattern ++ rest)), IH.
      cbn [orb]. apply orb_true_r.
    + cbn [like_match]. rewrite E, same_letter_refl, orb_true_r, IH. reflexivity.
Qed.

(** What holds the pattern as a part is [like] the pattern between two per
    cent signs. *)
Lemma like_contains (pattern text : string) :
  is_substring pattern text = true -> subquery_like pattern text = true.
Proof.
  intros H. apply is_substring_spec in H as (a & b & ->).
  unfold subquery_like. cbn [append].
  induction a as [|x a IH]; rewrite like_percent_unfold.
  - cbn [append]. now rewrite like_self.
  - cbn [append]. rewrite IH. apply orb_true_r.
Qed.

(** X18.  Tag-level invalidation removes every RDS that names the tag, and
    more.  When the pattern of the node (its tag, or namespace/key) is a
    part of the text of an atom that the canonicalizer writes for a query,
    as it is for the node itself, the invalidation leaves no catalog entry
    for the subquery of the query, so that fetch_id finds none, and no row
    of the ids the subquery had.  A tag that is a part of another tag
    removes the RDSs of that tag as well. *)
Theorem invalidate_single_tag_purges (f g : and_fields)
  (query : qtree_or_node) (c : dbi_conn) :
  In g (canonical_atoms (and_set query)) ->
  is_substring (like_pattern f) (render_atom g) = true ->
  let c' := snd (tagsistant_RDS_invalidate_single_tag f c) in
  let s := tagsistant_RDS_build_subquery query in
  ~ In s (map cat_subquery (RDS_catalog c'))
  /\ lookup s c' = 0
  /\ (forall row, In row (RDS c') -> ~ In (rds_id row) (rds_ids_of_subquery s c))
  /\ is_substring (like_pattern g) (render_atom g) = true.
Proof.
  intros Hg Hsub. cbv zeta. rewrite invalidate_single_tag_evicts. cbn [snd].
  pose proof (like_contains _ _
                (is_substring_trans _ _ _ Hsub (render_in_subquery query g Hg)))
    as Hs.
  set (s := tagsistant_RDS_build_subquery query) in *.
  assert (Hnone : filter (fun r => (cat_subquery r =? s)%string)
                    (RDS_catalog (evicted f c)) = []).
  { cbn [evicted RDS_catalog].
    induction (RDS_catalog c) as [|x l IH]; [reflexivity|].
    cbn [filter]. destruct (subquery_like (like_pattern f) (cat_subquery x)) eqn:E;
      cbn [negb]; [exact IH|].
    cbn [filter]. destruct (String.eqb_spec (cat_subquery x) s) as [Ex | _];
      [|exact IH].
    rewrite Ex, Hs in E. discriminate. }
  split; [|split; [|split]].
  - intros Hin. apply in_map_iff in Hin as (r & E & Hr).
    assert (H : In r (filter (fun r => (cat_subquery r =? s)%string)
                        (RDS_catalog (evicted f c))))
      by (apply filter_In; split; [assumption | now apply String.eqb_eq]).
    rewrite Hnone in H. contradiction.
  - unfold lookup, rds_ids_of_subquery. now rewrite Hnone.
  - cbn [evicted RDS]. intros row Hrow Hid.
    apply filter_In in Hrow as [_ Hm]. apply negb_true_iff in Hm.
    assert (Hin : In (rds_id row) (rds_ids_like (like_pattern f) c)).
    { unfold rds_ids_of_subquery in Hid.
      apply in_map_iff in Hid as (r & E & Hr). apply filter_In in Hr as [Hr Hq].
      apply String.eqb_eq in Hq. unfold rds_ids_like. apply in_map_iff.
      exists r. split; [assumption|]. apply filter_In. split; [assumption|].
      now rewrite Hq. }
    apply mem_In in Hin. rewrite Hin in Hm. discriminate.
  - apply pattern_in_render.
Qed.

Lemma invalidate_single_tag_purges_witness :
  lookup "bored/"
    (snd (tagsistant_RDS_invalidate_single_tag (named "red") bored_conn)) = 0.
Proof.
  refine (proj1 (proj2 (invalidate_single_tag_purges (named "red")
            (named "bored") (or_node (leaf (named "bored")) or_NULL)
            bored_conn _ _))).
  - now left.
  - vm_compute. reflexivity.
Defined.

(** X19.  What a tag-level invalidation keeps, for a pattern without quote
    and backslash.  It sends two deletes, the rows before their entries, and
    reads or writes no other table.  Every RDS row still carries the id of a
    catalog entry and the keys of the catalog stay distinct; an entry whose
    subquery is not [like] the pattern between two per cent signs, with the
    wildcards [%] and [_] that [like] reads in the pattern and without
    regard to the case of letters, stays, with the rows of its id. *)
Theorem invalidate_single_tag_keeps (f : and_fields) (c : dbi_conn) :
  quote_free (like_pattern f) = true ->
  avoids (ascii_of_nat 92) (like_pattern f) = true ->
  RDS_refers_to_catalog c -> catalog_keys c ->
  let c' := snd (tagsistant_RDS_invalidate_single_tag f c) in
  statements c' = (statements c ++ like_statements f)%list
  /\ same_tables c c'
  /\ auto_increment c' = auto_increment c
  /\ RDS_refers_to_catalog c'
  /\ catalog_keys c'
  /\ forall entry,
       In entry (RDS_catalog c) ->
       subquery_like (like_pattern f) (cat_subquery entry) = false ->
       In entry (RDS_catalog c')
       /\ forall row, rds_id row = cat_rds_id entry ->
                      (In row (RDS c') <-> In row (RDS c)).
Proof.
  intros _ _ Href (Hwf & Hids & Hsubs). cbv zeta.
  rewrite invalidate_single_tag_evicts. cbn [snd].
  split; [reflexivity|]. split; [now repeat split|]. split; [reflexivity|].
  split; [|split].
  - intros row Hrow. cbn [evicted RDS RDS_catalog] in *.
    apply filter_In in Hrow as [Hrow Hm]. apply negb_true_iff in Hm.
    apply Href in Hrow. apply in_map_iff in Hrow as (r & E & Hr).
    apply in_map_iff. exists r. split; [assumption|].
    apply filter_In. split; [assumption|]. apply negb_true_iff.
    destruct (subquery_like (like_pattern f) (cat_subquery r)) eqn:Es;
      [|reflexivity].
    assert (Hin : In (rds_id row) (rds_ids_like (like_pattern f) c)).
    { unfold rds_ids_like. apply in_map_iff. exists r. split; [assumption|].
      apply filter_In. now split. }
    apply mem_In in Hin. rewrite Hin in Hm. discriminate.
  - split; [|split].
    + destruct Hwf as [Hpos Hwf]. split; [exact Hpos|].
      intros r Hr. cbn [evicted RDS_catalog] in Hr.
      apply In_filter_In in Hr. now apply Hwf.
    + cbn [evicted RDS_catalog]. now apply keys_after_delete.
    + cbn [evicted RDS_catalog]. now apply keys_after_delete.
  - intros entry Hin Hno. cbn [evicted RDS RDS_catalog]. split.
    + apply filter_In. split; [assumption|]. now rewrite Hno.
    + intros row Hid. rewrite filter_In. split; [now intros [H _]|].
      intros H. split; [assumption|]. apply negb_true_iff.
      destruct (mem (rds_id row) (rds_ids_like (like_pattern f) c)) eqn:E;
        [|reflexivity].
      apply mem_In in E. unfold rds_ids_like in E.
      apply in_map_iff in E as (r & Er & Hr). apply filter_In in Hr as [Hr Hq].
      assert (r = entry)
        by (apply (NoDup_map_In cat_rds_id (RDS_catalog c)); congruence).
      subst r. rewrite Hno in Hq. discriminate.
Qed.

Lemma invalidate_single_tag_keeps_witness :
  In (mk_catalog_row 2 "big/" 0)
    (RDS_catalog
       (snd (tagsistant_RDS_invalidate_single_tag (named "red") bored_conn))).
Proof.
  refine (proj1 (proj2 (proj2 (proj2 (proj2 (proj2
            (invalidate_single_tag_keeps (named "red") bored_conn
               eq_refl eq_refl _ _)))))
            (mk_catalog_row 2 "big/" 0) _ _)).
  - intros row [<- | [<- | []]]; [now left | right; now left].
  - split; [|split].
    + split; [reflexivity|].
      intros row [<- | [<- | []]]; split; reflexivity.
    + repeat constructor; [intros [H | []]; discriminate H | intros []].
    + repeat constructor; [intros [H | []]; discriminate H | intros []].
  - right. now left.
  - vm_compute. reflexivity.
Defined.

(** * More of fuse_operations/mknod.c *)

(** The four ways through [tagsistant_mknod]. *)
Lemma mknod_paths (env : mknod_callees) (path : string) (mode rdev : Z) :
  let qtree := qtree_of env path in
  let created := tagsistant_force_create_and_tag_object env qtree 0 in
  let made := mknod env (full_archive_path qtree) mode rdev in
  let free := [call_g_free (tagsistant_ID_strip_from_path env path);
               call_destroy_querytree qtree] in
  tagsistant_mknod env path mode rdev
  = if QTREE_IS_MALFORMED qtree then (- EFAULT, free)
    else if negb (QTREE_POINTS_TO_OBJECT qtree) then (- EROFS, free)
    else if QTREE_IS_TAGGABLE qtree && (fst created =? -1)
    then (- snd created, call_force_create_and_tag_object qtree :: free)
    else
      (if fst made =? -1 then - snd made else 0,
       (if QTREE_IS_TAGGABLE qtree
        then [call_force_create_and_tag_object qtree] else [])
       ++ call_mknod (full_archive_path qtree) mode rdev
       :: (if fst made =? -1 then []
           else [call_set_alias path (full_archive_path qtree)])
       ++ free).
Proof.
  cbv zeta. unfold tagsistant_mknod, mknod_body, qtree_of.
  set (qtree := tagsistant_build_querytree env
                  (tagsistant_ID_strip_from_path env path) 0).
  destruct (QTREE_IS_MALFORMED qtree); [reflexivity|].
  destruct (QTREE_POINTS_TO_OBJECT qtree); [|reflexivity]. cbn [negb].
  destruct (QTREE_IS_TAGGABLE qtree); cbn [andb].
  - destruct (tagsistant_force_create_and_tag_object env qtree 0) as [r e].
    cbn [fst snd]. destruct (r =? -1) eqn:E; [now rewrite ?E|].
    destruct (mknod env (full_archive_path qtree) mode rdev) as [r' e'].
    cbn [fst snd]. destruct (r' =? -1) eqn:E'; now rewrite ?E'.
  - destruct (mknod env (full_archive_path qtree) mode rdev) as [r' e'].
    cbn [fst snd]. destruct (r' =? -1) eqn:E'; now rewrite ?E'.
Qed.

Ltac in_calls :=
  repeat match goal with
         | H : In _ (_ :: _) |- _ => destruct H as [H | H]
         | H : In _ [] |- _ => destruct H
         | H : call_force_create_and_tag_object _ = _ |- _ =>
             first [discriminate H | injection H as <-]
         | H : call_mknod _ _ _ = _ |- _ =>
             first [discriminate H | injection H as <- <- <-]
         | H : call_set_alias _ _ = _ |- _ =>
             first [discriminate H | injection H as <- <-]
         | H : call_g_free _ = _ |- _ => discriminate H
         | H : call_destroy_querytree _ = _ |- _ => discriminate H
         end.

(** X20.  What [tagsistant_mknod] does beside returning.  mknod(2) is
    called, on the archive path of the query tree with the mode and device
    given, exactly when the path is not malformed, points to an object, and
    tagging the object, when the path is taggable, did not return -1.  The
    object is created and tagged in the database exactly for a path that is
    not malformed, points to an object and is taggable.  The alias is set
    exactly when mknod(2) was called and did not return -1.  The stripped
    path and the query tree are freed on every path, last. *)
Theorem mknod_calls (env : mknod_callees) (path : string) (mode rdev : Z) :
  let x := tagsistant_mknod env path mode rdev in
  let qtree := qtree_of env path in
  let well := QTREE_IS_MALFORMED qtree = false
              /\ QTREE_POINTS_TO_OBJECT qtree = true in
  let tagged :=
    fst (tagsistant_force_create_and_tag_object env qtree 0) <> -1 in
  (forall p m r,
     In (call_mknod p m r) (snd x)
     <-> p = full_archive_path qtree /\ m = mode /\ r = rdev /\ well
         /\ (QTREE_IS_TAGGABLE qtree = true -> tagged))
  /\ (forall q,
        In (call_force_create_and_tag_object q) (snd x)
        <-> q = qtree /\ well /\ QTREE_IS_TAGGABLE qtree = true)
  /\ (forall p full,
        In (call_set_alias p full) (snd x)
        <-> p = path /\ full = full_archive_path qtree /\ well
            /\ (QTREE_IS_TAGGABLE qtree = true -> tagged)
            /\ fst (mknod env (full_archive_path qtree) mode rdev) <> -1)
  /\ exists calls,
       snd x = (calls ++ [call_g_free (tagsistant_ID_strip_from_path env path);
                          call_destroy_querytree qtree])%list
       /\ forall s q, ~ In (call_g_free s) calls
                      /\ ~ In (call_destroy_querytree q) calls.
Proof.
  cbv zeta. rewrite mknod_paths. cbv zeta.
  set (qtree := qtree_of env path).
  set (created := tagsistant_force_create_and_tag_object env qtree 0).
  set (made := mknod env (full_archive_path qtree) mode rdev).
  destruct (QTREE_IS_MALFORMED qtree), (QTREE_POINTS_TO_OBJECT qtree),
    (QTREE_IS_TAGGABLE qtree);
    cbn [negb andb]; try destruct (Z.eqb_spec (fst created) (-1)) as [Ec | Ec];
    try destruct (Z.eqb_spec (fst made) (-1)) as [Em | Em];
    cbn [fst snd app].
  all: split; [|split; [|split]].
  all: try (intros p m r; split;
            [ intros H; in_calls; repeat split; auto; intros; congruence
            | intros (-> & -> & -> & [Hw1 Hw2] & Ht);
              try discriminate; try (now contradiction (Ht eq_refl));
              cbn [In]; auto 10 ]).
  all: try (intros q; split;
            [ intros H; in_calls; repeat split; auto
            | intros (-> & [Hw1 Hw2] & Ht);
              try discriminate; cbn [In]; auto 10 ]).
  all: try (intros p full; split;
            [ intros H; in_calls; repeat split; auto; intros; congruence
            | intros (-> & -> & [Hw1 Hw2] & Ht & Hm);
              try discriminate; try (now contradiction (Ht eq_refl));
              try contradiction; cbn [In]; auto 10 ]).
  all: match goal with
       | |- exists calls, ?l = _ /\ _ =>
           exists (removelast (removelast l)); split; [reflexivity|];
           cbn [removelast]; intros s q; split; intros H; in_calls
       end.
Qed.

(** X21.  What [tagsistant_mknod] returns.  A malformed path gives -EFAULT,
    a path that is well formed and does not point to an object gives
    -EROFS.  When mknod(2) is called, its result decides: 0 unless it
    returned -1, and minus its errno if it did.  The alias is set only on a
    return of 0. *)
Theorem mknod_returns (env : mknod_callees) (path : string) (mode rdev : Z) :
  let x := tagsistant_mknod env path mode rdev in
  let qtree := qtree_of env path in
  let made := mknod env (full_archive_path qtree) mode rdev in
  (QTREE_IS_MALFORMED qtree = true -> fst x = - EFAULT)
  /\ (QTREE_IS_MALFORMED qtree = false ->
      QTREE_POINTS_TO_OBJECT qtree = false -> fst x = - EROFS)
  /\ (In (call_mknod (full_archive_path qtree) mode rdev) (snd x) ->
      fst x = if fst made =? -1 then - snd made else 0)
  /\ (In (call_set_alias path (full_archive_path qtree)) (snd x) ->
      fst x = 0).
Proof.
  cbv zeta. rewrite mknod_paths. cbv zeta.
  set (qtree := qtree_of env path).
  set (created := tagsistant_force_create_and_tag_object env qtree 0).
  set (made := mknod env (full_archive_path qtree) mode rdev).
  destruct (QTREE_IS_MALFORMED qtree), (QTREE_POINTS_TO_OBJECT qtree),
    (QTREE_IS_TAGGABLE qtree);
    cbn [negb andb]; try destruct (Z.eqb_spec (fst created) (-1)) as [Ec | Ec];
    try destruct (Z.eqb_spec (fst made) (-1)) as [Em | Em];
    cbn [fst snd app].
  all: repeat split; try reflexivity; try discriminate; intros H; in_calls;
    reflexivity.
Qed.

(** X22.  When tagging fails.  For a well formed, taggable path to an
    object on which [tagsistant_force_create_and_tag_object] returns -1,
    [tagsistant_mknod] calls neither mknod(2) nor [tagsistant_set_alias],
    and returns minus the value that the call left in [tagsistant_errno]:
    if the call left the initial 0 there, the caller is told 0. *)
Theorem mknod_tagging_fails (env : mknod_callees) (path : string)
  (mode rdev errno : Z) :
  let qtree := qtree_of env path in
  QTREE_IS_MALFORMED qtree = false ->
  QTREE_POINTS_TO_OBJECT qtree = true ->
  QTREE_IS_TAGGABLE qtree = true ->
  tagsistant_force_create_and_tag_object env qtree 0 = (-1, errno) ->
  tagsistant_mknod env path mode rdev
  = (- errno,
     [call_force_create_and_tag_object qtree;
      call_g_free (tagsistant_ID_strip_from_path env path);
      call_destroy_querytree qtree]).
Proof.
  cbv zeta. intros Hm Ho Ht Hc. rewrite mknod_paths. cbv zeta.
  now rewrite Hm, Ho, Ht, Hc.
Qed.

Lemma mknod_tagging_fails_witness :
  fst (tagsistant_mknod failing_callees "/tags/red/=/file" 33188 0) = 0.
Proof.
  refine (f_equal fst
            (mknod_tagging_fails failing_callees "/tags/red/=/file" 33188 0 0
               eq_refl eq_refl eq_refl eq_refl)).
Defined.
